(** * Engineering Knowledge Graph: store, connectors and query engine

    A shallow embedding of the Python sources

      - [connectors/base.py]            Node, Edge, BaseConnector
      - [connectors/teams.py]           TeamsConnector
      - [connectors/docker_compose.py]  DockerComposeConnector
      - [connectors/kubernetes.py]      KubernetesConnector
      - [graph/storage.py]              GraphStorage
      - [graph/query.py]                QueryEngine
      - [main.py]                       load_graph

    The store is a Neo4j database driven through Cypher text.  Each Cypher
    statement of the sources is embedded as a function over an explicit
    property graph (nodes and relationships with an identity and a flat
    property map), following the documented meaning of the clauses used:
    MATCH, MERGE, SET (with [+=]), variable-length patterns, shortestPath,
    DISTINCT.  Result rows come in store order. *)

From Stdlib Require Import ZArith String Ascii.
From stdpp Require Import gmap strings list fin_maps.

Local Open Scope string_scope.
Local Open Scope list_scope.

(** ** Property values

    Python scalars that travel to the database: [None], [str], [int],
    [bool].  Floats, lists and nested maps are outside the model. *)

Inductive value : Type :=
| VNone
| VStr (s : string)
| VInt (z : Z)
| VBool (b : bool).

#[global] Instance value_eq_dec : EqDecision value.
Proof. solve_decision. Defined.

Definition value_to_sum (v : value) : unit + string + Z + bool :=
  match v with
  | VNone => inl (inl (inl tt))
  | VStr s => inl (inl (inr s))
  | VInt z => inl (inr z)
  | VBool b => inr b
  end.

Definition value_of_sum (x : unit + string + Z + bool) : value :=
  match x with
  | inl (inl (inl _)) => VNone
  | inl (inl (inr s)) => VStr s
  | inl (inr z) => VInt z
  | inr b => VBool b
  end.

#[global] Instance value_countable : Countable value.
Proof.
  apply (inj_countable' value_to_sum value_of_sum).
  by intros [].
Defined.

(** ** connectors/base.py: the dataclasses *)

Record Node : Type := mkNode {
  node_id : string;
  node_type : string;
  node_name : string;
  node_properties : gmap string value
}.

Record Edge : Type := mkEdge {
  edge_id : string;
  edge_type : string;
  edge_source : string;
  edge_target : string;
  edge_properties : gmap string value
}.

#[global] Instance Node_eq_dec : EqDecision Node.
Proof. solve_decision. Defined.

#[global] Instance Edge_eq_dec : EqDecision Edge.
Proof. solve_decision. Defined.

(** ** connectors/base.py: BaseConnector

    The connector object carries the two lists [self.nodes] and
    [self.edges]; the helpers below are the list transformers behind
    [_add_node] and [_add_edge]. *)

Module BaseConnector.

(** [next((n for n in self.nodes if n.id == node.id), None)]; when found,
    [existing.properties.update(node.properties)] mutates the first
    node of that id in place. *)
Fixpoint _add_node (nodes : list Node) (node : Node) : list Node :=
  match nodes with
  | [] => [node]
  | n :: rest =>
      if decide (node_id n = node_id node)
      then mkNode (node_id n) (node_type n) (node_name n)
             (node_properties node ∪ node_properties n) :: rest
      else n :: _add_node rest node
  end.

(** [if not existing: self.edges.append(edge)] *)
Definition _add_edge (edges : list Edge) (edge : Edge) : list Edge :=
  match find (λ e, bool_decide (edge_id e = edge_id edge)) edges with
  | Some _ => edges
  | None => edges ++ [edge]
  end.

End BaseConnector.

(** ** The property graph held by Neo4j

    Nodes and relationships have an identity of their own ([nkey],
    [rkey]); everything the sources store, [id], [type] and [name]
    included, lives in the flat property map.  A property is never stored
    with a null value: setting a property to null removes it.  All
    relationships carry the label [EDGE]. *)

Record gnode : Type := GNode {
  nkey : nat;
  nprops : gmap string value
}.

Record grel : Type := GRel {
  rkey : nat;
  rsrc : nat;
  rdst : nat;
  rprops : gmap string value
}.

Record graph : Type := Graph {
  gnodes : list gnode;
  grels : list grel;
  gfresh : nat
}.

#[global] Instance gnode_eq_dec : EqDecision gnode.
Proof. solve_decision. Defined.

#[global] Instance grel_eq_dec : EqDecision grel.
Proof. solve_decision. Defined.

#[global] Instance graph_eq_dec : EqDecision graph.
Proof. solve_decision. Defined.

Definition empty_graph : graph := Graph [] [] 0.

(** *** Cypher building blocks *)

(** [SET x.k = v]: a null value removes the property. *)
Definition set_prop (k : string) (v : value) (m : gmap string value)
  : gmap string value :=
  match v with
  | VNone => delete k m
  | _ => <[k := v]> m
  end.

(** [SET x += $map]: every key of the map is set as by [set_prop]; keys
    not mentioned are kept. *)
Definition set_props (new m : gmap string value) : gmap string value :=
  merge (λ o old,
           match o with
           | Some VNone => None
           | Some v => Some v
           | None => old
           end) new m.

(** The property test of a pattern [( {id: $id})]. *)
Definition has_id (idv : string) (m : gmap string value) : bool :=
  bool_decide (m !! "id" = Some (VStr idv)).

(** [MATCH (n {id: $id})] *)
Definition match_nodes (g : graph) (idv : string) : list gnode :=
  filter (λ n, has_id idv (nprops n) = true) (gnodes g).

(** [( {k: v})] for an arbitrary parameter value; null equals nothing. *)
Definition has_prop (k : string) (v : value) (m : gmap string value) : bool :=
  bool_decide (v ≠ VNone ∧ m !! k = Some v).

Definition node_of_key (g : graph) (k : nat) : option gnode :=
  find (λ n, bool_decide (nkey n = k)) (gnodes g).

(** One row of [get_all_edges]. *)
Record edge_dict : Type := mkEdgeDict {
  ed_id : value;
  ed_type : value;
  ed_source : value;
  ed_target : value;
  ed_properties : gmap string value
}.

(** [x.k] read from a stored map: null when absent. *)
Definition prop (k : string) (m : gmap string value) : value :=
  default VNone (m !! k).

(** ** graph/storage.py *)

Module GraphStorage.

(** [clear_all]: MATCH (n) DETACH DELETE n *)
Definition clear_all (g : graph) : graph := Graph [] [] (gfresh g).

(** The SET clause of [upsert_node], applied to one matched node:
    [SET n.type = $type, n.name = $name, n += $properties]. *)
Definition set_node (node : Node) (m : gmap string value)
  : gmap string value :=
  set_props (node_properties node)
    (set_prop "name" (VStr (node_name node))
       (set_prop "type" (VStr (node_type node)) m)).

(** [MERGE (n {id: $id})]: when no node matches, one is created with
    exactly the pattern's property. *)
Definition merge_node (g : graph) (idv : string) : graph :=
  match match_nodes g idv with
  | [] => Graph (gnodes g ++ [GNode (gfresh g) {[ "id" := VStr idv ]}])
            (grels g) (S (gfresh g))
  | _ => g
  end.

Definition upsert_node (g : graph) (node : Node) : graph :=
  let g1 := merge_node g (node_id node) in
  Graph
    (map (λ n, if has_id (node_id node) (nprops n)
               then GNode (nkey n) (set_node node (nprops n))
               else n)
       (gnodes g1))
    (grels g1) (gfresh g1).

(** The SET clause of [upsert_edge]: [SET r.type = $type,
    r += $properties]. *)
Definition set_rel (edge : Edge) (m : gmap string value)
  : gmap string value :=
  set_props (edge_properties edge)
    (set_prop "type" (VStr (edge_type edge)) m).

(** A relationship matched by [(source)-[r:EDGE {id: $id}]->(target)]
    for the row binding [source] to key [s] and [target] to key [t]. *)
Definition rel_matches (s t : nat) (idv : string) (r : grel) : bool :=
  bool_decide (rsrc r = s) && bool_decide (rdst r = t)
  && has_id idv (rprops r).

(** [MERGE (source)-[r:EDGE {id: $id}]->(target)] on one row. *)
Definition merge_rel (idv : string) (g : graph) (row : nat * nat) : graph :=
  if existsb (rel_matches row.1 row.2 idv) (grels g)
  then g
  else Graph (gnodes g)
         (grels g ++ [GRel (gfresh g) row.1 row.2 {[ "id" := VStr idv ]}])
         (S (gfresh g)).

(** The rows produced by the two MATCH clauses of [upsert_edge]. *)
Definition edge_rows (g : graph) (edge : Edge) : list (nat * nat) :=
  s ← match_nodes g (edge_source edge);
  t ← match_nodes g (edge_target edge);
  [(nkey s, nkey t)].

Definition upsert_edge (g : graph) (edge : Edge) : graph :=
  let rows := edge_rows g edge in
  let g1 := foldl (merge_rel (edge_id edge)) g rows in
  Graph (gnodes g1)
    (map (λ r, if existsb (λ row, rel_matches row.1 row.2 (edge_id edge) r)
                    rows
               then GRel (rkey r) (rsrc r) (rdst r)
                      (set_rel edge (rprops r))
               else r)
       (grels g1))
    (gfresh g1).

(** [get_node]: [result.single()] hands back the first record, or
    [None] when there is none; [dict(record["n"])] is its property
    map. *)
Definition get_node (g : graph) (idv : string)
  : option (gmap string value) :=
  nprops <$> head (match_nodes g idv).

Definition bulk_upsert_nodes (g : graph) (nodes : list Node) : graph :=
  foldl upsert_node g nodes.

Definition bulk_upsert_edges (g : graph) (edges : list Edge) : graph :=
  foldl upsert_edge g edges.

(** [get_nodes] called without [filters], as every call of the
    repository is: [MATCH (n {type: $type}) RETURN n] when [node_type] is
    a non-empty string, [MATCH (n) RETURN n] otherwise. *)
Definition get_nodes (g : graph) (node_type : option string)
  : list (gmap string value) :=
  match node_type with
  | Some t =>
      if String.eqb t "" then nprops <$> gnodes g
      else nprops <$>
             filter (λ n, has_prop "type" (VStr t) (nprops n) = true)
               (gnodes g)
  | None => nprops <$> gnodes g
  end.

(** [delete_node]: [MATCH (n {id: $id}) DETACH DELETE n
    RETURN count(n) as deleted].  Every matched node goes, with every
    relationship that has it at one end; the answer tells whether a node
    was matched. *)
Definition delete_node (g : graph) (node_id : string) : graph * bool :=
  let gone := nkey <$> match_nodes g node_id in
  (Graph
     (filter (λ n, has_id node_id (nprops n) = false) (gnodes g))
     (filter (λ r, (rsrc r ∉ gone) ∧ (rdst r ∉ gone)) (grels g))
     (gfresh g),
   bool_decide (0 < length (match_nodes g node_id))).

(** [get_all_edges]: [MATCH (source)-[r:EDGE]->(target)
    RETURN r.id as id, r.type as type, source.id as source,
    target.id as target, r as properties]; the properties of a row are
    those of the relationship without [id] and [type]. *)
Definition get_all_edges (g : graph) : list edge_dict :=
  r ← grels g;
  match node_of_key g (rsrc r), node_of_key g (rdst r) with
  | Some source, Some target =>
      [mkEdgeDict (prop "id" (rprops r)) (prop "type" (rprops r))
         (prop "id" (nprops source)) (prop "id" (nprops target))
         (delete "type" (delete "id" (rprops r)))]
  | _, _ => []
  end.

End GraphStorage.

(** ** Outcomes of calls that may raise *)

Inductive exn : Type :=
| IndexError               (* Python: list index out of range *)
| CypherTypeError          (* Neo4j: property access on a list value *)
| ShortestPathCommonNodes. (* Neo4j: shortestPath with start = end *)

Inductive outcome (A : Type) : Type :=
| Ok (a : A)
| Raise (e : exn).

Arguments Ok {A} a.
Arguments Raise {A} e.

(** ** Pattern matching over the property graph *)

(** DISTINCT, keeping the first occurrence of every row. *)
Fixpoint distinct {A} `{EqDecision A} (l : list A) : list A :=
  match l with
  | [] => []
  | x :: l' => x :: filter (λ y, y ≠ x) (distinct l')
  end.

(** The ways to leave node [u] along one relationship: the key of the
    relationship and the node entered. *)
Definition forward (g : graph) (u : nat) : list (nat * nat) :=
  map (λ r, (rkey r, rdst r)) (filter (λ r, rsrc r = u) (grels g)).

Definition backward (g : graph) (u : nat) : list (nat * nat) :=
  map (λ r, (rkey r, rsrc r)) (filter (λ r, rdst r = u) (grels g)).

Definition either (g : graph) (u : nat) : list (nat * nat) :=
  forward g u ++ backward g u.

(** The matches of a variable-length pattern with exactly [k]
    relationships starting at [u], as node-key sequences.  Cypher never
    walks the same relationship twice within one match: [used] holds the
    keys already taken. *)
Fixpoint trails (nbrs : nat → list (nat * nat)) (k : nat)
    (used : list nat) (u : nat) : list (list nat) :=
  match k with
  | 0 => [[u]]
  | S k' =>
      p ← nbrs u;
      if decide (p.1 ∈ used) then []
      else (u ::.) <$> trails nbrs k' (p.1 :: used) p.2
  end.

(** [-[*lo..]-] with [n] admissible lengths [lo, lo+1, ...]. *)
Definition var_length (nbrs : nat → list (nat * nat)) (lo n : nat)
    (u : nat) : list (list nat) :=
  k ← seq lo n; trails nbrs k [] u.

Definition path_end (p : list nat) : option nat := last p.

Fixpoint first_nonempty {A} (f : nat → list A) (ks : list nat) : list A :=
  match ks with
  | [] => []
  | k :: ks' =>
      match f k with
      | [] => first_nonempty f ks'
      | l => l
      end
  end.

(** The matches [shortestPath((start)-[*..15]-(end))] may return for the
    row [(s, t)]: all matches of the least admissible length. *)
Definition shortest_candidates (g : graph) (s t : nat) : list (list nat) :=
  first_nonempty
    (λ k, filter (λ p, path_end p = Some t) (trails (either g) k [] s))
    (seq 1 15).

(** ** graph/query.py *)

Record BlastRadiusResult : Type := mkBlastRadiusResult {
  br_node : gmap string value;
  br_upstream : list (gmap string value);
  br_downstream : list (gmap string value);
  br_affected_teams : list (gmap string value);
  br_total_affected : nat
}.

(** Python compares and hashes [True] like [1] and [False] like [0]. *)
Definition py_key (v : value) : value :=
  match v with
  | VBool b => VInt (Z.b2z b)
  | _ => v
  end.

(** Python equality of two records read from the database compares them
    through [py_key]. *)
Definition py_record (m : gmap string value) : gmap string value :=
  py_key <$> m.

(** [s.add(v)] on a Python set, kept as a list in insertion order. *)
Definition set_add (s : list value) (v : value) : list value :=
  if decide (py_key v ∈ py_key <$> s) then s else s ++ [v].

(** A Python dict keyed by scalars, in insertion order: a key equal to
    one already present keeps that key and replaces its value. *)
Fixpoint pydict_set {V} (d : list (value * V)) (k : value) (v : V)
  : list (value * V) :=
  match d with
  | [] => [(k, v)]
  | (k', v') :: d' =>
      if decide (py_key k' = py_key k) then (k', v) :: d'
      else (k', v') :: pydict_set d' k v
  end.

Definition pydict_get {V} (d : list (value * V)) (k : value) : option V :=
  snd <$> find (λ kv, bool_decide (py_key kv.1 = py_key k)) d.

Record GraphStats : Type := mkGraphStats {
  total_nodes : nat;
  total_edges : nat;
  nodes_by_type : list (value * nat)
}.

Module QueryEngine.

Definition get_node := GraphStorage.get_node.

(** The nodes bound to [downstream] by
    [MATCH (start {id: $node_id})
     MATCH path = (start)-[r:EDGE*1..10]->(downstream)
     WHERE ALL(rel IN relationships(path) WHERE true)
     WITH DISTINCT downstream]. *)
Definition downstream_nodes (g : graph) (node_id : string) : list gnode :=
  omap (node_of_key g)
    (distinct
       (s ← match_nodes g node_id;
        omap path_end (var_length (forward g) 1 10 (nkey s)))).

(** With a non-empty [edge_types] the predicate reads
    [true AND r.type IN $edge_types], where [r] is the list bound by the
    variable-length pattern and not the [rel] of the quantifier: the
    database rejects the property access. *)
Definition downstream (g : graph) (node_id : string)
    (edge_types : list string) : outcome (list (gmap string value)) :=
  match edge_types with
  | [] => Ok (nprops <$> downstream_nodes g node_id)
  | _ :: _ => Raise CypherTypeError
  end.

(** [MATCH (target {id: $node_id})
     MATCH path = (upstream)-[r:EDGE*1..10]->(target)] *)
Definition upstream_nodes (g : graph) (node_id : string) : list gnode :=
  omap (node_of_key g)
    (distinct
       (s ← match_nodes g node_id;
        omap path_end (var_length (backward g) 1 10 (nkey s)))).

Definition upstream (g : graph) (node_id : string)
    (edge_types : list string) : outcome (list (gmap string value)) :=
  match edge_types with
  | [] => Ok (nprops <$> upstream_nodes g node_id)
  | _ :: _ => Raise CypherTypeError
  end.

(** [MATCH (team {type: 'team'})-[r:EDGE {type: 'owns'}]->
           (target {id: $node_id}) RETURN team]: one row per matching
    relationship. *)
Definition owner_rows (g : graph) (node_id : value) : list gnode :=
  r ← grels g;
  if has_prop "type" (VStr "owns") (rprops r) then
    match node_of_key g (rsrc r), node_of_key g (rdst r) with
    | Some team, Some target =>
        if has_prop "type" (VStr "team") (nprops team)
           && has_prop "id" node_id (nprops target)
        then [team] else []
    | _, _ => []
    end
  else [].

(** [result.single()]: the first record, [None] when there is none. *)
Definition get_owner_v (g : graph) (node_id : value)
  : option (gmap string value) :=
  nprops <$> head (owner_rows g node_id).

Definition get_owner (g : graph) (node_id : string)
  : option (gmap string value) :=
  get_owner_v g (VStr node_id).

(** [n.get("id")] on a returned record. *)
Definition record_id (m : gmap string value) : value :=
  default VNone (m !! "id").

(** The loop filling [affected_teams]. *)
Definition add_team (g : graph) (teams : list (gmap string value))
    (affected_id : value) : list (gmap string value) :=
  match get_owner_v g affected_id with
  | Some team =>
      if bool_decide (team ≠ ∅)
         && bool_decide (py_record team ∉ py_record <$> teams)
      then teams ++ [team] else teams
  | None => teams
  end.

(** [blast_radius]; [None] is returned when [get_node] finds nothing.
    Both traversals are called without [edge_types]. *)
Definition blast_radius (g : graph) (node_id : string)
  : option BlastRadiusResult :=
  match get_node g node_id with
  | None => None
  | Some node =>
      if decide (node = ∅) then None else
      let upstream := nprops <$> upstream_nodes g node_id in
      let downstream := nprops <$> downstream_nodes g node_id in
      let all_affected_ids :=
        set_add
          (foldl set_add [] (record_id <$> (upstream ++ downstream)))
          (VStr node_id) in
      let affected_teams := foldl (add_team g) [] all_affected_ids in
      Some (mkBlastRadiusResult node upstream downstream affected_teams
              (length all_affected_ids))
  end.

Definition get_nodes := GraphStorage.get_nodes.

(** [MATCH (team {id: $team_id})-[r:EDGE {type: 'owns'}]->(owned)
    RETURN owned] with [team_id = f"team:{team_name}"]. *)
Definition get_nodes_owned_by_team (g : graph) (team_name : string)
  : list (gmap string value) :=
  r ← grels g;
  if has_prop "type" (VStr "owns") (rprops r) then
    match node_of_key g (rsrc r), node_of_key g (rdst r) with
    | Some team, Some owned =>
        if has_id ("team:" +:+ team_name) (nprops team)
        then [nprops owned] else []
    | _, _ => []
    end
  else [].

Definition get_services_using_node (g : graph) (node_id : string)
  : outcome (list (gmap string value)) :=
  upstream g node_id [].

(** The rows of [MATCH (n) RETURN DISTINCT n.type as type, count(n)]:
    one per type value found, the absent type included. *)
Definition type_rows (g : graph) : list (value * nat) :=
  (λ t, (t, length (filter (λ n, prop "type" (nprops n) = t) (gnodes g))))
    <$> distinct (prop "type" ∘ nprops <$> gnodes g).

(** [get_graph_stats]; [MATCH ()-[r]->()] counts the relationships
    between two nodes of the store, and the dict comprehension files the
    type rows under their Python keys. *)
Definition get_graph_stats (g : graph) : GraphStats :=
  mkGraphStats (length (gnodes g))
    (length
       (filter (λ r, is_Some (node_of_key g (rsrc r))
                     ∧ is_Some (node_of_key g (rdst r))) (grels g)))
    (foldl (λ d row, pydict_set d row.1 row.2) [] (type_rows g)).

Section Path.

(** Which of several shortest paths the database returns is not
    fixed by the query; [pick] stands for its choice. *)
Variable pick : list (list nat) → list nat.

Definition shortest_path (g : graph) (row : nat * nat) : list nat :=
  match shortest_candidates g row.1 row.2 with
  | [] => []
  | c :: cs => pick (c :: cs)
  end.

(** [MATCH (start {id: $from_id}), (end {id: $to_id})
     MATCH path = shortestPath((start)-[*..15]-(end))
     UNWIND nodes(path) as node
     RETURN DISTINCT node].
    With its default settings the database refuses a shortestPath
    whose two end nodes coincide. *)
Definition path (g : graph) (from_id to_id : string)
  : outcome (list (gmap string value)) :=
  let rows :=
    s ← match_nodes g from_id;
    t ← match_nodes g to_id;
    [(nkey s, nkey t)] in
  if existsb (λ row : nat * nat, bool_decide (row.1 = row.2)) rows
  then Raise ShortestPathCommonNodes
  else Ok (nprops <$>
             omap (node_of_key g)
               (distinct (rows ≫= shortest_path g))).

End Path.

End QueryEngine.

(** ** Python string and dict helpers *)

(** [sub in s] *)
Fixpoint contains (sub s : string) : bool :=
  String.prefix sub s
  || match s with
     | EmptyString => false
     | String _ s' => contains sub s'
     end.

(** [s.endswith(suf)] *)
Fixpoint endswith (s suf : string) : bool :=
  String.eqb s suf
  || match s with
     | EmptyString => false
     | String _ s' => endswith s' suf
     end.

(** [s.lower()] on ASCII text. *)
Definition lower_ascii (c : ascii) : ascii :=
  let n := nat_of_ascii c in
  if (65 <=? n)%nat && (n <=? 90)%nat then ascii_of_nat (n + 32) else c.

Fixpoint lower (s : string) : string :=
  match s with
  | EmptyString => EmptyString
  | String c s' => String (lower_ascii c) (lower s')
  end.

(** [s.split(sep)[1]]: the text between the first and the second
    separator; there is no such element when [s] has no separator. *)
Fixpoint after_sep (sep : ascii) (s : string) : option string :=
  match s with
  | EmptyString => None
  | String c s' => if decide (c = sep) then Some s' else after_sep sep s'
  end.

Fixpoint upto_sep (sep : ascii) (s : string) : string :=
  match s with
  | EmptyString => EmptyString
  | String c s' =>
      if decide (c = sep) then EmptyString else String c (upto_sep sep s')
  end.

Definition split_1 (sep : ascii) (s : string) : option string :=
  upto_sep sep <$> after_sep sep s.

(** A Python dict with string keys, in insertion order: [d[k] = v] keeps
    the position of a key that is already there. *)
Fixpoint dict_set {V} (d : list (string * V)) (k : string) (v : V)
  : list (string * V) :=
  match d with
  | [] => [(k, v)]
  | (k', v') :: d' =>
      if decide (k' = k) then (k', v) :: d' else (k', v') :: dict_set d' k v
  end.

Definition dict_get {V} (d : list (string * V)) (k : string) : option V :=
  snd <$> find (λ kv, bool_decide (kv.1 = k)) d.

(** Truth value of a Python scalar. *)
Definition truthy (v : value) : bool :=
  match v with
  | VNone => false
  | VStr s => negb (String.eqb s "")
  | VInt z => negb (z =? 0)%Z
  | VBool b => b
  end.

(** *** The regular expressions of the connectors

    Every pattern used has the shape [lit([^excl]+)] followed by at most
    one terminator class contained in [excl], so the greedy run of the
    group is the only one that can match. *)

Fixpoint strip_prefix (lit s : string) : option string :=
  match lit, s with
  | EmptyString, _ => Some s
  | String a lit', String b s' =>
      if decide (a = b) then strip_prefix lit' s' else None
  | String _ _, EmptyString => None
  end.

Fixpoint span (excl : list ascii) (s : string) : string * string :=
  match s with
  | EmptyString => (EmptyString, EmptyString)
  | String c s' =>
      if decide (c ∈ excl) then (EmptyString, s)
      else let '(run, rest) := span excl s' in (String c run, rest)
  end.

(** [re.match] of the pattern at the start of [s]; the result is
    [group(1)]. *)
Definition match_here (lit : string) (excl : list ascii)
    (term : option (list ascii)) (s : string) : option string :=
  match strip_prefix lit s with
  | None => None
  | Some rest =>
      let '(run, rest') := span excl rest in
      if String.eqb run "" then None
      else match term with
           | None => Some run
           | Some ts =>
               match rest' with
               | String c _ => if decide (c ∈ ts) then Some run else None
               | EmptyString => None
               end
           end
  end.

(** [re.search(pattern, s)]: the leftmost match. *)
Fixpoint re_search (lit : string) (excl : list ascii)
    (term : option (list ascii)) (s : string) : option string :=
  match match_here lit excl term s with
  | Some r => Some r
  | None =>
      match s with
      | EmptyString => None
      | String _ s' => re_search lit excl term s'
      end
  end.

(** [for pattern in patterns: match = re.search(pattern, url); if
    match: return match.group(1)] *)
Fixpoint first_match
    (patterns : list (string * list ascii * option (list ascii)))
    (url : string) : option string :=
  match patterns with
  | [] => None
  | (lit, excl, term) :: rest =>
      match re_search lit excl term url with
      | Some r => Some r
      | None => first_match rest url
      end
  end.

(** ** connectors/teams.py *)

(** One entry of the [teams] list of the YAML document. *)
Record team_decl : Type := mkTeam {
  team_name : option string;
  team_lead : value;
  team_slack_channel : value;
  team_pagerduty_schedule : value;
  team_owns : list string
}.

(** Running a Python loop body that may raise over a list. *)
Fixpoint for_each {A S} (body : S → A → outcome S) (s : S) (l : list A)
  : outcome S :=
  match l with
  | [] => Ok s
  | x :: l' =>
      match body s x with
      | Ok s' => for_each body s' l'
      | Raise e => Raise e
      end
  end.

Module TeamsConnector.

Definition parse_team (st : list Node * list Edge) (team : team_decl)
  : list Node * list Edge :=
  match team_name team with
  | None => st
  | Some name =>
      if String.eqb name "" then st else
      let node :=
        mkNode ("team:" +:+ name) "team" name
          (<["lead" := team_lead team]>
             (<["slack_channel" := team_slack_channel team]>
                {["pagerduty_schedule" := team_pagerduty_schedule team]})) in
      (BaseConnector._add_node st.1 node,
       foldl (λ edges owned_item,
                BaseConnector._add_edge edges
                  (mkEdge ("edge:" +:+ name +:+ "-owns-" +:+ owned_item)
                     "owns" ("team:" +:+ name) owned_item ∅))
         st.2 (team_owns team))
  end.

(** [parse]; [None] stands for a file that cannot be read or parsed,
    which the [except] branch turns into two empty lists. *)
Definition parse (data : option (list team_decl))
  : list Node * list Edge :=
  match data with
  | None => ([], [])
  | Some teams => foldl parse_team ([], []) teams
  end.

(** The lookup built by the first loop: every node's name and id are
    keys, both mapped to the id. *)
Definition node_map (all_nodes : list Node) : list (string * string) :=
  foldl (λ d node,
           dict_set (dict_set d (node_name node) (node_id node))
             (node_id node) (node_id node))
    [] all_nodes.

(** The test of the inner loop over [node_map.items()]. *)
Definition fuzzy (target : string) (kv : string * string) : bool :=
  contains target kv.1 || endswith kv.1 target.

(** The body of the loop over [self.edges]. *)
Definition resolve_edge (nm : list (string * string))
    (resolved_edges : list Edge) (edge : Edge) : outcome (list Edge) :=
  if String.eqb (edge_type edge) "owns" then
    let target := edge_target edge in
    match dict_get nm target with
    | Some nid =>
        Ok (resolved_edges ++
              [mkEdge (edge_id edge) (edge_type edge) (edge_source edge)
                 nid (edge_properties edge)])
    | None =>
        match find (fuzzy target) nm with
        | None => Ok resolved_edges
        | Some (_, nid) =>
            match split_1 ":" (edge_source edge), split_1 ":" nid with
            | Some s1, Some n1 =>
                Ok (resolved_edges ++
                      [mkEdge ("edge:" +:+ s1 +:+ "-owns-" +:+ n1)
                         (edge_type edge) (edge_source edge) nid
                         (edge_properties edge)])
            | _, _ => Raise IndexError
            end
        end
    end
  else Ok resolved_edges.

Definition resolve_ownership_targets (self_edges : list Edge)
    (all_nodes : list Node) : outcome (list Edge) :=
  for_each (resolve_edge (node_map all_nodes)) [] self_edges.

End TeamsConnector.

(** ** connectors/docker_compose.py *)

(** The [environment] entry of a service: a mapping, a list of
    [KEY=value] strings, or anything else. *)
Inductive environment : Type :=
| EnvDict (d : list (string * string))
| EnvList (items : list string)
| EnvOther.

(** The entries of a service definition read by the edge loop of
    [parse]; absent entries take the defaults of the [.get] calls. *)
Record service_config : Type := mkService {
  cfg_labels : gmap string value;
  cfg_image : string;
  cfg_depends_on : list string;
  cfg_environment : environment
}.

(** [services.get(dep, {})] on a missing key. *)
Definition empty_config : service_config :=
  mkService ∅ "" [] (EnvList []).

Module DockerComposeConnector.

Definition DATABASE_IMAGES : list string :=
  ["postgres"; "mysql"; "mariadb"; "mongodb"; "cassandra"].

Definition CACHE_IMAGES : list string := ["redis"; "memcached"].

Definition _infer_node_type (name : string) (config : service_config)
  : string :=
  let labels := cfg_labels config in
  if bool_decide (labels !! "type" = Some (VStr "database")) then "database"
  else if bool_decide (labels !! "type" = Some (VStr "cache")) then "cache"
  else
    let image := cfg_image config in
    if existsb (λ db_image, contains db_image (lower image)) DATABASE_IMAGES
    then "database"
    else if existsb (λ cache_image, contains cache_image (lower image))
              CACHE_IMAGES
    then "cache"
    else if existsb (λ x, contains x (lower name))
              ["db"; "database"; "postgres"; "mysql"]
    then "database"
    else if existsb (λ x, contains x (lower name))
              ["redis"; "cache"; "memcached"]
    then "cache"
    else "service".

Definition _infer_edge_type (target_type : string) : string :=
  if String.eqb target_type "database" then "reads_from"
  else if String.eqb target_type "cache" then "uses"
  else "calls".

(** [item.split("=", 1)] for an item containing ["="]. *)
Definition split_eq (item : string) : option (string * string) :=
  match after_sep "=" item with
  | Some v => Some (upto_sep "=" item, v)
  | None => None
  end.

Definition _parse_environment (environment : environment)
  : list (string * string) :=
  match environment with
  | EnvDict d => d
  | EnvList items =>
      foldl (λ result item,
               match split_eq item with
               | Some (key, v) => dict_set result key v
               | None => result
               end) [] items
  | EnvOther => []
  end.

(** The four patterns, in order:
    [://([^:/@]+):], [://([^:/@]+)/], [@([^:/@]+):],
    [http://([^:/@]+)]. *)
Definition url_patterns
  : list (string * list ascii * option (list ascii)) :=
  [ ("://", [":"; "/"; "@"]%char, Some [":"%char]);
    ("://", [":"; "/"; "@"]%char, Some ["/"%char]);
    ("@", [":"; "/"; "@"]%char, Some [":"%char]);
    ("http://", [":"; "/"; "@"]%char, None) ].

Definition _extract_service_from_url (url : string) : option string :=
  first_match url_patterns url.

Section ParseEdges.

(** The [services] mapping of the document, in document order. *)
Variable services : list (string * service_config).

Definition service_get (name : string) : service_config :=
  default empty_config (dict_get services name).

(** The loop over [depends_on]. *)
Definition depends_on_edge (name source_id : string)
    (edges : list Edge) (dep : string) : list Edge :=
  let dep_type := _infer_node_type dep (service_get dep) in
  let target_id := dep_type +:+ ":" +:+ dep in
  let edge_type := _infer_edge_type dep_type in
  BaseConnector._add_edge edges
    (mkEdge ("edge:" +:+ name +:+ "-" +:+ edge_type +:+ "-" +:+ dep)
       edge_type source_id target_id ∅).

(** The loop over [env_dict.items()]. *)
Definition env_edge (name source_id : string) (edges : list Edge)
    (kv : string * string) : list Edge :=
  if contains "_URL" kv.1 && negb (String.eqb kv.2 "") then
    match _extract_service_from_url kv.2 with
    | Some target_name =>
        if negb (String.eqb target_name "")
           && bool_decide (is_Some (dict_get services target_name))
        then
          let target_type :=
            _infer_node_type target_name (service_get target_name) in
          let target_id := target_type +:+ ":" +:+ target_name in
          if negb (String.eqb target_id source_id) then
            let edge_type := _infer_edge_type target_type in
            BaseConnector._add_edge edges
              (mkEdge
                 ("edge:" +:+ name +:+ "-" +:+ edge_type +:+ "-"
                    +:+ target_name)
                 edge_type source_id target_id ∅)
          else edges
        else edges
    | None => edges
    end
  else edges.

(** The body of the second loop of [parse]. *)
Definition service_edges (edges : list Edge)
    (entry : string * service_config) : list Edge :=
  let name := entry.1 in
  let config := entry.2 in
  let source_type := _infer_node_type name config in
  let source_id := source_type +:+ ":" +:+ name in
  let edges1 :=
    foldl (depends_on_edge name source_id) edges
      (cfg_depends_on config) in
  foldl (env_edge name source_id) edges1
    (_parse_environment (cfg_environment config)).

(** [self.edges] after [parse]: the second loop of the method.  The
    first loop only fills [self.nodes]. *)
Definition parse_edges : list Edge := foldl service_edges [] services.

End ParseEdges.

End DockerComposeConnector.

(** ** connectors/kubernetes.py *)

(** The first container of a Deployment's pod template. *)
Record container : Type := mkContainer {
  c_image : value;
  c_limits_cpu : value;
  c_limits_memory : value;
  c_requests_cpu : value;
  c_requests_memory : value;
  c_env : list (option string * option string)
}.

Record deployment : Type := mkDeployment {
  d_name : option string;
  d_namespace : value;
  d_team : value;
  d_replicas : value;
  d_containers : list container
}.

Record k8s_service : Type := mkK8sService {
  s_name : option string;
  s_port : value
}.

Inductive k8s_doc : Type :=
| DocDeployment (d : deployment)
| DocService (s : k8s_service)
| DocOther.

Module KubernetesConnector.

(** The two patterns, in order: [http://([^.]+)\.] and
    [://([^:/.]+)[.:]]. *)
Definition k8s_url_patterns
  : list (string * list ascii * option (list ascii)) :=
  [ ("http://", ["."%char], Some ["."%char]);
    ("://", [":"; "/"; "."]%char, Some ["."; ":"]%char) ].

Definition _extract_service_from_k8s_url (url : string) : option string :=
  first_match k8s_url_patterns url.

Definition put_if (k : string) (v : value) (m : gmap string value)
  : gmap string value :=
  if truthy v then <[k := v]> m else m.

(** [container_info] for the first container. *)
Definition container_info (d : deployment) (c : container)
  : gmap string value :=
  put_if "resource_request_memory" (c_requests_memory c)
    (put_if "resource_request_cpu" (c_requests_cpu c)
       (put_if "resource_limit_memory" (c_limits_memory c)
          (put_if "resource_limit_cpu" (c_limits_cpu c)
             (<["image" := c_image c]>
                (<["replicas" := d_replicas d]>
                   {["namespace" := d_namespace d]}))))).

(** [env_vars] for the first container. *)
Definition env_vars (c : container) : list (string * string) :=
  foldl (λ vars env,
           match env with
           | (Some env_name, Some env_value) =>
               if negb (String.eqb env_name "")
                  && negb (String.eqb env_value "")
               then dict_set vars env_name env_value else vars
           | _ => vars
           end) [] (c_env c).

(** The loop over [env_vars.items()]. *)
Definition env_edge (name : string) (edges : list Edge)
    (kv : string * string) : list Edge :=
  if contains "_URL" kv.1 && negb (String.eqb kv.2 "") then
    match _extract_service_from_k8s_url kv.2 with
    | Some target_name =>
        if negb (String.eqb target_name "")
           && negb (String.eqb target_name name)
        then
          BaseConnector._add_edge edges
            (mkEdge ("edge:" +:+ name +:+ "-calls-" +:+ target_name)
               "calls" ("service:" +:+ name) ("service:" +:+ target_name)
               {["via" := VStr "k8s_env"]})
        else edges
    | None => edges
    end
  else edges.

Definition _parse_deployment (st : list Node * list Edge)
    (d : deployment) : list Node * list Edge :=
  match d_name d with
  | None => st
  | Some name =>
      if String.eqb name "" then st else
      let info :=
        match d_containers d with
        | [] => ∅
        | c :: _ => container_info d c
        end in
      let vars :=
        match d_containers d with
        | [] => []
        | c :: _ => env_vars c
        end in
      let node :=
        mkNode ("service:" +:+ name) "service" name
          (info ∪
             (<["team" := d_team d]>
                (<["k8s_namespace" := d_namespace d]>
                   {["k8s_replicas" := d_replicas d]}))) in
      (BaseConnector._add_node st.1 node,
       foldl (env_edge name) st.2 vars)
  end.

(** The loop of [_parse_service]: the first node of that name gets the
    port and the marker. *)
Fixpoint mark_service (name : string) (port_info : value)
    (nodes : list Node) : list Node :=
  match nodes with
  | [] => []
  | n :: rest =>
      if String.eqb (node_name n) name
      then mkNode (node_id n) (node_type n) (node_name n)
             (<["k8s_service" := VBool true]>
                (if truthy port_info
                 then <["k8s_port" := port_info]> (node_properties n)
                 else node_properties n)) :: rest
      else n :: mark_service name port_info rest
  end.

Definition _parse_service (st : list Node * list Edge) (s : k8s_service)
  : list Node * list Edge :=
  match s_name s with
  | None => st
  | Some name =>
      if String.eqb name "" then st
      else (mark_service name (s_port s) st.1, st.2)
  end.

(** [parse]; [None] stands for a file that cannot be read or parsed. *)
Definition parse (documents : option (list k8s_doc))
  : list Node * list Edge :=
  match documents with
  | None => ([], [])
  | Some docs =>
      foldl (λ st doc,
               match doc with
               | DocDeployment d => _parse_deployment st d
               | DocService s => _parse_service st s
               | DocOther => st
               end) ([], []) docs
  end.

End KubernetesConnector.

(** ** main.py: load_graph

    The store is cleared, then the output of each connector is written
    nodes first, edges second, in the order compose file, team roster,
    cluster manifests (when that file exists).  The edges of the team
    roster go to the store as [parse] returned them. *)

Definition load_stage (g : graph) (out : list Node * list Edge) : graph :=
  GraphStorage.bulk_upsert_edges (GraphStorage.bulk_upsert_nodes g out.1)
    out.2.

Definition load_graph (g0 : graph) (docker_out : list Node * list Edge)
    (teams_data : option (list team_decl))
    (k8s_data : option (option (list k8s_doc))) : graph :=
  let g1 := load_stage (GraphStorage.clear_all g0) docker_out in
  let g2 := load_stage g1 (TeamsConnector.parse teams_data) in
  match k8s_data with
  | Some documents => load_stage g2 (KubernetesConnector.parse documents)
  | None => g2
  end.

(** ** Well-formed stores

    Identities are unique and below the allocation counter, and every
    relationship joins two nodes of the store. *)

Definition graph_wf (g : graph) : Prop :=
  NoDup (nkey <$> gnodes g)
  ∧ NoDup (rkey <$> grels g)
  ∧ Forall (λ n, nkey n < gfresh g) (gnodes g)
  ∧ Forall (λ r, rkey r < gfresh g) (grels g)
  ∧ Forall (λ r, rsrc r ∈ nkey <$> gnodes g ∧ rdst r ∈ nkey <$> gnodes g)
      (grels g).

#[global] Instance graph_wf_dec g : Decision (graph_wf g).
Proof. unfold graph_wf. apply _. Defined.

(** ** Reachability, stated independently of the traversal code *)

(** [walk g k u v]: [k] relationships lead from node [u] to node [v],
    each followed from its source to its target. *)
Inductive walk (g : graph) : nat → nat → nat → Prop :=
| walk_here u : walk g 0 u u
| walk_step k r v :
    r ∈ grels g → walk g k (rdst r) v → walk g (S k) (rsrc r) v.

(** [uwalk g k u v]: the same with every relationship usable in both
    directions. *)
Inductive uwalk (g : graph) : nat → nat → nat → Prop :=
| uwalk_here u : uwalk g 0 u u
| uwalk_fwd k r v :
    r ∈ grels g → uwalk g k (rdst r) v → uwalk g (S k) (rsrc r) v
| uwalk_bwd k r v :
    r ∈ grels g → uwalk g k (rsrc r) v → uwalk g (S k) (rdst r) v.

(** ** Example stores and inputs *)

Definition service_node (name : string) : Node :=
  mkNode ("service:" +:+ name) "service" name ∅.

Definition team_node (name : string) : Node :=
  mkNode ("team:" +:+ name) "team" name ∅.

Definition calls_edge (a b : string) : Edge :=
  mkEdge ("edge:" +:+ a +:+ "-calls-" +:+ b) "calls"
    ("service:" +:+ a) ("service:" +:+ b) ∅.

Definition owns_edge (team target_id target_name : string) : Edge :=
  mkEdge ("edge:" +:+ team +:+ "-owns-" +:+ target_name) "owns"
    ("team:" +:+ team) target_id ∅.

(** A service node as the store holds it after [upsert_node]. *)
Definition stored_service (k : nat) (name : string) : gnode :=
  GNode k
    (<["name" := VStr name]>
       (<["type" := VStr "service"]> {["id" := VStr ("service:" +:+ name)]})).

(** Services A, B, C with calls A -> B -> C, and team T owning A. *)
Definition fixture : graph :=
  GraphStorage.bulk_upsert_edges
    (GraphStorage.bulk_upsert_nodes empty_graph
       [service_node "A"; service_node "B"; service_node "C"; team_node "T"])
    [calls_edge "A" "B"; calls_edge "B" "C";
     owns_edge "T" "service:A" "A"].

(** Two services joined by one calls relationship. *)
Definition two_services : graph :=
  GraphStorage.bulk_upsert_edges
    (GraphStorage.bulk_upsert_nodes empty_graph
       [service_node "a"; service_node "b"])
    [calls_edge "a" "b"].

(** The same edge id and endpoints, another type and one property. *)
Definition second_write : Edge :=
  mkEdge "edge:a-calls-b" "uses" "service:a" "service:b"
    {["weight" := VInt 1]}.

(** A node whose properties carry a key named [id], as a compose label
    [id: x] produces. *)
Definition labelled_id_node : Node :=
  mkNode "service:a" "service" "a" {["id" := VStr "x"]}.

(** One resource owned by two teams. *)
Definition two_owners : graph :=
  GraphStorage.bulk_upsert_edges
    (GraphStorage.bulk_upsert_nodes empty_graph
       [service_node "A"; team_node "T1"; team_node "T2"])
    [owns_edge "T1" "service:A" "A"; owns_edge "T2" "service:A" "A"].

(** Two services calling each other. *)
Definition two_cycle : graph :=
  GraphStorage.bulk_upsert_edges
    (GraphStorage.bulk_upsert_nodes empty_graph
       [service_node "a"; service_node "b"])
    [calls_edge "a" "b"; calls_edge "b" "a"].

(** Two services whose names both contain [api], the lexicographically
    larger one first, and a roster edge naming [api]. *)
Definition api_nodes : list Node :=
  [service_node "zeta-api"; service_node "alpha-api"].

Definition raw_api_edge : Edge := owns_edge "platform" "api" "api".

(** A Deployment whose container reaches [orders-db] through a
    connection string, and the same two entities as a compose file
    declares them. *)
Definition order_deployment : deployment :=
  mkDeployment (Some "order-service") (VStr "default") VNone (VInt 1)
    [mkContainer (VStr "order-service:1.0") VNone VNone VNone VNone
       [(Some "DATABASE_URL", Some "postgres://orders-db:5432/orders")]].

Definition order_compose : list (string * service_config) :=
  [("order-service",
    mkService ∅ "order-service:1.0" []
      (EnvList ["DATABASE_URL=postgres://orders-db:5432/orders"]));
   ("orders-db", mkService ∅ "postgres:15" [] (EnvList []))].

(** The database's choice among shortest paths, taken as the first. *)
Definition pick_first (l : list (list nat)) : list nat :=
  default [] (head l).

(** Another admissible choice: the last one. *)
Definition pick_last (l : list (list nat)) : list nat :=
  default [] (last l).

(** Service a reaches service d through b and through c. *)
Definition diamond : graph :=
  GraphStorage.bulk_upsert_edges
    (GraphStorage.bulk_upsert_nodes empty_graph
       [service_node "a"; service_node "b"; service_node "c";
        service_node "d"])
    [calls_edge "a" "b"; calls_edge "b" "d"; calls_edge "a" "c";
     calls_edge "c" "d"].

(** The ids of the returned records, as [n.get("id")] reads them. *)
Definition record_ids (l : list (gmap string value)) : list value :=
  QueryEngine.record_id <$> l.

(** The set of ids of a list of records, compared as Python does. *)
Definition id_set (l : list (gmap string value)) : gset value :=
  list_to_set (py_key <$> record_ids l).

(** [team] is a team node with an [owns] relationship to a node whose id
    is [node_id]. *)
Definition is_owner (g : graph) (node_id : string) (team : gnode) : Prop :=
  ∃ r target,
    r ∈ grels g
    ∧ rprops r !! "type" = Some (VStr "owns")
    ∧ node_of_key g (rsrc r) = Some team
    ∧ nprops team !! "type" = Some (VStr "team")
    ∧ node_of_key g (rdst r) = Some target
    ∧ nprops target !! "id" = Some (VStr node_id).

(** The edges [parse] emits carry the declared strings as targets. *)
Definition raw_owns (teams : list team_decl) (e : Edge) : Prop :=
  edge_type e = "owns"
  ∧ ∃ t name, t ∈ teams ∧ team_name t = Some name
              ∧ edge_source e = "team:" +:+ name
              ∧ edge_target e ∈ team_owns t.

(** ** Auxiliary notions used by the proofs *)

(** The incoming properties leave the [id] property of the node alone. *)
Definition id_stable (node : Node) : Prop :=
  node_properties node !! "id" = None
  ∨ node_properties node !! "id" = Some (VStr (node_id node)).

(** What [upsert_node] does to one stored node. *)
Definition upsert_step (node : Node) (n : gnode) : gnode :=
  if has_id (node_id node) (nprops n)
  then GNode (nkey n) (GraphStorage.set_node node (nprops n)) else n.

(** A sequence of steps, each a relationship key with the node entered,
    that can be followed from [u]. *)
Fixpoint chain (nbrs : nat → list (nat * nat)) (u : nat)
    (st : list (nat * nat)) : Prop :=
  match st with
  | [] => True
  | p :: st' => p ∈ nbrs u ∧ chain nbrs p.2 st'
  end.

Definition endpoint (u : nat) (st : list (nat * nat)) : nat :=
  foldl (λ _ p, p.2) u st.

(** Every key is carried by one relationship, usable from either end. *)
Definition keyed (nbrs : nat → list (nat * nat)) : Prop :=
  ∀ r u v u' v', (r, v) ∈ nbrs u → (r, v') ∈ nbrs u' →
    (u = u' ∧ v = v') ∨ (u = v' ∧ v = u').

(** ... and only from its source. *)
Definition keyed_dir (nbrs : nat → list (nat * nat)) : Prop :=
  ∀ r u v u' v', (r, v) ∈ nbrs u → (r, v') ∈ nbrs u' → u = u' ∧ v = v'.

(** The incoming properties leave the [id] property of the relationship
    alone. *)
Definition edge_id_stable (edge : Edge) : Prop :=
  edge_properties edge !! "id" = None
  ∨ edge_properties edge !! "id" = Some (VStr (edge_id edge)).

(** What [upsert_edge] does to one stored relationship, for the rows of
    its two MATCH clauses. *)
Definition upsert_rel_step (edge : Edge) (rows : list (nat * nat))
    (r : grel) : grel :=
  if existsb (λ row, GraphStorage.rel_matches row.1 row.2 (edge_id edge) r)
       rows
  then GRel (rkey r) (rsrc r) (rdst r)
         (GraphStorage.set_rel edge (rprops r))
  else r.

(** An edge from C to A that carries one property. *)
Definition weighted_edge : Edge :=
  mkEdge "edge:C-uses-A" "uses" "service:C" "service:A"
    {["weight" := VInt 1]}.

(** The identifying part of a node: what [_add_node] never changes. *)
Definition node_header (n : Node) : string * string * string :=
  (node_id n, node_type n, node_name n).

(** The value an item of an environment list gives to [key], if any. *)
Definition env_value (key item : string) : option string :=
  match DockerComposeConnector.split_eq item with
  | Some (k, v) => if decide (k = key) then Some v else None
  | None => None
  end.

(** * Properties *)

(** ** Property maps *)

(** What [SET x.k = v] leaves under each key. *)
Lemma lookup_set_prop k v m j :
  set_prop k v m !! j =
    if decide (k = j) then (if decide (v = VNone) then None else Some v)
    else m !! j.
Proof.
  unfold set_prop. destruct v; repeat case_decide; simplify_eq;
    by simplify_map_eq.
Qed.

(** What [SET x += $map] leaves under each key: incoming keys overwrite,
    a null value removes, the other keys stay. *)
Lemma lookup_set_props new m k :
  set_props new m !! k =
    match new !! k with
    | Some VNone => None
    | Some v => Some v
    | None => m !! k
    end.
Proof.
  unfold set_props. rewrite lookup_merge.
  destruct (new !! k) as [[]|], (m !! k); done.
Qed.

Lemma set_prop_idemp k v m : set_prop k v (set_prop k v m) = set_prop k v m.
Proof.
  apply map_eq. intros j. rewrite !lookup_set_prop. by repeat case_decide.
Qed.

(** ** The store *)

Import GraphStorage.

Lemma set_props_idemp new m : set_props new (set_props new m) = set_props new m.
Proof.
  apply map_eq. intros j. rewrite !lookup_set_props.
  by destruct (new !! j) as [[]|].
Qed.

Lemma has_id_spec idv m : has_id idv m = true ↔ m !! "id" = Some (VStr idv).
Proof. unfold has_id. by rewrite bool_decide_eq_true. Qed.

Lemma elem_of_match_nodes g idv n :
  n ∈ match_nodes g idv ↔ n ∈ gnodes g ∧ has_id idv (nprops n) = true.
Proof. unfold match_nodes. rewrite list_elem_of_filter. tauto. Qed.

Lemma match_nodes_nil g idv :
  match_nodes g idv = [] ↔ ∀ n, n ∈ gnodes g → has_id idv (nprops n) = false.
Proof.
  unfold match_nodes. split.
  - intros H n Hn. destruct (has_id idv (nprops n)) eqn:E; [|done].
    assert (n ∈ filter (λ n, has_id idv (nprops n) = true) (gnodes g)) as Hin
      by (apply list_elem_of_filter; done).
    rewrite H in Hin. by apply not_elem_of_nil in Hin.
  - intros H. induction (gnodes g) as [|n l IH]; [done|].
    rewrite filter_cons. rewrite (H n) by left. case_decide; [done|].
    apply IH. intros n' Hn'. apply H. by right.
Qed.

Lemma edge_rows_nil g e :
  match_nodes g (edge_source e) = [] ∨ match_nodes g (edge_target e) = [] →
  edge_rows g e = [].
Proof.
  unfold edge_rows. intros [-> | ->]; [done|].
  induction (match_nodes g (edge_source e)); [done|]. by simpl.
Qed.

Lemma upsert_edge_no_rows g e : edge_rows g e = [] → upsert_edge g e = g.
Proof.
  intros H. unfold upsert_edge. rewrite H. simpl.
  destruct g as [ns rs f]. simpl. f_equal.
  induction rs as [|r rs IH]; [done|]. simpl. by rewrite IH.
Qed.

Lemma bulk_upsert_edges_noop g edges :
  (∀ e, e ∈ edges → edge_rows g e = []) → bulk_upsert_edges g edges = g.
Proof.
  unfold bulk_upsert_edges. induction edges as [|e edges IH]; [done|].
  intros H. simpl. rewrite upsert_edge_no_rows by (apply H; left).
  apply IH. intros e' He'. apply H. by right.
Qed.

(** The properties of a node after the SET clause of [upsert_node]. *)
Lemma lookup_set_node node m k :
  set_node node m !! k =
    match node_properties node !! k with
    | Some VNone => None
    | Some v => Some v
    | None =>
        if decide (k = "name") then Some (VStr (node_name node))
        else if decide (k = "type") then Some (VStr (node_type node))
        else m !! k
    end.
Proof.
  unfold set_node. rewrite lookup_set_props, !lookup_set_prop.
  destruct (node_properties node !! k) as [[]|]; try done.
  repeat case_decide; simplify_eq; done.
Qed.

Lemma set_node_idemp node m : set_node node (set_node node m) = set_node node m.
Proof.
  apply map_eq. intros k. rewrite !lookup_set_node.
  destruct (node_properties node !! k) as [[]|]; try done.
  by repeat case_decide.
Qed.

Lemma has_id_set_node node m :
  id_stable node → has_id (node_id node) m = true →
  has_id (node_id node) (set_node node m) = true.
Proof.
  intros Hst. rewrite !has_id_spec. intros Hm. rewrite lookup_set_node.
  destruct Hst as [-> | ->]; [|done].
  repeat case_decide; done.
Qed.

Lemma upsert_node_unfold g node :
  upsert_node g node =
    let g1 := merge_node g (node_id node) in
    Graph (upsert_step node <$> gnodes g1) (grels g1) (gfresh g1).
Proof. done. Qed.

Lemma upsert_step_idemp node n :
  id_stable node → upsert_step node (upsert_step node n) = upsert_step node n.
Proof.
  intros Hst. unfold upsert_step.
  destruct (has_id (node_id node) (nprops n)) eqn:E; simpl.
  - rewrite has_id_set_node by done. by rewrite set_node_idemp.
  - by rewrite E.
Qed.

Lemma has_id_upsert_step node n :
  id_stable node →
  has_id (node_id node) (nprops (upsert_step node n))
  = has_id (node_id node) (nprops n).
Proof.
  intros Hst. unfold upsert_step.
  destruct (has_id (node_id node) (nprops n)) eqn:E; simpl; [|done].
  by apply has_id_set_node.
Qed.

Lemma merge_node_matches g idv : match_nodes (merge_node g idv) idv ≠ [].
Proof.
  unfold merge_node. destruct (match_nodes g idv) eqn:E.
  - unfold match_nodes. simpl. rewrite filter_app.
    intros H. apply app_eq_nil in H as [_ H].
    rewrite filter_cons in H. simpl in H.
    case_decide as Hd; [done|]. apply Hd. by apply has_id_spec.
  - by rewrite E.
Qed.

Lemma merge_node_present g idv :
  match_nodes g idv ≠ [] → merge_node g idv = g.
Proof. unfold merge_node. by destruct (match_nodes g idv). Qed.

Lemma match_nodes_fmap_step g node f' rs :
  id_stable node →
  match_nodes (Graph (upsert_step node <$> gnodes g) rs f') (node_id node)
  = upsert_step node <$> match_nodes g (node_id node).
Proof.
  intros Hst. unfold match_nodes. simpl.
  induction (gnodes g) as [|n l IH]; [done|].
  rewrite fmap_cons, !filter_cons, has_id_upsert_step by done.
  case_decide; [rewrite fmap_cons|]; by rewrite IH.
Qed.

(** A second identical [upsert_node] changes nothing, provided the
    incoming properties leave the [id] property alone. *)
Lemma upsert_node_idemp g node :
  id_stable node → upsert_node (upsert_node g node) node = upsert_node g node.
Proof.
  intros Hst. rewrite (upsert_node_unfold g). simpl.
  set (g1 := merge_node g (node_id node)).
  rewrite upsert_node_unfold. simpl.
  rewrite merge_node_present.
  - simpl. f_equal. rewrite <- list_fmap_compose.
    apply list_fmap_ext. intros i n _. simpl. by apply upsert_step_idemp.
  - rewrite match_nodes_fmap_step by done.
    intros H. apply fmap_nil_inv in H. by apply merge_node_matches in H.
Qed.

Lemma nkey_upsert_step node n : nkey (upsert_step node n) = nkey n.
Proof. unfold upsert_step. by destruct (has_id _ _). Qed.

(** Well-formedness holds initially and is kept by both upserts. *)
Lemma graph_wf_empty : graph_wf empty_graph.
Proof. repeat split; simpl; try constructor. Qed.

Lemma merge_node_wf g idv : graph_wf g → graph_wf (merge_node g idv).
Proof.
  intros Hwf. unfold merge_node. destruct (match_nodes g idv); [|done].
  destruct Hwf as (Hn & Hr & Fn & Fr & Fe).
  repeat split; simpl.
  - rewrite fmap_app. apply NoDup_app. split; [done|]. split.
    + intros k Hk Hk'. apply list_elem_of_singleton in Hk'. subst.
      apply list_elem_of_fmap in Hk as (n & Hkn & Hin).
      rewrite Forall_forall in Fn. apply Fn in Hin. simpl in Hkn. lia.
    + apply NoDup_singleton.
  - done.
  - apply Forall_app. split.
    + eapply Forall_impl; [exact Fn|]. simpl. lia.
    + apply Forall_singleton. simpl. lia.
  - eapply Forall_impl; [exact Fr|]. simpl. lia.
  - eapply Forall_impl; [exact Fe|]. simpl. intros r [? ?].
    rewrite fmap_app. split; apply elem_of_app; by left.
Qed.

Lemma upsert_node_wf g node : graph_wf g → graph_wf (upsert_node g node).
Proof.
  intros Hwf. apply (merge_node_wf _ (node_id node)) in Hwf.
  rewrite upsert_node_unfold. simpl.
  destruct Hwf as (Hn & Hr & Fn & Fr & Fe).
  assert (nkey <$> (upsert_step node <$> gnodes (merge_node g (node_id node)))
          = nkey <$> gnodes (merge_node g (node_id node))) as Hk.
  { rewrite <- list_fmap_compose. apply list_fmap_ext.
    intros i n _. simpl. apply nkey_upsert_step. }
  repeat split; simpl; rewrite ?Hk; try done.
  apply Forall_fmap. eapply Forall_impl; [exact Fn|].
  intros n Hlt. simpl. by rewrite nkey_upsert_step.
Qed.

Lemma merge_rel_wf idv g row :
  graph_wf g → row.1 ∈ nkey <$> gnodes g → row.2 ∈ nkey <$> gnodes g →
  graph_wf (merge_rel idv g row).
Proof.
  intros Hwf H1 H2. unfold merge_rel.
  destruct (existsb _ _); [done|].
  destruct Hwf as (Hn & Hr & Fn & Fr & Fe).
  repeat split; simpl.
  - done.
  - rewrite fmap_app. apply NoDup_app. split; [done|]. split.
    + intros k Hk Hk'. apply list_elem_of_singleton in Hk'. subst.
      apply list_elem_of_fmap in Hk as (r & Hkr & Hin).
      rewrite Forall_forall in Fr. apply Fr in Hin. simpl in Hkr. lia.
    + apply NoDup_singleton.
  - eapply Forall_impl; [exact Fn|]. simpl. lia.
  - apply Forall_app. split.
    + eapply Forall_impl; [exact Fr|]. simpl. lia.
    + apply Forall_singleton. simpl. lia.
  - apply Forall_app. split; [done|]. by apply Forall_singleton.
Qed.

Lemma merge_rel_gnodes idv g row : gnodes (merge_rel idv g row) = gnodes g.
Proof. unfold merge_rel. by destruct (existsb _ _). Qed.

Lemma foldl_merge_rel_gnodes idv rows g :
  gnodes (foldl (merge_rel idv) g rows) = gnodes g.
Proof.
  revert g. induction rows as [|row rows IH]; intros g; [done|].
  simpl. by rewrite IH, merge_rel_gnodes.
Qed.

Lemma foldl_merge_rel_wf idv rows g :
  graph_wf g →
  Forall (λ row, row.1 ∈ nkey <$> gnodes g ∧ row.2 ∈ nkey <$> gnodes g) rows →
  graph_wf (foldl (merge_rel idv) g rows).
Proof.
  revert g. induction rows as [|row rows IH]; intros g Hwf Hrows; [done|].
  simpl. apply Forall_cons in Hrows as [[H1 H2] Hrows].
  apply IH; [by apply merge_rel_wf|].
  by rewrite merge_rel_gnodes.
Qed.

Lemma edge_rows_spec g e s t :
  (s, t) ∈ edge_rows g e ↔
  ∃ ns nt, ns ∈ match_nodes g (edge_source e)
           ∧ nt ∈ match_nodes g (edge_target e)
           ∧ s = nkey ns ∧ t = nkey nt.
Proof.
  unfold edge_rows. rewrite list_elem_of_bind. split.
  - intros (ns & Hin & Hns). apply list_elem_of_bind in Hin as (nt & Hin & Hnt).
    apply list_elem_of_singleton in Hin. simplify_eq.
    exists ns, nt. done.
  - intros (ns & nt & Hns & Hnt & -> & ->). exists ns. split; [|done].
    apply list_elem_of_bind. exists nt. split; [|done]. by left.
Qed.

Lemma edge_rows_keys g e :
  Forall (λ row, row.1 ∈ nkey <$> gnodes g ∧ row.2 ∈ nkey <$> gnodes g)
    (edge_rows g e).
Proof.
  apply Forall_forall. intros [s t] Hin.
  apply edge_rows_spec in Hin as (ns & nt & Hns & Hnt & -> & ->).
  apply elem_of_match_nodes in Hns as [Hns _].
  apply elem_of_match_nodes in Hnt as [Hnt _].
  simpl. split; apply list_elem_of_fmap; eauto.
Qed.

Lemma upsert_edge_wf g e : graph_wf g → graph_wf (upsert_edge g e).
Proof.
  intros Hwf. unfold upsert_edge.
  pose proof (foldl_merge_rel_wf (edge_id e) _ g Hwf (edge_rows_keys g e))
    as (Hn & Hr & Fn & Fr & Fe).
  set (g1 := foldl _ _ _) in *.
  set (F := λ r : grel, if existsb _ _ then _ else r).
  assert (∀ r, rkey (F r) = rkey r ∧ rsrc (F r) = rsrc r ∧ rdst (F r) = rdst r)
    as HF by (intros r; unfold F; by destruct (existsb _ _)).
  assert (rkey <$> map F (grels g1) = rkey <$> grels g1) as Hk.
  { change (map F) with (fmap (M:=list) F). rewrite <- list_fmap_compose.
    apply list_fmap_ext. intros i r _. simpl. apply HF. }
  repeat split; simpl; rewrite ?Hk; try done.
  - change (map F) with (fmap (M:=list) F). apply Forall_fmap.
    eapply Forall_impl; [exact Fr|]. intros r ?. simpl.
    by destruct (HF r) as (-> & _).
  - change (map F) with (fmap (M:=list) F). apply Forall_fmap.
    eapply Forall_impl; [exact Fe|]. intros r ?. simpl.
    by destruct (HF r) as (_ & -> & ->).
Qed.

(** ** Upserts and the load pipeline *)

Lemma upsert_edge_gnodes g e : gnodes (upsert_edge g e) = gnodes g.
Proof. unfold upsert_edge. simpl. apply foldl_merge_rel_gnodes. Qed.

Lemma match_nodes_gnodes g g' idv :
  gnodes g = gnodes g' → match_nodes g idv = match_nodes g' idv.
Proof. unfold match_nodes. by intros ->. Qed.

Lemma bulk_upsert_edges_gnodes g edges :
  gnodes (bulk_upsert_edges g edges) = gnodes g.
Proof.
  unfold bulk_upsert_edges. revert g.
  induction edges as [|e edges IH]; intros g; [done|].
  simpl. by rewrite IH, upsert_edge_gnodes.
Qed.

(** An edge with an unmatched end can be struck from a batch. *)
Lemma bulk_upsert_edges_drop g es1 e es2 :
  match_nodes g (edge_source e) = [] ∨ match_nodes g (edge_target e) = [] →
  bulk_upsert_edges g (es1 ++ e :: es2) = bulk_upsert_edges g (es1 ++ es2).
Proof.
  intros H. unfold bulk_upsert_edges. rewrite !foldl_app. simpl.
  f_equal. apply upsert_edge_no_rows, edge_rows_nil.
  fold (bulk_upsert_edges g es1).
  destruct H as [H | H]; [left | right];
    (rewrite (match_nodes_gnodes _ g); [done | apply bulk_upsert_edges_gnodes]).
Qed.

Lemma elem_of_add_edge edges x e :
  e ∈ BaseConnector._add_edge edges x → e ∈ edges ∨ e = x.
Proof.
  unfold BaseConnector._add_edge. destruct (find _ _); [by left|].
  rewrite elem_of_app, list_elem_of_singleton. tauto.
Qed.

Lemma parse_team_edges teams st t e :
  t ∈ teams →
  (∀ e', e' ∈ st.2 → raw_owns teams e') →
  e ∈ (TeamsConnector.parse_team st t).2 → raw_owns teams e.
Proof.
  intros Ht Hst. unfold TeamsConnector.parse_team.
  destruct (team_name t) as [name|] eqn:En; [|by apply Hst].
  destruct (String.eqb name ""); [by apply Hst|]. simpl.
  assert (∀ owned acc,
            (∀ o, o ∈ owned → o ∈ team_owns t) →
            (∀ e', e' ∈ acc → raw_owns teams e') →
            e ∈ foldl (λ edges owned_item,
                         BaseConnector._add_edge edges
                           (mkEdge ("edge:" +:+ name +:+ "-owns-" +:+ owned_item)
                              "owns" ("team:" +:+ name) owned_item ∅))
                  acc owned →
            raw_owns teams e) as Hfold.
  { induction owned as [|o owned IH]; intros acc Hsub Hacc; simpl.
    - apply Hacc.
    - apply IH.
      + intros o' Ho'. apply Hsub. by right.
      + intros e' He'. apply elem_of_add_edge in He' as [He' | ->].
        * by apply Hacc.
        * split; [done|]. exists t, name. simpl. split_and!; try done.
          apply Hsub. by left. }
  apply Hfold; [done|]. apply Hst.
Qed.

Lemma parse_edges_raw teams e :
  e ∈ (TeamsConnector.parse (Some teams)).2 → raw_owns teams e.
Proof.
  simpl.
  assert (∀ ts st, (∀ t, t ∈ ts → t ∈ teams) →
            (∀ e', e' ∈ st.2 → raw_owns teams e') →
            e ∈ (foldl TeamsConnector.parse_team st ts).2 → raw_owns teams e)
    as Hfold.
  { induction ts as [|t ts IH]; intros st Hsub Hst; simpl.
    - apply Hst.
    - apply IH.
      + intros t' Ht'. apply Hsub. by right.
      + intros e' He'. eapply parse_team_edges; [|done..]. apply Hsub. by left. }
  apply Hfold; [done|]. simpl. intros e' He'. by apply not_elem_of_nil in He'.
Qed.

(** C10. An edge whose source or target id matches no node of the store
    is dropped by [upsert_edge] without any effect or error; the load
    pipeline writes the team roster's raw [owns] edges directly, so an
    edge whose declared target string is not the id of a stored node
    leaves no trace in the store. *)
Theorem upsert_edge_dangling_noop :
  (∀ g e,
     match_nodes g (edge_source e) = [] ∨ match_nodes g (edge_target e) = [] →
     upsert_edge g e = g)
  ∧ (∀ g nodes es1 e es2,
       match_nodes (bulk_upsert_nodes g nodes) (edge_target e) = [] →
       load_stage g (nodes, es1 ++ e :: es2)
       = load_stage g (nodes, es1 ++ es2))
  ∧ (∀ g0 docker_out teams,
       load_graph g0 docker_out (Some teams) None
       = load_stage (load_stage (clear_all g0) docker_out)
           (TeamsConnector.parse (Some teams))
       ∧ ∀ e, e ∈ (TeamsConnector.parse (Some teams)).2 → raw_owns teams e).
Proof.
  split_and!.
  - intros g e H. by apply upsert_edge_no_rows, edge_rows_nil.
  - intros g nodes es1 e es2 H. unfold load_stage. simpl.
    apply bulk_upsert_edges_drop. by right.
  - intros g0 docker_out teams. split; [done|]. apply parse_edges_raw.
Qed.

Lemma upsert_edge_dangling_noop_witness :
  let g := load_stage empty_graph ([service_node "order-service"], []) in
  let e := owns_edge "platform" "order-service" "order-service" in
  match_nodes (bulk_upsert_nodes g [team_node "platform"]) (edge_target e) = []
  ∧ load_stage g ([team_node "platform"], [] ++ e :: [])
    = load_stage g ([team_node "platform"], [] ++ []).
Proof.
  split; [vm_compute; reflexivity|].
  apply (proj1 (proj2 upsert_edge_dangling_noop)). vm_compute. reflexivity.
Defined.

(** A store loaded from one service and a roster naming it by its bare
    name: the [owns] edge leaves no relationship, the service no owner. *)
Example load_graph_drops_raw_owns :
  let g :=
    load_graph empty_graph ([service_node "order-service"], [])
      (Some [mkTeam (Some "platform") VNone VNone VNone ["order-service"]])
      None in
  length (gnodes g) = 2 ∧ grels g = []
  ∧ QueryEngine.get_owner g "service:order-service" = None.
Proof. split_and!; vm_compute; reflexivity. Qed.

Lemma lookup_set_rel e m k :
  set_rel e m !! k =
    match edge_properties e !! k with
    | Some VNone => None
    | Some v => Some v
    | None =>
        if decide (k = "type") then Some (VStr (edge_type e)) else m !! k
    end.
Proof.
  unfold set_rel. rewrite lookup_set_props, lookup_set_prop.
  destruct (edge_properties e !! k) as [[]|]; try done.
  repeat case_decide; simplify_eq; done.
Qed.

Lemma add_edge_existing edges e :
  (∃ e0, e0 ∈ edges ∧ edge_id e0 = edge_id e) →
  BaseConnector._add_edge edges e = edges.
Proof.
  intros (e0 & Hin & Hid). unfold BaseConnector._add_edge.
  destruct (find _ edges) eqn:E; [done|]. exfalso.
  induction edges as [|a edges IH]; [by apply not_elem_of_nil in Hin|].
  simpl in E. case_bool_decide as Ha; [done|].
  apply elem_of_cons in Hin as [-> | Hin]; [done|]. by apply IH.
Qed.

(** C3 (as amended). First write wins inside a connector: [_add_edge]
    leaves the batch unchanged when the id is already present.  In the
    store, [upsert_edge] on an edge id already present between the same
    two nodes creates nothing and keeps source and target, but overwrites
    the stored type and merges the incoming properties key by key. *)
Theorem add_edge_keeps_first_upsert_edge_merges :
  (∀ edges e,
     (∃ e0, e0 ∈ edges ∧ edge_id e0 = edge_id e) →
     BaseConnector._add_edge edges e = edges)
  ∧ (∀ g e s t,
       edge_rows g e = [(s, t)] →
       existsb (rel_matches s t (edge_id e)) (grels g) = true →
       upsert_edge g e
       = Graph (gnodes g)
           (map (λ r, if rel_matches s t (edge_id e) r
                      then GRel (rkey r) (rsrc r) (rdst r)
                             (set_rel e (rprops r))
                      else r) (grels g))
           (gfresh g))
  ∧ (∀ e m k,
       set_rel e m !! k =
         match edge_properties e !! k with
         | Some VNone => None
         | Some v => Some v
         | None =>
             if decide (k = "type") then Some (VStr (edge_type e))
             else m !! k
         end).
Proof.
  split_and!.
  - apply add_edge_existing.
  - intros g e s t Hrows Hex. unfold upsert_edge. rewrite Hrows. simpl.
    unfold merge_rel at 1 2 3. simpl. rewrite Hex. f_equal.
    apply map_ext. intros r. by rewrite orb_false_r.
  - apply lookup_set_rel.
Qed.

Lemma add_edge_keeps_first_upsert_edge_merges_witness :
  edge_rows two_services second_write = [(0, 1)]
  ∧ existsb (rel_matches 0 1 (edge_id second_write)) (grels two_services)
    = true
  ∧ upsert_edge two_services second_write
    = Graph (gnodes two_services)
        (map (λ r, if rel_matches 0 1 (edge_id second_write) r
                   then GRel (rkey r) (rsrc r) (rdst r)
                          (set_rel second_write (rprops r))
                   else r) (grels two_services))
        (gfresh two_services).
Proof.
  split; [vm_compute; reflexivity|]. split; [vm_compute; reflexivity|].
  apply (proj1 (proj2 add_edge_keeps_first_upsert_edge_merges));
    vm_compute; reflexivity.
Defined.

(** C3, counterexample.  The store holds the edge [edge:a-calls-b] with
    type [calls]; a second [upsert_edge] with the same id and endpoints
    but type [uses] and a property changes the stored relationship. *)
Lemma upsert_edge_second_write_changes :
  rprops <$> grels two_services
  = [ <["type" := VStr "calls"]> {["id" := VStr "edge:a-calls-b"]} ]
  ∧ rprops <$> grels (upsert_edge two_services second_write)
    = [ <["weight" := VInt 1]>
          (<["type" := VStr "uses"]> {["id" := VStr "edge:a-calls-b"]}) ]
  ∧ upsert_edge two_services second_write ≠ two_services.
Proof.
  split; [vm_compute; reflexivity|]. split; [vm_compute; reflexivity|].
  vm_compute. discriminate.
Qed.

Lemma elem_of_upsert_node g node n :
  n ∈ gnodes g → upsert_step node n ∈ gnodes (upsert_node g node).
Proof.
  intros Hin. rewrite upsert_node_unfold. simpl.
  apply list_elem_of_fmap. exists n. split; [done|].
  unfold merge_node. destruct (match_nodes g (node_id node)); [|done].
  simpl. apply elem_of_app. by left.
Qed.

(** C5 (as amended). [upsert_node] leaves every node with another id
    untouched, and rewrites a node with the incoming id in place: its
    stored type and name become the incoming node's type and name (the
    incoming properties permitting), so they stay what they were only when
    the incoming values agree with the stored ones. *)
Theorem upsert_node_overwrites_type_and_name g node n :
  n ∈ gnodes g →
  (has_id (node_id node) (nprops n) = false →
   n ∈ gnodes (upsert_node g node))
  ∧ (has_id (node_id node) (nprops n) = true →
     GNode (nkey n) (set_node node (nprops n)) ∈ gnodes (upsert_node g node)
     ∧ (node_properties node !! "type" = None →
        set_node node (nprops n) !! "type" = Some (VStr (node_type node)))
     ∧ (node_properties node !! "name" = None →
        set_node node (nprops n) !! "name" = Some (VStr (node_name node)))).
Proof.
  intros Hin. pose proof (elem_of_upsert_node g node n Hin) as Hstep.
  unfold upsert_step in Hstep. split.
  - intros Hid. by rewrite Hid in Hstep.
  - intros Hid. rewrite Hid in Hstep. split_and!; [done|..].
    + intros Hp. rewrite lookup_set_node, Hp. done.
    + intros Hp. rewrite lookup_set_node, Hp. done.
Qed.

Lemma upsert_node_overwrites_type_and_name_witness :
  let g := upsert_node empty_graph (service_node "a") in
  let node := mkNode "service:a" "database" "b" ∅ in
  let n := GNode 0 (<["name" := VStr "a"]>
                      (<["type" := VStr "service"]>
                         {["id" := VStr "service:a"]})) in
  n ∈ gnodes g
  ∧ GNode 0 (set_node node (nprops n)) ∈ gnodes (upsert_node g node)
  ∧ set_node node (nprops n) !! "type" = Some (VStr "database").
Proof.
  simpl.
  assert (GNode 0 (<["name" := VStr "a"]>
                     (<["type" := VStr "service"]>
                        {["id" := VStr "service:a"]}))
          ∈ gnodes (upsert_node empty_graph (service_node "a"))) as Hin.
  { vm_compute. left. }
  split; [exact Hin|].
  destruct (upsert_node_overwrites_type_and_name _
              (mkNode "service:a" "database" "b" ∅) _ Hin) as [_ H].
  destruct H as (H1 & H2 & _); [vm_compute; reflexivity|].
  split; [exact H1|]. apply H2. vm_compute. reflexivity.
Defined.

(** C5, counterexample.  A node stored as service [a] under the id
    [service:a] is upserted again under the same id as database [b]: the
    stored type and name change. *)
Lemma upsert_node_changes_type_and_name :
  let g := upsert_node empty_graph (service_node "a") in
  let g' := upsert_node g (mkNode "service:a" "database" "b" ∅) in
  get_node g "service:a"
  = Some (<["name" := VStr "a"]>
            (<["type" := VStr "service"]> {["id" := VStr "service:a"]}))
  ∧ get_node g' "service:a"
    = Some (<["name" := VStr "b"]>
              (<["type" := VStr "database"]> {["id" := VStr "service:a"]})).
Proof. split; vm_compute; reflexivity. Qed.

(** C4, failing input.  The incoming node carries a property named [id]:
    the first [upsert_node] stores one node whose id has become [x], and
    the second, finding no node with id [service:a], stores another one. *)
Theorem upsert_node_twice_with_id_property :
  let g1 := upsert_node empty_graph labelled_id_node in
  let g2 := upsert_node g1 labelled_id_node in
  length (gnodes g1) = 1 ∧ length (gnodes g2) = 2 ∧ g2 ≠ g1
  ∧ get_node g1 "service:a" = None.
Proof.
  split_and!; try (vm_compute; reflexivity). vm_compute. discriminate.
Qed.

(** ** Chains of steps *)

Section Chains.
Variable nbrs : nat → list (nat * nat).

Lemma endpoint_cons u p st : endpoint u (p :: st) = endpoint p.2 st.
Proof. done. Qed.

Lemma endpoint_app u a b : endpoint u (a ++ b) = endpoint (endpoint u a) b.
Proof. unfold endpoint. by rewrite foldl_app. Qed.

Lemma chain_app u a b :
  chain nbrs u (a ++ b) ↔ chain nbrs u a ∧ chain nbrs (endpoint u a) b.
Proof.
  revert u. induction a as [|p a IH]; intros u; simpl; [tauto|].
  rewrite IH. tauto.
Qed.

Lemma last_nodes u st : last (u :: st.*2) = Some (endpoint u st).
Proof.
  revert u. induction st as [|p st IH]; intros u; [done|].
  rewrite fmap_cons. rewrite last_cons_cons. simpl. apply IH.
Qed.

(** The matches of [trails] are the chains of that length that take no
    relationship twice and none of [used]. *)
Lemma trails_spec k used u p :
  p ∈ trails nbrs k used u ↔
  ∃ st, length st = k ∧ chain nbrs u st ∧ NoDup st.*1
        ∧ (∀ r, r ∈ st.*1 → r ∉ used) ∧ p = u :: st.*2.
Proof.
  revert used u p. induction k as [|k IH]; intros used u p; simpl.
  - rewrite list_elem_of_singleton. split.
    + intros ->. exists []. simpl. split_and!; try done; [constructor|].
      intros r Hr. by apply not_elem_of_nil in Hr.
    + intros (st & Hl & _ & _ & _ & ->).
      by apply nil_length_inv in Hl as ->.
  - rewrite list_elem_of_bind. split.
    + intros ([r v] & Hin & Hnb). simpl in Hin.
      case_decide as Hu; [by apply not_elem_of_nil in Hin|].
      apply list_elem_of_fmap in Hin as (q & -> & Hq).
      apply IH in Hq as (st & Hl & Hc & Hnd & Hus & ->).
      exists ((r, v) :: st). simpl. repeat split; try done.
      * by rewrite Hl.
      * constructor; [|done]. intros Hr. apply Hus in Hr.
        apply Hr. by left.
      * intros r' Hr'. apply elem_of_cons in Hr' as [-> | Hr']; [done|].
        intros Hin. apply Hus in Hr'. apply Hr'. by right.
    + intros (st & Hl & Hc & Hnd & Hus & ->).
      destruct st as [|[r v] st]; [done|]. simpl in *.
      destruct Hc as [Hnb Hc]. exists (r, v). split; [|done]. simpl.
      apply NoDup_cons in Hnd as [Hr Hnd].
      case_decide as Hu.
      { exfalso. apply (Hus r); [by left | done]. }
      apply list_elem_of_fmap. exists (v :: st.*2). split; [done|].
      apply IH. exists st. repeat split; try done; [lia|].
      intros r' Hr' Hin. apply elem_of_cons in Hin as [-> | Hin]; [done|].
      apply (Hus r'); [by right | done].
Qed.

Lemma chain_key_split u st r :
  chain nbrs u st → r ∈ st.*1 →
  ∃ a v b, st = a ++ (r, v) :: b ∧ chain nbrs u a
           ∧ (r, v) ∈ nbrs (endpoint u a) ∧ chain nbrs v b.
Proof.
  intros Hc Hr. apply list_elem_of_fmap in Hr as ([r' v] & Heq & Hin).
  simpl in Heq. subst r'.
  apply list_elem_of_split in Hin as (a & b & ->).
  apply chain_app in Hc as [Ha Hb]. simpl in Hb.
  exists a, v, b. tauto.
Qed.

(** A non-empty chain contains a non-empty one between the same nodes
    that takes no relationship twice. *)
Lemma shorten_dir u st :
  keyed_dir nbrs → chain nbrs u st → st ≠ [] →
  ∃ st', chain nbrs u st' ∧ st' ≠ [] ∧ NoDup st'.*1
         ∧ (length st' ≤ length st)%nat ∧ endpoint u st' = endpoint u st.
Proof.
  intros Hk. revert u. induction st as [|[r v] st IH]; intros u Hc Hne0; [done|].
  simpl in Hc. destruct Hc as [Hnb Hc].
  destruct st as [|q st].
  { exists [(r, v)]. repeat split; try done. apply NoDup_singleton. }
  destruct (IH v Hc) as (st' & Hc' & Hne & Hnd & Hlen & Hend); [done|].
  destruct (decide (r ∈ st'.*1)) as [Hin | Hnin].
  - destruct (chain_key_split _ _ _ Hc' Hin) as (a & v' & b & -> & Ha & Hq & Hb).
    destruct (Hk _ _ _ _ _ Hnb Hq) as [Hu Hv]. subst v'.
    exists ((r, v) :: b). repeat split.
    + done.
    + done.
    + done.
    + rewrite fmap_app in Hnd. apply NoDup_app in Hnd as (_ & _ & Hnd).
      done.
    + rewrite length_app in Hlen. simpl in *. lia.
    + unfold endpoint in *. rewrite foldl_app in Hend. simpl in *. done.
  - exists ((r, v) :: st'). repeat split; try done.
    + simpl. by constructor.
    + simpl in *. lia.
Qed.

(** The same for relationships usable from both ends, between two
    different nodes. *)
Lemma shorten_undir u w st :
  keyed nbrs → chain nbrs u st → endpoint u st = w → u ≠ w →
  ∃ st', chain nbrs u st' ∧ NoDup st'.*1
         ∧ (length st' ≤ length st)%nat ∧ endpoint u st' = w.
Proof.
  intros Hk. revert u. induction st as [|[r v] st IH]; intros u Hc He Hne;
    [done|].
  simpl in Hc. destruct Hc as [Hnb Hc].
  destruct (decide (v = w)) as [-> | Hvw].
  { exists [(r, w)]. repeat split; try done.
    - apply NoDup_singleton.
    - simpl. lia. }
  destruct (IH v Hc) as (st' & Hc' & Hnd & Hlen & Hend); [done|done|].
  destruct (decide (r ∈ st'.*1)) as [Hin | Hnin].
  - destruct (chain_key_split _ _ _ Hc' Hin) as (a & v' & b & -> & Ha & Hq & Hb).
    rewrite fmap_app in Hnd. apply NoDup_app in Hnd as (_ & _ & Hnd).
    rewrite fmap_cons in Hnd. simpl in Hnd.
    rewrite length_app in Hlen. simpl in Hlen.
    rewrite endpoint_app in Hend. simpl in Hend.
    destruct (Hk _ _ _ _ _ Hnb Hq) as [[Hu Hv] | [Hu Hv]].
    + subst v'. exists ((r, v) :: b). repeat split; try done.
      simpl. lia.
    + subst v'. exists b. repeat split; try done.
      * by apply NoDup_cons in Hnd as [_ ?].
      * simpl. lia.
  - exists ((r, v) :: st'). repeat split; try done.
    + simpl. by constructor.
    + simpl in *. lia.
Qed.

(** A chain visits no node twice, or a shorter one joins the same
    nodes. *)
Lemma cut_cycle u st :
  chain nbrs u st →
  NoDup (u :: st.*2)
  ∨ ∃ st', chain nbrs u st' ∧ (length st' < length st)%nat
           ∧ endpoint u st' = endpoint u st.
Proof.
  revert u. induction st as [|[r v] st IH]; intros u Hc.
  { left. apply NoDup_singleton. }
  simpl in Hc. destruct Hc as [Hnb Hc].
  destruct (IH v Hc) as [Hnd | (st' & Hc' & Hlen & Hend)].
  - destruct (decide (u ∈ v :: st.*2)) as [Hin | Hnin].
    + right. apply elem_of_cons in Hin as [-> | Hin].
      * exists st. repeat split; try done. simpl. lia.
      * apply list_elem_of_fmap in Hin as ([r' v'] & Heq & Hin).
        simpl in Heq. subst v'.
        apply list_elem_of_split in Hin as (a & b & ->).
        apply chain_app in Hc as [Ha Hb]. simpl in Hb.
        exists b. repeat split; [tauto| |].
        -- rewrite length_cons, length_app. simpl. lia.
        -- simpl. rewrite endpoint_app. done.
    + left. rewrite fmap_cons. simpl. by constructor.
  - right. exists ((r, v) :: st'). repeat split; try done.
    simpl. lia.
Qed.

End Chains.

(** Connection with the store. *)

Lemma NoDup_fmap_eq {A B} (f : A → B) (l : list A) x y :
  NoDup (f <$> l) → x ∈ l → y ∈ l → f x = f y → x = y.
Proof.
  induction l as [|a l IH]; intros Hnd Hx Hy Hf.
  { by apply not_elem_of_nil in Hx. }
  rewrite fmap_cons in Hnd. apply NoDup_cons in Hnd as [Ha Hnd].
  apply elem_of_cons in Hx as [-> | Hx], Hy as [-> | Hy]; try done.
  - exfalso. apply Ha. rewrite Hf. apply list_elem_of_fmap. eauto.
  - exfalso. apply Ha. rewrite <- Hf. apply list_elem_of_fmap. eauto.
  - by apply IH.
Qed.

Lemma elem_of_forward g u r v :
  (r, v) ∈ forward g u ↔
  ∃ e, e ∈ grels g ∧ rkey e = r ∧ rsrc e = u ∧ rdst e = v.
Proof.
  unfold forward. rewrite list_elem_of_fmap. split.
  - intros (e & Heq & Hin). apply list_elem_of_filter in Hin as [Hs Hin].
    simplify_eq. eauto.
  - intros (e & Hin & <- & <- & <-). exists e. split; [done|].
    by apply list_elem_of_filter.
Qed.

Lemma elem_of_backward g u r v :
  (r, v) ∈ backward g u ↔
  ∃ e, e ∈ grels g ∧ rkey e = r ∧ rdst e = u ∧ rsrc e = v.
Proof.
  unfold backward. rewrite list_elem_of_fmap. split.
  - intros (e & Heq & Hin). apply list_elem_of_filter in Hin as [Hs Hin].
    simplify_eq. eauto.
  - intros (e & Hin & <- & <- & <-). exists e. split; [done|].
    by apply list_elem_of_filter.
Qed.

Lemma elem_of_either g u r v :
  (r, v) ∈ either g u ↔
  ∃ e, e ∈ grels g ∧ rkey e = r
       ∧ ((rsrc e = u ∧ rdst e = v) ∨ (rdst e = u ∧ rsrc e = v)).
Proof.
  unfold either. rewrite elem_of_app, elem_of_forward, elem_of_backward.
  split.
  - intros [(e & ? & ? & ? & ?) | (e & ? & ? & ? & ?)]; exists e; tauto.
  - intros (e & ? & ? & [[? ?] | [? ?]]); [left | right]; exists e; tauto.
Qed.

Section Keyed.
Variable g : graph.
Hypothesis rel_keys : NoDup (rkey <$> grels g).

Lemma forward_keyed : keyed_dir (forward g).
Proof.
  intros r u v u' v' H1 H2.
  apply elem_of_forward in H1 as (e & He & Hk & <- & <-).
  apply elem_of_forward in H2 as (e' & He' & Hk' & <- & <-).
  assert (e = e') as -> by (eapply NoDup_fmap_eq; [done..|congruence]).
  done.
Qed.

Lemma backward_keyed : keyed_dir (backward g).
Proof.
  intros r u v u' v' H1 H2.
  apply elem_of_backward in H1 as (e & He & Hk & <- & <-).
  apply elem_of_backward in H2 as (e' & He' & Hk' & <- & <-).
  assert (e = e') as -> by (eapply NoDup_fmap_eq; [done..|congruence]).
  done.
Qed.

Lemma either_keyed : keyed (either g).
Proof.
  intros r u v u' v' H1 H2.
  apply elem_of_either in H1 as (e & He & Hk & H1).
  apply elem_of_either in H2 as (e' & He' & Hk' & H2).
  assert (e = e') as -> by (eapply NoDup_fmap_eq; [done..|congruence]).
  destruct H1 as [[<- <-] | [<- <-]], H2 as [[<- <-] | [<- <-]]; tauto.
Qed.
End Keyed.

(** Walks are chains over the relationships of the store. *)
Lemma walk_chain g k u v :
  walk g k u v ↔
  ∃ st, length st = k ∧ chain (forward g) u st ∧ endpoint u st = v.
Proof.
  split.
  - induction 1 as [u | k r v Hr Hw (st & Hl & Hc & He)].
    + by exists [].
    + exists ((rkey r, rdst r) :: st). simpl. split_and!; try done.
      * by rewrite Hl.
      * apply elem_of_forward. eauto.
  - intros (st & Hl & Hc & He). revert k u Hl Hc He.
    induction st as [|[r w] st IH]; intros k u Hl Hc He; simpl in *; subst.
    + constructor.
    + destruct Hc as [Hnb Hc].
      apply elem_of_forward in Hnb as (e & Hin & _ & <- & <-).
      apply walk_step; [done|]. by apply IH.
Qed.

Lemma walk_snoc g k u r :
  r ∈ grels g → walk g k u (rsrc r) → walk g (S k) u (rdst r).
Proof.
  intros Hr. remember (rsrc r) as w eqn:Hw. induction 1 as [u | k r' v Hr' Hwk IH].
  - subst. apply walk_step; [done|]. constructor.
  - apply walk_step; [done|]. by apply IH.
Qed.

Lemma walk_chain_back g k u v :
  walk g k u v ↔
  ∃ st, length st = k ∧ chain (backward g) v st ∧ endpoint v st = u.
Proof.
  split.
  - induction 1 as [u | k r v Hr Hw (st & Hl & Hc & He)].
    + by exists [].
    + exists (st ++ [(rkey r, rsrc r)]). split_and!.
      * rewrite length_app. simpl. lia.
      * apply chain_app. split; [done|]. simpl. split; [|done].
        rewrite He. apply elem_of_backward. eauto.
      * by rewrite endpoint_app.
  - intros (st & Hl & Hc & He). revert k v Hl Hc He.
    induction st as [|[r w] st IH]; intros k v Hl Hc He; simpl in *; subst.
    + constructor.
    + destruct Hc as [Hnb Hc].
      apply elem_of_backward in Hnb as (e & Hin & _ & <- & <-).
      apply walk_snoc; [done|]. by apply IH.
Qed.

Lemma uwalk_chain g k u v :
  uwalk g k u v ↔
  ∃ st, length st = k ∧ chain (either g) u st ∧ endpoint u st = v.
Proof.
  split.
  - induction 1 as [u | k r v Hr Hw (st & Hl & Hc & He)
                      | k r v Hr Hw (st & Hl & Hc & He)].
    + by exists [].
    + exists ((rkey r, rdst r) :: st). simpl. split_and!; try done.
      * by rewrite Hl.
      * apply elem_of_either. exists r. tauto.
    + exists ((rkey r, rsrc r) :: st). simpl. split_and!; try done.
      * by rewrite Hl.
      * apply elem_of_either. exists r. tauto.
  - intros (st & Hl & Hc & He). revert k u Hl Hc He.
    induction st as [|[r w] st IH]; intros k u Hl Hc He; simpl in *; subst.
    + constructor.
    + destruct Hc as [Hnb Hc].
      apply elem_of_either in Hnb as (e & Hin & _ & [[<- <-] | [<- <-]]).
      * apply uwalk_fwd; [done|]. by apply IH.
      * apply uwalk_bwd; [done|]. by apply IH.
Qed.

Lemma elem_of_distinct {A} `{EqDecision A} (l : list A) x :
  x ∈ distinct l ↔ x ∈ l.
Proof.
  induction l as [|a l IH]; simpl; [done|].
  rewrite !elem_of_cons, list_elem_of_filter, IH.
  destruct (decide (x = a)) as [-> | Hne]; [tauto|].
  split; [intros [? | [_ ?]]; tauto | intros [? | ?]; tauto].
Qed.

Lemma NoDup_distinct {A} `{EqDecision A} (l : list A) : NoDup (distinct l).
Proof.
  induction l as [|a l IH]; simpl; [constructor|].
  constructor.
  - rewrite list_elem_of_filter. intros [Hne _]. by apply Hne.
  - by apply NoDup_filter.
Qed.

Lemma distinct_NoDup {A} `{EqDecision A} (l : list A) :
  NoDup l → distinct l = l.
Proof.
  induction 1 as [|a l Ha Hnd IH]; simpl; [done|].
  rewrite IH. f_equal. clear IH Hnd.
  induction l as [|b l IH]; [done|].
  rewrite filter_cons. apply not_elem_of_cons in Ha as [Hab Ha].
  case_decide; [|done]. f_equal. by apply IH.
Qed.

Lemma node_of_key_Some g k n :
  node_of_key g k = Some n → n ∈ gnodes g ∧ nkey n = k.
Proof.
  unfold node_of_key. induction (gnodes g) as [|a l IH]; simpl; [done|].
  case_bool_decide.
  - intros [= ->]. split; [by left | done].
  - intros H'. apply IH in H' as [? ?]. split; [by right | done].
Qed.

Lemma node_of_key_elem g n :
  NoDup (nkey <$> gnodes g) → n ∈ gnodes g → node_of_key g (nkey n) = Some n.
Proof.
  unfold node_of_key. induction (gnodes g) as [|a l IH]; intros Hnd Hin.
  { by apply not_elem_of_nil in Hin. }
  rewrite fmap_cons in Hnd. apply NoDup_cons in Hnd as [Ha Hnd]. simpl.
  apply elem_of_cons in Hin as [-> | Hin].
  - by rewrite bool_decide_eq_true_2.
  - rewrite bool_decide_eq_false_2; [by apply IH|].
    intros Heq. apply Ha. rewrite Heq. apply list_elem_of_fmap. eauto.
Qed.

Lemma NoDup_omap_keys g ks : NoDup ks → NoDup (omap (node_of_key g) ks).
Proof.
  induction 1 as [|k ks Hk Hnd IH]; simpl; [constructor|].
  destruct (node_of_key g k) as [n|] eqn:E; [|done].
  constructor; [|done]. intros Hin.
  apply list_elem_of_omap in Hin as (k' & Hk' & E').
  apply node_of_key_Some in E as [_ <-].
  apply node_of_key_Some in E' as [_ <-]. done.
Qed.

Lemma elem_of_var_length nbrs lo n u p :
  p ∈ var_length nbrs lo n u ↔
  ∃ k, (lo ≤ k < lo + n)%nat ∧ p ∈ trails nbrs k [] u.
Proof.
  unfold var_length. rewrite list_elem_of_bind.
  setoid_rewrite elem_of_seq. split.
  - intros (k & Hp & Hk). exists k. split; [lia | done].
  - intros (k & Hk & Hp). exists k. split; [done | lia].
Qed.

(** The end nodes of a variable-length pattern are the nodes some chain of
    admissible length leads to. *)
Lemma var_length_ends nbrs n u v :
  keyed_dir nbrs →
  v ∈ omap path_end (var_length nbrs 1 n u) ↔
  ∃ st, (1 ≤ length st ≤ n)%nat ∧ chain nbrs u st ∧ endpoint u st = v.
Proof.
  intros Hk. rewrite list_elem_of_omap. split.
  - intros (p & Hp & He). apply elem_of_var_length in Hp as (k & Hk' & Hp).
    apply trails_spec in Hp as (st & Hl & Hc & _ & _ & ->).
    unfold path_end in He. rewrite last_nodes in He. simplify_eq.
    exists st. split_and!; try done; lia.
  - intros (st & Hl & Hc & He).
    destruct (shorten_dir nbrs u st Hk Hc) as (st' & Hc' & Hne & Hnd & Hl' & He').
    { intros ->. simpl in Hl. lia. }
    exists (u :: st'.*2). split.
    + apply elem_of_var_length. exists (length st'). split.
      * destruct st'; [done|]. simpl in *. lia.
      * apply trails_spec. exists st'. split_and!; try done.
        intros r _ Hr. by apply not_elem_of_nil in Hr.
    + unfold path_end. rewrite last_nodes. congruence.
Qed.

Import QueryEngine.

Lemma elem_of_downstream_nodes g node_id n :
  graph_wf g →
  n ∈ downstream_nodes g node_id ↔
  n ∈ gnodes g
  ∧ ∃ s k, s ∈ match_nodes g node_id ∧ (1 ≤ k ≤ 10)%nat
           ∧ walk g k (nkey s) (nkey n).
Proof.
  intros (Hn & Hr & _). unfold downstream_nodes.
  rewrite list_elem_of_omap. setoid_rewrite elem_of_distinct.
  setoid_rewrite list_elem_of_bind.
  setoid_rewrite (λ u v, var_length_ends (forward g) 10 u v (forward_keyed g Hr)).
  split.
  - intros (key & (s & (st & Hl & Hc & He) & Hs) & Hkey).
    apply node_of_key_Some in Hkey as [Hin <-]. split; [done|].
    exists s, (length st). split_and!; try done; try lia.
    apply walk_chain. eauto.
  - intros (Hin & s & k & Hs & Hk & Hw).
    apply walk_chain in Hw as (st & Hl & Hc & He).
    exists (nkey n). split; [|by apply node_of_key_elem].
    exists s. split; [|done]. exists st. split_and!; try done; lia.
Qed.

Lemma elem_of_upstream_nodes g node_id n :
  graph_wf g →
  n ∈ upstream_nodes g node_id ↔
  n ∈ gnodes g
  ∧ ∃ t k, t ∈ match_nodes g node_id ∧ (1 ≤ k ≤ 10)%nat
           ∧ walk g k (nkey n) (nkey t).
Proof.
  intros (Hn & Hr & _). unfold upstream_nodes.
  rewrite list_elem_of_omap. setoid_rewrite elem_of_distinct.
  setoid_rewrite list_elem_of_bind.
  setoid_rewrite (λ u v, var_length_ends (backward g) 10 u v (backward_keyed g Hr)).
  split.
  - intros (key & (s & (st & Hl & Hc & He) & Hs) & Hkey).
    apply node_of_key_Some in Hkey as [Hin <-]. split; [done|].
    exists s, (length st). split_and!; try done; try lia.
    apply walk_chain_back. eauto.
  - intros (Hin & s & k & Hs & Hk & Hw).
    apply walk_chain_back in Hw as (st & Hl & Hc & He).
    exists (nkey n). split; [|by apply node_of_key_elem].
    exists s. split; [|done]. exists st. split_and!; try done; lia.
Qed.

Lemma NoDup_downstream_nodes g node_id : NoDup (downstream_nodes g node_id).
Proof. apply NoDup_omap_keys, NoDup_distinct. Qed.

Lemma NoDup_upstream_nodes g node_id : NoDup (upstream_nodes g node_id).
Proof. apply NoDup_omap_keys, NoDup_distinct. Qed.

(** ** Blast radius and ownership *)

Lemma set_add_spec s v :
  NoDup (py_key <$> s) →
  NoDup (py_key <$> set_add s v)
  ∧ (list_to_set (py_key <$> set_add s v) : gset value)
    = list_to_set (py_key <$> s) ∪ {[py_key v]}.
Proof.
  intros Hnd. unfold set_add. case_decide as Hin.
  - split; [done|]. apply set_eq. intros x.
    rewrite elem_of_union, elem_of_singleton, elem_of_list_to_set.
    split; [tauto|]. intros [? | ->]; done.
  - rewrite fmap_app, list_to_set_app_L. simpl. split.
    + apply NoDup_app. split_and!; [done| |apply NoDup_singleton].
      intros x Hx Hx'. apply list_elem_of_singleton in Hx'. by subst.
    + by rewrite union_empty_r_L.
Qed.

Lemma foldl_set_add_spec l s :
  NoDup (py_key <$> s) →
  NoDup (py_key <$> foldl set_add s l)
  ∧ (list_to_set (py_key <$> foldl set_add s l) : gset value)
    = list_to_set (py_key <$> s) ∪ list_to_set (py_key <$> l).
Proof.
  revert s. induction l as [|v l IH]; intros s Hnd; simpl.
  - split; [done|]. by rewrite union_empty_r_L.
  - destruct (set_add_spec s v Hnd) as [Hnd' Hset].
    destruct (IH _ Hnd') as [Hnd'' Hset'']. split; [done|].
    rewrite Hset'', Hset. by rewrite (assoc_L (∪)).
Qed.

Lemma get_node_present g x :
  match_nodes g x ≠ [] → ∃ node, get_node g x = Some node ∧ node ≠ ∅.
Proof.
  intros Hne. unfold get_node, GraphStorage.get_node.
  destruct (match_nodes g x) as [|n l] eqn:E; [done|]. simpl.
  exists (nprops n). split; [done|].
  assert (n ∈ match_nodes g x) as Hin by (rewrite E; left).
  apply elem_of_match_nodes in Hin as [_ Hid]. apply has_id_spec in Hid.
  intros Hemp. rewrite Hemp in Hid. by rewrite lookup_empty in Hid.
Qed.

(** C7. For a node id present in the store, [total_affected] is the
    number of distinct ids in upstream(x) ∪ downstream(x) ∪ {x}; for an
    absent id [blast_radius] produces no result ([None], which the facade
    reports as an error). *)
Theorem blast_radius_total_affected g x :
  (match_nodes g x = [] → blast_radius g x = None)
  ∧ (match_nodes g x ≠ [] →
     ∃ r, blast_radius g x = Some r
          ∧ upstream g x [] = Ok (br_upstream r)
          ∧ downstream g x [] = Ok (br_downstream r)
          ∧ br_total_affected r
            = size (id_set (br_upstream r) ∪ id_set (br_downstream r)
                      ∪ {[VStr x]})).
Proof.
  split.
  - intros Hnil. unfold blast_radius, get_node, GraphStorage.get_node.
    by rewrite Hnil.
  - intros Hne. destruct (get_node_present g x Hne) as (node & Hget & Hnode).
    unfold blast_radius. rewrite Hget. rewrite decide_False by done.
    eexists. split; [done|]. simpl. split_and!; [done..|].
    set (l := record_id <$> _).
    destruct (foldl_set_add_spec l []) as [Hnd Hset]; [constructor|].
    destruct (set_add_spec _ (VStr x) Hnd) as [Hnd' Hset'].
    rewrite <- (length_fmap py_key).
    rewrite <- (size_list_to_set (C:=gset value)) by exact Hnd'.
    rewrite Hset', Hset. simpl. rewrite union_empty_l_L.
    unfold id_set, record_ids, l. by rewrite fmap_app, fmap_app, list_to_set_app_L.
Qed.

Lemma blast_radius_total_affected_witness :
  match_nodes fixture "service:B" ≠ []
  ∧ ∃ r, blast_radius fixture "service:B" = Some r
         ∧ upstream fixture "service:B" [] = Ok (br_upstream r)
         ∧ downstream fixture "service:B" [] = Ok (br_downstream r)
         ∧ br_total_affected r
           = size (id_set (br_upstream r) ∪ id_set (br_downstream r)
                     ∪ {[VStr "service:B"]}).
Proof.
  assert (match_nodes fixture "service:B" ≠ []) as H
    by (vm_compute; discriminate).
  split; [exact H|].
  exact (proj2 (blast_radius_total_affected fixture "service:B") H).
Defined.

Lemma has_prop_str k s m :
  has_prop k (VStr s) m = true ↔ m !! k = Some (VStr s).
Proof.
  unfold has_prop. rewrite bool_decide_eq_true. split; [tauto|done].
Qed.

Lemma elem_of_owner_rows g x team :
  team ∈ owner_rows g (VStr x) ↔ is_owner g x team.
Proof.
  unfold owner_rows, is_owner. rewrite list_elem_of_bind. split.
  - intros (r & Hin & Hr). exists r.
    destruct (has_prop "type" (VStr "owns") (rprops r)) eqn:Eo;
      [|by apply not_elem_of_nil in Hin].
    destruct (node_of_key g (rsrc r)) as [tm|] eqn:Es;
      [|by apply not_elem_of_nil in Hin].
    destruct (node_of_key g (rdst r)) as [tg|] eqn:Ed;
      [|by apply not_elem_of_nil in Hin].
    destruct (has_prop "type" (VStr "team") (nprops tm)) eqn:Et;
      [|by apply not_elem_of_nil in Hin].
    destruct (has_prop "id" (VStr x) (nprops tg)) eqn:Ei;
      [|by apply not_elem_of_nil in Hin].
    simpl in Hin. apply list_elem_of_singleton in Hin. subst tm.
    exists tg. rewrite has_prop_str in Eo, Et, Ei. done.
  - intros (r & tg & Hr & Eo & Es & Et & Ed & Ei). exists r. split; [|done].
    rewrite <- has_prop_str in Eo, Et, Ei.
    rewrite Eo, Es, Ed, Et, Ei. simpl. by left.
Qed.

(** C8 (as amended). [get_owner] returns nothing exactly when no team
    node has an [owns] relationship to a node with that id; otherwise it
    returns such a team: the first row the database yields.  It never
    fails: with several owning teams the first one is returned. *)
Theorem get_owner_first_owner g x :
  (get_owner g x = None ↔ ¬ ∃ team, is_owner g x team)
  ∧ (∀ t, get_owner g x = Some t → ∃ team, is_owner g x team ∧ t = nprops team)
  ∧ (∀ team, team ∈ owner_rows g (VStr x) ↔ is_owner g x team)
  ∧ get_owner g x = nprops <$> head (owner_rows g (VStr x)).
Proof.
  unfold get_owner, get_owner_v. split_and!.
  - destruct (owner_rows g (VStr x)) as [|tm l] eqn:E; simpl.
    + split; [|done]. intros _ (team & Ho).
      apply elem_of_owner_rows in Ho. rewrite E in Ho.
      by apply not_elem_of_nil in Ho.
    + split; [done|]. intros Hno. exfalso. apply Hno. exists tm.
      apply elem_of_owner_rows. rewrite E. left.
  - intros t Ht. destruct (owner_rows g (VStr x)) as [|tm l] eqn:E;
      simpl in Ht; [done|].
    injection Ht as <-. exists tm. split; [|done].
    apply elem_of_owner_rows. rewrite E. left.
  - intros team. apply elem_of_owner_rows.
  - done.
Qed.

(** C8, counterexample.  Teams T1 and T2 both own [service:A]; the call
    returns T1 and reports nothing. *)
Lemma get_owner_two_owners :
  (λ n, nprops n !! "id") <$> owner_rows two_owners (VStr "service:A")
  = [Some (VStr "team:T1"); Some (VStr "team:T2")]
  ∧ get_owner two_owners "service:A"
    = Some (<["name" := VStr "T1"]>
              (<["type" := VStr "team"]> {["id" := VStr "team:T1"]})).
Proof. split; vm_compute; reflexivity. Qed.

(** ** Downstream and upstream *)

(** C6 (as amended). Called without edge types on a well-formed store,
    [downstream] returns, without duplicates, exactly the nodes that 1 to
    10 relationships of any type (ownership included) lead to from a node
    with the given id, each followed from source to target; the start node
    is among them exactly when such a walk leads back to it.  [upstream]
    is the same with every relationship followed from target to source.
    On the fixture, downstream(A) = {B, C} and upstream(C) = {B, A, T}. *)
Theorem downstream_upstream_reachability :
  (∀ g x, graph_wf g →
     ∃ ds us,
       downstream g x [] = Ok (nprops <$> ds)
       ∧ upstream g x [] = Ok (nprops <$> us)
       ∧ NoDup ds ∧ NoDup us
       ∧ (∀ n, n ∈ ds ↔
               n ∈ gnodes g
               ∧ ∃ s k, s ∈ match_nodes g x ∧ (1 ≤ k ≤ 10)%nat
                        ∧ walk g k (nkey s) (nkey n))
       ∧ (∀ n, n ∈ us ↔
               n ∈ gnodes g
               ∧ ∃ t k, t ∈ match_nodes g x ∧ (1 ≤ k ≤ 10)%nat
                        ∧ walk g k (nkey n) (nkey t)))
  ∧ downstream fixture "service:A" []
    = Ok (nprops <$> downstream_nodes fixture "service:A")
  ∧ record_ids (nprops <$> downstream_nodes fixture "service:A")
    = [VStr "service:B"; VStr "service:C"]
  ∧ upstream fixture "service:C" []
    = Ok (nprops <$> upstream_nodes fixture "service:C")
  ∧ record_ids (nprops <$> upstream_nodes fixture "service:C")
    = [VStr "service:B"; VStr "service:A"; VStr "team:T"].
Proof.
  split_and!; try (vm_compute; reflexivity).
  intros g x Hwf.
  exists (downstream_nodes g x), (upstream_nodes g x).
  split_and!; try done.
  - apply NoDup_downstream_nodes.
  - apply NoDup_upstream_nodes.
  - intros n. by apply elem_of_downstream_nodes.
  - intros n. by apply elem_of_upstream_nodes.
Qed.

Lemma downstream_upstream_reachability_witness :
  graph_wf two_cycle
  ∧ ∃ ds us,
      downstream two_cycle "service:a" [] = Ok (nprops <$> ds)
      ∧ upstream two_cycle "service:a" [] = Ok (nprops <$> us)
      ∧ NoDup ds ∧ NoDup us
      ∧ (∀ n, n ∈ ds ↔
              n ∈ gnodes two_cycle
              ∧ ∃ s k, s ∈ match_nodes two_cycle "service:a"
                       ∧ (1 ≤ k ≤ 10)%nat
                       ∧ walk two_cycle k (nkey s) (nkey n))
      ∧ (∀ n, n ∈ us ↔
              n ∈ gnodes two_cycle
              ∧ ∃ t k, t ∈ match_nodes two_cycle "service:a"
                       ∧ (1 ≤ k ≤ 10)%nat
                       ∧ walk two_cycle k (nkey n) (nkey t)).
Proof.
  assert (graph_wf two_cycle) as Hwf
    by (apply (bool_decide_unpack _); vm_compute; reflexivity).
  split; [exact Hwf|].
  exact (proj1 downstream_upstream_reachability two_cycle "service:a" Hwf).
Defined.

(** C6, counterexample.  On the fixture the ownership relationship from
    team T to A is followed like any other: the upstream of C holds T
    besides A and B.  On a cycle the start node is returned as its own
    downstream. *)
Lemma upstream_fixture_includes_team :
  upstream fixture "service:C" []
  = Ok (nprops <$> upstream_nodes fixture "service:C")
  ∧ record_ids (nprops <$> upstream_nodes fixture "service:C")
    = [VStr "service:B"; VStr "service:A"; VStr "team:T"]
  ∧ record_ids (nprops <$> downstream_nodes two_cycle "service:a")
    = [VStr "service:b"; VStr "service:a"].
Proof. split_and!; vm_compute; reflexivity. Qed.

(** ** Shortest paths *)

Lemma first_nonempty_nil {A} (f : nat → list A) ks :
  first_nonempty f ks = [] → ∀ k, k ∈ ks → f k = [].
Proof.
  induction ks as [|k ks IH]; simpl; intros H j Hj.
  { by apply not_elem_of_nil in Hj. }
  destruct (f k) eqn:E; [|done].
  apply elem_of_cons in Hj as [-> | Hj]; [done|]. by apply IH.
Qed.

Lemma first_nonempty_cons {A} (f : nat → list A) ks :
  first_nonempty f ks ≠ [] →
  ∃ pre k post, ks = pre ++ k :: post ∧ (∀ j, j ∈ pre → f j = [])
                ∧ first_nonempty f ks = f k.
Proof.
  induction ks as [|k ks IH]; simpl; intros H; [done|].
  destruct (f k) eqn:E.
  - destruct (IH H) as (pre & k' & post & -> & Hpre & Hk').
    exists (k :: pre), k', post. split_and!; [done| |done].
    intros j Hj. apply elem_of_cons in Hj as [-> | Hj]; [done|]. by apply Hpre.
  - exists [], k, ks. split_and!; [done| |by rewrite E].
    intros j Hj. by apply not_elem_of_nil in Hj.
Qed.

Lemma seq_split_lt lo n pre k post :
  seq lo n = pre ++ k :: post →
  (lo ≤ k < lo + n)%nat ∧ ∀ j, (lo ≤ j < k)%nat → j ∈ pre.
Proof.
  revert lo pre. induction n as [|n IH]; intros lo pre H; simpl in H.
  { by destruct pre. }
  destruct pre as [|a pre]; simpl in H; injection H as <- H.
  - split; [lia|]. intros j Hj. lia.
  - destruct (IH _ _ H) as [Hk Hpre]. split; [lia|].
    intros j Hj. destruct (decide (j = lo)) as [-> | Hne]; [by left|].
    right. apply Hpre. lia.
Qed.

Section Shortest.
Variable g : graph.
Hypothesis Hwf : graph_wf g.
Variables s t : nat.
Hypothesis Hst : s ≠ t.

Lemma trail_candidate k st :
  chain (either g) s st → NoDup st.*1 → length st = k → endpoint s st = t →
  s :: st.*2
  ∈ filter (λ p, path_end p = Some t) (trails (either g) k [] s).
Proof.
  intros Hc Hnd Hl He. apply list_elem_of_filter. split.
  - unfold path_end. by rewrite last_nodes, He.
  - apply trails_spec. exists st. split_and!; try done.
    intros r _ Hr. by apply not_elem_of_nil in Hr.
Qed.

Lemma uwalk_trail j :
  uwalk g j s t →
  ∃ st, chain (either g) s st ∧ NoDup st.*1
        ∧ (1 ≤ length st ≤ j)%nat ∧ endpoint s st = t.
Proof.
  intros Hw. apply uwalk_chain in Hw as (st0 & Hl & Hc & He).
  destruct Hwf as (_ & Hr & _).
  destruct (shorten_undir (either g) s t st0 (either_keyed g Hr) Hc He Hst)
    as (st & Hc' & Hnd & Hlen & He').
  exists st. split_and!; try done; [|lia].
  destruct st; [|simpl; lia]. simpl in He'. done.
Qed.

Lemma shortest_candidates_nil :
  shortest_candidates g s t = [] → ∀ k, (k ≤ 15)%nat → ¬ uwalk g k s t.
Proof.
  intros Hnil k Hk Hw.
  destruct (uwalk_trail k Hw) as (st & Hc & Hnd & Hl & He).
  pose proof (first_nonempty_nil _ _ Hnil (length st)) as Hf.
  rewrite elem_of_seq in Hf.
  pose proof (trail_candidate (length st) st Hc Hnd eq_refl He) as Hin.
  rewrite Hf in Hin by lia. by apply not_elem_of_nil in Hin.
Qed.

Lemma shortest_candidates_elem p :
  p ∈ shortest_candidates g s t →
  ∃ st, p = s :: st.*2 ∧ chain (either g) s st ∧ endpoint s st = t
        ∧ (1 ≤ length st ≤ 15)%nat ∧ NoDup p
        ∧ ∀ j, uwalk g j s t → (length st ≤ j)%nat.
Proof.
  intros Hp. unfold shortest_candidates in Hp.
  destruct (first_nonempty_cons
              (λ k, filter (λ p, path_end p = Some t)
                      (trails (either g) k [] s)) (seq 1 15))
    as (pre & k & post & Hseq & Hpre & Heq).
  { intros Hnil. rewrite Hnil in Hp. by apply not_elem_of_nil in Hp. }
  rewrite Heq in Hp. apply list_elem_of_filter in Hp as [Hend Hp].
  apply trails_spec in Hp as (st & Hl & Hc & Hnd & _ & ->).
  unfold path_end in Hend. rewrite last_nodes in Hend. injection Hend as He.
  destruct (seq_split_lt _ _ _ _ _ Hseq) as [Hk Hlt].
  assert (∀ j, uwalk g j s t → (length st ≤ j)%nat) as Hmin.
  { intros j Hw. destruct (decide (length st ≤ j)%nat) as [|Hnle]; [done|].
    exfalso. destruct (uwalk_trail j Hw) as (st' & Hc' & Hnd' & Hl' & He').
    pose proof (trail_candidate (length st') st' Hc' Hnd' eq_refl He') as Hin.
    rewrite Hpre in Hin; [by apply not_elem_of_nil in Hin|].
    apply Hlt. lia. }
  exists st. split_and!; try done; try lia.
  destruct (cut_cycle (either g) s st Hc) as [Hnd' | (st' & Hc' & Hlen & He')];
    [done|].
  exfalso. assert (uwalk g (length st') s t) as Hw.
  { apply uwalk_chain. exists st'. split_and!; [done..|congruence]. }
  apply Hmin in Hw. lia.
Qed.

End Shortest.

Lemma chain_node_keys g u st :
  graph_wf g → chain (either g) u st →
  ∀ v, v ∈ st.*2 → v ∈ nkey <$> gnodes g.
Proof.
  intros (_ & _ & _ & _ & He). revert u.
  induction st as [|[r w] st IH]; intros u Hc v Hv.
  { by apply not_elem_of_nil in Hv. }
  simpl in Hc. destruct Hc as [Hnb Hc]. rewrite fmap_cons in Hv.
  apply elem_of_cons in Hv as [-> | Hv]; [|by eapply IH].
  simpl. apply elem_of_either in Hnb as (e & Hin & _ & Hor).
  rewrite Forall_forall in He. destruct (He e Hin) as [Hs Hd].
  destruct Hor as [[_ <-] | [_ <-]]; done.
Qed.

Lemma chain_adjacent nbrs u st i a b :
  chain nbrs u st →
  (u :: st.*2) !! i = Some a → (u :: st.*2) !! S i = Some b →
  ∃ r, (r, b) ∈ nbrs a.
Proof.
  revert u i. induction st as [|[r w] st IH]; intros u i Hc Ha Hb.
  { destruct i; simpl in *; done. }
  simpl in Hc. destruct Hc as [Hnb Hc]. destruct i as [|i].
  - simpl in Ha, Hb. simplify_eq. eauto.
  - rewrite fmap_cons in Ha, Hb. simpl in Ha, Hb. by eapply IH.
Qed.

Lemma omap_node_of_key g (p : list nat) :
  NoDup (nkey <$> gnodes g) → (∀ k, k ∈ p → k ∈ nkey <$> gnodes g) →
  nkey <$> omap (node_of_key g) p = p.
Proof.
  intros Hnd. induction p as [|k p IH]; intros Hp; [done|]. simpl.
  assert (k ∈ nkey <$> gnodes g) as Hk by (apply Hp; left).
  apply list_elem_of_fmap in Hk as (n & -> & Hn).
  rewrite (node_of_key_elem g n Hnd Hn). simpl. f_equal.
  apply IH. intros k' Hk'. apply Hp. by right.
Qed.

Lemma elem_of_omap_node_of_key g (p : list nat) n :
  n ∈ omap (node_of_key g) p → n ∈ gnodes g.
Proof.
  intros Hin. apply list_elem_of_omap in Hin as (k & _ & Hk).
  by apply node_of_key_Some in Hk as [? _].
Qed.

Lemma match_nodes_distinct_keys g a b s t :
  graph_wf g → match_nodes g a = [s] → match_nodes g b = [t] → a ≠ b →
  s ∈ gnodes g ∧ t ∈ gnodes g ∧ nkey s ≠ nkey t.
Proof.
  intros (Hnd & _) Hs Ht Hab.
  assert (s ∈ match_nodes g a) as Hs' by (rewrite Hs; left).
  assert (t ∈ match_nodes g b) as Ht' by (rewrite Ht; left).
  apply elem_of_match_nodes in Hs' as [Hsin Hsid].
  apply elem_of_match_nodes in Ht' as [Htin Htid].
  split_and!; [done..|]. intros Hk.
  assert (s = t) as -> by (eapply NoDup_fmap_eq; done).
  apply has_id_spec in Hsid, Htid. congruence.
Qed.

(** C2 (as amended). For two different ids, each carried by exactly one
    node of a well-formed store, [path] returns the node sequence of a
    shortest connection between them when relationships may be followed
    in either direction: it starts at the first node, ends at the second,
    joins neighbours only, has at most 15 steps, and no connection has
    fewer steps; it returns the empty sequence when no connection of at
    most 15 steps exists, and also when one of the ids is absent.  Which
    of several shortest paths is returned is the database's choice. *)
Theorem path_is_shortest :
  (∀ pick g from_id to_id s t,
     graph_wf g → (∀ l, l ≠ [] → pick l ∈ l) →
     match_nodes g from_id = [s] → match_nodes g to_id = [t] →
     from_id ≠ to_id →
     ∃ ns,
       path pick g from_id to_id = Ok (nprops <$> ns)
       ∧ ((ns = [] ∧ ∀ k, (k ≤ 15)%nat → ¬ uwalk g k (nkey s) (nkey t))
          ∨ ∃ k, (1 ≤ k ≤ 15)%nat
                 ∧ length ns = S k
                 ∧ head ns = Some s ∧ last ns = Some t
                 ∧ (∀ n, n ∈ ns → n ∈ gnodes g)
                 ∧ (∀ i a b, ns !! i = Some a → ns !! S i = Some b →
                             uwalk g 1 (nkey a) (nkey b))
                 ∧ uwalk g k (nkey s) (nkey t)
                 ∧ ∀ j, uwalk g j (nkey s) (nkey t) → (k ≤ j)%nat))
  ∧ (∀ pick g from_id to_id,
       match_nodes g from_id = [] ∨ match_nodes g to_id = [] →
       path pick g from_id to_id = Ok []).
Proof.
  split.
  - intros pick g from_id to_id s t Hwf Hpick Hs Ht Hne.
    destruct (match_nodes_distinct_keys g _ _ _ _ Hwf Hs Ht Hne)
      as (Hsin & Htin & Hk).
    pose proof Hwf as (Hnd & _).
    unfold path. rewrite Hs, Ht. simpl.
    rewrite bool_decide_eq_false_2 by done. simpl.
    rewrite app_nil_r. unfold shortest_path. simpl.
    destruct (shortest_candidates g (nkey s) (nkey t)) as [|c cs] eqn:Ec.
    { exists []. split; [done|]. left. split; [done|].
      by apply shortest_candidates_nil. }
    assert (pick (c :: cs) ∈ shortest_candidates g (nkey s) (nkey t)) as Hp
      by (rewrite Ec; by apply Hpick).
    apply (shortest_candidates_elem g Hwf _ _ Hk) in Hp
      as (st & Hpeq & Hc & He & Hl & Hndp & Hmin).
    rewrite Hpeq in *. rewrite (distinct_NoDup _ Hndp).
    set (ns := omap (node_of_key g) (nkey s :: st.*2)).
    assert (nkey <$> ns = nkey s :: st.*2) as Hkeys.
    { apply omap_node_of_key; [done|]. intros k Hin.
      apply elem_of_cons in Hin as [-> | Hin].
      - apply list_elem_of_fmap. eauto.
      - by eapply chain_node_keys. }
    assert (∀ n, n ∈ ns → n ∈ gnodes g) as Hns
      by (intros n; apply elem_of_omap_node_of_key).
    exists ns. split; [done|]. right. exists (length st).
    split_and!; try done; try lia.
    + rewrite <- (length_fmap nkey), Hkeys. simpl. by rewrite length_fmap.
    + destruct ns as [|n0 ns']; [done|]. simpl. f_equal.
      rewrite fmap_cons in Hkeys. injection Hkeys as Hk0 _.
      eapply NoDup_fmap_eq; [done| |done|done]. apply Hns. left.
    + pose proof (last_nodes (nkey s) st) as Hlast.
      rewrite <- Hkeys, fmap_last in Hlast.
      destruct (last ns) as [n|] eqn:El; [|done]. simpl in Hlast.
      f_equal. eapply NoDup_fmap_eq; [done| |done|congruence].
      apply Hns. by apply last_Some_elem_of.
    + intros i a b Ha Hb.
      assert ((nkey s :: st.*2) !! i = Some (nkey a)) as Ha'
        by (rewrite <- Hkeys, list_lookup_fmap, Ha; done).
      assert ((nkey s :: st.*2) !! S i = Some (nkey b)) as Hb'
        by (rewrite <- Hkeys, list_lookup_fmap, Hb; done).
      destruct (chain_adjacent _ _ _ _ _ _ Hc Ha' Hb') as (r & Hr).
      apply uwalk_chain. exists [(r, nkey b)]. done.
    + apply uwalk_chain. eauto.
  - intros pick g from_id to_id H. unfold path.
    destruct H as [-> | H]; [done|].
    rewrite H. induction (match_nodes g from_id); [done|]. simpl.
    done.
Qed.

(** ** Shortest paths: instances *)

Lemma pick_first_elem (l : list (list nat)) : l ≠ [] → pick_first l ∈ l.
Proof. destruct l; [done|]. intros _. left. Qed.

Lemma pick_last_elem (l : list (list nat)) : l ≠ [] → pick_last l ∈ l.
Proof.
  intros Hl. unfold pick_last. destruct (last l) as [p|] eqn:E.
  - by apply last_Some_elem_of.
  - by apply last_None in E.
Qed.

Lemma path_is_shortest_witness :
  graph_wf fixture
  ∧ match_nodes fixture "service:A"
    = [stored_service 0 "A"]
  ∧ match_nodes fixture "service:C"
    = [stored_service 2 "C"]
  ∧ "service:A" ≠ "service:C"
  ∧ ∃ ns,
      path pick_first fixture "service:A" "service:C" = Ok (nprops <$> ns)
      ∧ ((ns = []
          ∧ ∀ k, (k ≤ 15)%nat →
                 ¬ uwalk fixture k (nkey (stored_service 0 "A"))
                     (nkey (stored_service 2 "C")))
         ∨ ∃ k, (1 ≤ k ≤ 15)%nat
                ∧ length ns = S k
                ∧ head ns
                  = Some (stored_service 0 "A")
                ∧ last ns
                  = Some (stored_service 2 "C")
                ∧ (∀ n, n ∈ ns → n ∈ gnodes fixture)
                ∧ (∀ i a b, ns !! i = Some a → ns !! S i = Some b →
                            uwalk fixture 1 (nkey a) (nkey b))
                ∧ uwalk fixture k (nkey (stored_service 0 "A"))
                    (nkey (stored_service 2 "C"))
                ∧ ∀ j, uwalk fixture j (nkey (stored_service 0 "A"))
                         (nkey (stored_service 2 "C")) →
                       (k ≤ j)%nat).
Proof.
  assert (graph_wf fixture) as Hwf
    by (apply (bool_decide_unpack _); vm_compute; reflexivity).
  assert ("service:A" ≠ "service:C") as Hne by discriminate.
  split; [exact Hwf|].
  split; [vm_compute; reflexivity|].
  split; [vm_compute; reflexivity|].
  split; [exact Hne|].
  apply (proj1 path_is_shortest pick_first fixture "service:A" "service:C"
           (stored_service 0 "A") (stored_service 2 "C") Hwf pick_first_elem);
    [vm_compute; reflexivity..|exact Hne].
Defined.

(** C2, counterexample.  Asked for the path from a node to itself, the
    call does not return the one-node sequence: the database refuses the
    query. *)
Lemma path_to_itself :
  match_nodes fixture "service:A"
  = [stored_service 0 "A"]
  ∧ path pick_first fixture "service:A" "service:A"
    = Raise ShortestPathCommonNodes.
Proof. split; vm_compute; reflexivity. Qed.

(** The scenario of the specification: path(A, C) = [A, B, C]. *)
Example path_fixture :
  match path pick_first fixture "service:A" "service:C" with
  | Ok l => record_ids l
  | Raise _ => []
  end = [VStr "service:A"; VStr "service:B"; VStr "service:C"].
Proof. vm_compute. reflexivity. Qed.

(** Two shortest paths join a and d in the diamond; either may come
    back, the one through c included. *)
Example path_diamond_choice :
  match path pick_first diamond "service:a" "service:d" with
  | Ok l => record_ids l
  | Raise _ => []
  end = [VStr "service:a"; VStr "service:b"; VStr "service:d"]
  ∧ match path pick_last diamond "service:a" "service:d" with
    | Ok l => record_ids l
    | Raise _ => []
    end = [VStr "service:a"; VStr "service:c"; VStr "service:d"].
Proof. split; vm_compute; reflexivity. Qed.

(** ** Ownership resolution *)

Lemma prefix_refl s : String.prefix s s = true.
Proof.
  induction s as [|c s IH]; [done|]. simpl.
  destruct (ascii_dec c c); [done|congruence].
Qed.

Lemma contains_unfold sub s :
  contains sub s
  = String.prefix sub s
    || match s with
       | EmptyString => false
       | String _ s' => contains sub s'
       end.
Proof. by destruct s. Qed.

Lemma endswith_unfold s suf :
  endswith s suf
  = String.eqb s suf
    || match s with
       | EmptyString => false
       | String _ s' => endswith s' suf
       end.
Proof. by destruct s. Qed.

Lemma endswith_contains s suf : endswith s suf = true → contains suf s = true.
Proof.
  induction s as [|c s IH]; rewrite endswith_unfold, contains_unfold;
    intros H; apply orb_true_iff in H as [H | H].
  - apply String.eqb_eq in H. subst. by rewrite prefix_refl.
  - done.
  - apply String.eqb_eq in H. subst. by rewrite prefix_refl.
  - rewrite (IH H). by rewrite orb_true_r.
Qed.

Lemma fuzzy_contains target kv :
  TeamsConnector.fuzzy target kv = contains target kv.1.
Proof.
  unfold TeamsConnector.fuzzy.
  destruct (contains target kv.1) eqn:E; [done|]. simpl.
  destruct (endswith kv.1 target) eqn:E'; [|done].
  apply endswith_contains in E'. congruence.
Qed.

Lemma dict_get_set {V} (d : list (string * V)) k v k' :
  dict_get (dict_set d k v) k' =
    if decide (k = k') then Some v else dict_get d k'.
Proof.
  unfold dict_get. induction d as [|[a b] d IH]; simpl.
  - case_bool_decide; case_decide; simplify_eq; done.
  - destruct (decide (a = k)) as [-> | Hne]; simpl.
    + repeat (case_bool_decide || case_decide); simplify_eq; done.
    + case_bool_decide; simplify_eq.
      * rewrite decide_False by done. done.
      * apply IH.
Qed.

Lemma dict_set_keys {V} (d : list (string * V)) k v :
  (dict_set d k v).*1 = if decide (k ∈ d.*1) then d.*1 else d.*1 ++ [k].
Proof.
  induction d as [|[a b] d IH].
  - cbn. case_decide as H; [by apply not_elem_of_nil in H|reflexivity].
  - cbn [dict_set]. destruct (decide (a = k)) as [-> | Hne];
      rewrite !fmap_cons; cbn [fst].
    + rewrite decide_True by left. reflexivity.
    + rewrite IH. destruct (decide (k ∈ d.*1)) as [Hin | Hnin].
      * rewrite decide_True by (by right). reflexivity.
      * rewrite decide_False; [reflexivity|].
        intros H. apply elem_of_cons in H as [-> | H]; done.
Qed.

Lemma elem_of_dict_set {V} (d : list (string * V)) k v kv :
  kv ∈ dict_set d k v → kv ∈ d ∨ kv = (k, v).
Proof.
  induction d as [|[a b] d IH]; simpl.
  - intros H. apply list_elem_of_singleton in H. by right.
  - destruct (decide (a = k)) as [-> | Hne].
    + intros H. apply elem_of_cons in H as [-> | H]; [by right|].
      left. by right.
    + intros H. apply elem_of_cons in H as [-> | H]; [left; by left|].
      destruct (IH H) as [? | ?]; [left; by right | by right].
Qed.

Lemma dict_get_elem {V} (d : list (string * V)) k v :
  dict_get d k = Some v → (k, v) ∈ d.
Proof.
  unfold dict_get. induction d as [|[a b] d IH]; simpl; [done|].
  case_bool_decide; simpl in *.
  - intros [= ->]. subst. left.
  - intros H'. right. by apply IH.
Qed.

Lemma dict_get_None {V} (d : list (string * V)) k :
  dict_get d k = None ↔ k ∉ d.*1.
Proof.
  unfold dict_get. induction d as [|[a b] d IH]; simpl.
  - split; [intros _; apply not_elem_of_nil | done].
  - case_bool_decide; simpl in *.
    + subst. split; [done|]. intros H. exfalso. apply H. left.
    + rewrite IH. rewrite not_elem_of_cons. split; [|tauto].
      intros Hk. split; [|done]. intros ->. done.
Qed.

Lemma distinct_snoc {A} `{EqDecision A} (l : list A) x :
  distinct (l ++ [x]) = if decide (x ∈ l) then distinct l else distinct l ++ [x].
Proof.
  induction l as [|a l IH].
  - cbn. case_decide as H; [by apply not_elem_of_nil in H|reflexivity].
  - cbn [app distinct]. rewrite IH.
    destruct (decide (x ∈ l)) as [Hin | Hnin]; case_decide as H.
    + done.
    + exfalso. apply H. by right.
    + apply elem_of_cons in H as [-> | H]; [|done].
      rewrite filter_app, filter_cons.
      rewrite decide_False by (intros H; by apply H).
      by rewrite filter_nil, app_nil_r.
    + rewrite filter_app, filter_cons. rewrite decide_True; [done|].
      intros ->. apply H. left.
Qed.

Lemma node_map_snoc l n :
  TeamsConnector.node_map (l ++ [n])
  = dict_set (dict_set (TeamsConnector.node_map l) (node_name n) (node_id n))
      (node_id n) (node_id n).
Proof. unfold TeamsConnector.node_map. by rewrite foldl_app. Qed.

(** The keys of the lookup, in iteration order: names and ids in node
    order, each at its first occurrence. *)
Lemma node_map_keys all_nodes :
  (TeamsConnector.node_map all_nodes).*1
  = distinct (all_nodes ≫= λ n, [node_name n; node_id n]).
Proof.
  induction all_nodes as [|n l IH] using rev_ind; [done|].
  rewrite node_map_snoc, bind_app.
  set (L := l ≫= _) in *.
  change ([n] ≫= _) with ([node_name n] ++ [node_id n]).
  rewrite (assoc_L (++)), !distinct_snoc, !dict_set_keys, IH.
  destruct (decide (node_name n ∈ L)) as [H1 | H1].
  - rewrite (decide_True (P := node_name n ∈ distinct L))
      by (by apply elem_of_distinct).
    destruct (decide (node_id n ∈ L)) as [H2 | H2].
    + rewrite (decide_True (P := node_id n ∈ distinct L))
        by (by apply elem_of_distinct).
      rewrite decide_True; [done|]. apply elem_of_app. by left.
    + rewrite (decide_False (P := node_id n ∈ distinct L))
        by (by rewrite elem_of_distinct).
      destruct (decide (node_id n = node_name n)) as [Heq | Hne].
      * congruence.
      * rewrite decide_False; [done|]. rewrite elem_of_app.
        intros [? | Hin]; [done|]. by apply list_elem_of_singleton in Hin.
  - rewrite (decide_False (P := node_name n ∈ distinct L))
      by (by rewrite elem_of_distinct).
    destruct (decide (node_id n ∈ L ++ [node_name n])) as [H2 | H2].
    + rewrite decide_True; [done|].
      rewrite elem_of_app in H2 |- *. rewrite elem_of_distinct. done.
    + rewrite decide_False; [done|].
      rewrite elem_of_app in H2 |- *. rewrite elem_of_distinct. done.
Qed.

(** Every entry of the lookup maps a node's name or id to that node's
    id. *)
Lemma node_map_entry all_nodes k v :
  (k, v) ∈ TeamsConnector.node_map all_nodes →
  ∃ n, n ∈ all_nodes ∧ node_id n = v ∧ (node_name n = k ∨ node_id n = k).
Proof.
  induction all_nodes as [|n l IH] using rev_ind.
  { intros H. by apply not_elem_of_nil in H. }
  rewrite node_map_snoc. intros H.
  apply elem_of_dict_set in H as [H | H].
  - apply elem_of_dict_set in H as [H | H].
    + destruct (IH H) as (n' & Hin & ? & ?). exists n'.
      split; [|done]. apply elem_of_app. by left.
    + simplify_eq. exists n. split; [|tauto]. apply elem_of_app. right. left.
  - simplify_eq. exists n. split; [|tauto]. apply elem_of_app. right. left.
Qed.

Lemma node_map_miss all_nodes k :
  dict_get (TeamsConnector.node_map all_nodes) k = None →
  ∀ n, n ∈ all_nodes → node_name n ≠ k ∧ node_id n ≠ k.
Proof.
  rewrite dict_get_None, node_map_keys, elem_of_distinct. intros Hk n Hn.
  split; intros Heq; apply Hk; apply list_elem_of_bind; exists n;
    (split; [|done]); rewrite <- Heq; [left | right; left].
Qed.

Import TeamsConnector.

(** C1 (as amended). For an [owns] edge, when the literal target is a
    node's name or id, the edge is kept with its id and its target
    rewritten to the id of such a node.  Otherwise the first key of the
    lookup, in its iteration order, that contains the target as a
    substring decides: the edge gets that node's id as target and a new
    id built from the second [:]-separated fields of the source and of the
    node id (the call raises when one of them has no such field).  When
    no key contains the target the edge is left out of the result; no
    diagnostic is produced in any case. *)
Theorem resolve_ownership_first_match all_nodes acc edge :
  edge_type edge = "owns" →
  let nm := node_map all_nodes in
  let t := edge_target edge in
  nm.*1 = distinct (all_nodes ≫= λ n, [node_name n; node_id n])
  ∧ match dict_get nm t with
    | Some nid =>
        resolve_edge nm acc edge
        = Ok (acc ++ [mkEdge (edge_id edge) "owns" (edge_source edge) nid
                        (edge_properties edge)])
        ∧ ∃ n, n ∈ all_nodes ∧ node_id n = nid
               ∧ (node_name n = t ∨ node_id n = t)
    | None =>
        (∀ n, n ∈ all_nodes → node_name n ≠ t ∧ node_id n ≠ t)
        ∧ match find (λ kv, contains t kv.1) nm with
          | None =>
              resolve_edge nm acc edge = Ok acc
              ∧ ∀ n, n ∈ all_nodes →
                     contains t (node_name n) = false
                     ∧ contains t (node_id n) = false
          | Some (k, nid) =>
              contains t k = true
              ∧ (∃ n, n ∈ all_nodes ∧ node_id n = nid
                      ∧ (node_name n = k ∨ node_id n = k))
              ∧ resolve_edge nm acc edge
                = match split_1 ":" (edge_source edge), split_1 ":" nid with
                  | Some s1, Some n1 =>
                      Ok (acc ++
                            [mkEdge ("edge:" +:+ s1 +:+ "-owns-" +:+ n1)
                               "owns" (edge_source edge) nid
                               (edge_properties edge)])
                  | _, _ => Raise IndexError
                  end
          end
    end.
Proof.
  intros Hty nm t. split; [apply node_map_keys|].
  assert (find (fuzzy t) nm = find (λ kv, contains t kv.1) nm) as Hfind.
  { clear. induction nm as [|kv nm IH]; [done|]. simpl.
    rewrite fuzzy_contains, IH. done. }
  unfold resolve_edge. rewrite Hty. simpl. fold t.
  destruct (dict_get nm t) as [nid|] eqn:Eg.
  - split; [done|]. apply dict_get_elem in Eg. by apply node_map_entry.
  - split; [by apply node_map_miss|]. rewrite Hfind.
    destruct (find (λ kv, contains t kv.1) nm) as [[k nid]|] eqn:Ef.
    + apply find_some in Ef as [Hin Hc]. simpl in Hc.
      split; [done|]. split.
      * apply node_map_entry. by apply list_elem_of_In.
      * by destruct (split_1 ":" (edge_source edge)), (split_1 ":" nid).
    + split; [done|]. intros n Hn.
      assert (∀ k, k ∈ nm.*1 → contains t k = false) as Hall.
      { intros k Hk. apply list_elem_of_fmap in Hk as (kv & -> & Hkv).
        apply list_elem_of_In in Hkv.
        by apply (find_none _ _ Ef) in Hkv. }
      split; apply Hall; unfold nm; rewrite node_map_keys, elem_of_distinct;
        apply list_elem_of_bind; exists n; (split; [|done]);
        [left | right; left].
Qed.

Lemma resolve_ownership_first_match_witness :
  edge_type raw_api_edge = "owns"
  ∧ dict_get (node_map api_nodes) (edge_target raw_api_edge) = None
  ∧ find (λ kv, contains (edge_target raw_api_edge) kv.1)
      (node_map api_nodes)
    = Some ("zeta-api", "service:zeta-api")
  ∧ resolve_edge (node_map api_nodes) [] raw_api_edge
    = Ok [mkEdge "edge:platform-owns-zeta-api" "owns" "team:platform"
            "service:zeta-api" ∅].
Proof.
  assert (edge_type raw_api_edge = "owns") as Hty by reflexivity.
  pose proof (resolve_ownership_first_match api_nodes [] raw_api_edge Hty)
    as [_ H].
  assert (dict_get (node_map api_nodes) (edge_target raw_api_edge) = None)
    as Hg by (vm_compute; reflexivity).
  assert (find (λ kv, contains (edge_target raw_api_edge) kv.1)
            (node_map api_nodes)
          = Some ("zeta-api", "service:zeta-api")) as Hf
    by (vm_compute; reflexivity).
  cbv zeta in H. rewrite Hg, Hf in H. destruct H as (_ & _ & _ & H).
  split; [exact Hty|]. split; [exact Hg|]. split; [exact Hf|].
  rewrite H. vm_compute. reflexivity.
Defined.

(** C1, counterexample.  Two nodes contain the target [api]; the one
    listed first is chosen, not the one with the smaller id; and a target
    that no key contains makes the edge disappear from the result without
    any diagnostic. *)
Lemma resolve_ownership_picks_first_listed :
  resolve_ownership_targets [raw_api_edge] api_nodes
  = Ok [mkEdge "edge:platform-owns-zeta-api" "owns" "team:platform"
          "service:zeta-api" ∅]
  ∧ contains "api" "alpha-api" = true
  ∧ String.ltb "service:alpha-api" "service:zeta-api" = true
  ∧ resolve_ownership_targets [owns_edge "platform" "billing" "billing"]
      api_nodes
    = Ok [].
Proof. split_and!; vm_compute; reflexivity. Qed.

(** ** Dependency edges of the connectors *)

Lemma foldl_invariant {A B} (P : A → Prop) (f : A → B → A) l a :
  P a → (∀ a b, P a → P (f a b)) → P (foldl f a l).
Proof.
  intros Ha Hf. revert a Ha. induction l as [|b l IH]; intros a Ha; [done|].
  simpl. apply IH. by apply Hf.
Qed.

Lemma add_edge_invariant (P : Edge → Prop) edges x :
  (∀ e, e ∈ edges → P e) → P x →
  ∀ e, e ∈ BaseConnector._add_edge edges x → P e.
Proof.
  intros Hall Hx e He. apply elem_of_add_edge in He as [He | ->]; auto.
Qed.

Lemma compose_edges_typed services e :
  e ∈ DockerComposeConnector.parse_edges services →
  ∃ dep,
    let target_type :=
      DockerComposeConnector._infer_node_type dep
        (DockerComposeConnector.service_get services dep) in
    edge_type e = DockerComposeConnector._infer_edge_type target_type
    ∧ edge_target e = target_type +:+ ":" +:+ dep.
Proof.
  unfold DockerComposeConnector.parse_edges. revert e.
  apply (foldl_invariant (λ edges, ∀ e, e ∈ edges → _)).
  { intros e He. by apply not_elem_of_nil in He. }
  intros edges [name config] Hedges.
  unfold DockerComposeConnector.service_edges. simpl.
  apply (foldl_invariant (λ edges, ∀ e, e ∈ edges → _)).
  - apply (foldl_invariant (λ edges, ∀ e, e ∈ edges → _)); [done|].
    intros acc dep Hacc. unfold DockerComposeConnector.depends_on_edge.
    apply add_edge_invariant; [done|]. by exists dep.
  - intros acc [k v] Hacc. unfold DockerComposeConnector.env_edge. simpl.
    destruct (_ && _); [|done].
    destruct (DockerComposeConnector._extract_service_from_url v)
      as [target_name|]; [|done].
    destruct (_ && _); [|done].
    destruct (negb _); [|done].
    apply add_edge_invariant; [done|]. by exists target_name.
Qed.

Lemma k8s_edges_calls documents e :
  e ∈ (KubernetesConnector.parse documents).2 →
  edge_type e = "calls"
  ∧ ∃ target_name, edge_target e = "service:" +:+ target_name.
Proof.
  destruct documents as [docs|]; simpl;
    [|intros He; by apply not_elem_of_nil in He].
  revert e.
  apply (foldl_invariant (λ st : list Node * list Edge, ∀ e, e ∈ st.2 → _)).
  { simpl. intros e He. by apply not_elem_of_nil in He. }
  intros st [d|s|] Hst; [| |done].
  - unfold KubernetesConnector._parse_deployment.
    destruct (d_name d) as [name|]; [|done].
    destruct (String.eqb name ""); [done|]. simpl.
    apply (foldl_invariant (λ edges, ∀ e, e ∈ edges → _)); [done|].
    intros acc [k v] Hacc. unfold KubernetesConnector.env_edge. simpl.
    destruct (_ && _); [|done].
    destruct (KubernetesConnector._extract_service_from_k8s_url v)
      as [target_name|]; [|done].
    destruct (_ && _); [|done].
    apply add_edge_invariant; [done|]. split; [done|]. by exists target_name.
  - unfold KubernetesConnector._parse_service.
    destruct (s_name s) as [name|]; [|done].
    by destruct (String.eqb name "").
Qed.

Lemma infer_edge_type_calls target_type :
  target_type ≠ "database" → target_type ≠ "cache" →
  DockerComposeConnector._infer_edge_type target_type = "calls".
Proof.
  intros Hd Hc. unfold DockerComposeConnector._infer_edge_type.
  destruct (String.eqb_spec target_type "database"); [done|].
  by destruct (String.eqb_spec target_type "cache").
Qed.

(** C9 (as amended). Every dependency edge the compose connector
    synthesizes, from a [depends_on] entry or from a [_URL] environment
    value naming a service of the same file, takes its type from the
    inferred type of its target: [reads_from] for a database, [uses] for a
    cache, [calls] otherwise.  The cluster-manifest connector infers no
    types: each of its edges is a [calls] edge to [service:<host>]. *)
Theorem dependency_edge_types :
  (∀ services e,
     e ∈ DockerComposeConnector.parse_edges services →
     ∃ dep,
       let target_type :=
         DockerComposeConnector._infer_node_type dep
           (DockerComposeConnector.service_get services dep) in
       edge_type e = DockerComposeConnector._infer_edge_type target_type
       ∧ edge_target e = target_type +:+ ":" +:+ dep)
  ∧ DockerComposeConnector._infer_edge_type "database" = "reads_from"
  ∧ DockerComposeConnector._infer_edge_type "cache" = "uses"
  ∧ (∀ target_type,
       target_type ≠ "database" → target_type ≠ "cache" →
       DockerComposeConnector._infer_edge_type target_type = "calls")
  ∧ (∀ documents e,
       e ∈ (KubernetesConnector.parse documents).2 →
       edge_type e = "calls"
       ∧ ∃ target_name, edge_target e = "service:" +:+ target_name).
Proof.
  split_and!; [|done|done| |].
  - apply compose_edges_typed.
  - apply infer_edge_type_calls.
  - apply k8s_edges_calls.
Qed.

Lemma dependency_edge_types_witness :
  let e :=
    mkEdge "edge:order-service-reads_from-orders-db" "reads_from"
      "service:order-service" "database:orders-db" ∅ in
  e ∈ DockerComposeConnector.parse_edges order_compose
  ∧ ∃ dep,
      let target_type :=
        DockerComposeConnector._infer_node_type dep
          (DockerComposeConnector.service_get order_compose dep) in
      edge_type e = DockerComposeConnector._infer_edge_type target_type
      ∧ edge_target e = target_type +:+ ":" +:+ dep.
Proof.
  simpl.
  assert (mkEdge "edge:order-service-reads_from-orders-db" "reads_from"
            "service:order-service" "database:orders-db" ∅
          ∈ DockerComposeConnector.parse_edges order_compose) as Hin
    by (vm_compute; left).
  split; [exact Hin|].
  exact (proj1 dependency_edge_types order_compose _ Hin).
Defined.

(** C9, counterexample.  The container of the Deployment reaches
    [orders-db], a database by the type heuristics (and typed so by the
    compose connector, which emits a [reads_from] edge for the same
    connection string); the cluster-manifest connector emits a [calls]
    edge to [service:orders-db]. *)
Lemma k8s_edge_to_database_is_calls :
  (KubernetesConnector.parse (Some [DocDeployment order_deployment])).2
  = [mkEdge "edge:order-service-calls-orders-db" "calls"
       "service:order-service" "service:orders-db"
       {["via" := VStr "k8s_env"]}]
  ∧ DockerComposeConnector._infer_node_type "orders-db" empty_config
    = "database"
  ∧ DockerComposeConnector.parse_edges order_compose
    = [mkEdge "edge:order-service-reads_from-orders-db" "reads_from"
         "service:order-service" "database:orders-db" ∅].
Proof. split_and!; vm_compute; reflexivity. Qed.

(** * Further properties of the store *)

Lemma bulk_upsert_nodes_wf g nodes :
  graph_wf g → graph_wf (bulk_upsert_nodes g nodes).
Proof.
  unfold bulk_upsert_nodes. revert g.
  induction nodes as [|n nodes IH]; intros g Hwf; [done|].
  simpl. by apply IH, upsert_node_wf.
Qed.

Lemma bulk_upsert_edges_wf g edges :
  graph_wf g → graph_wf (bulk_upsert_edges g edges).
Proof.
  unfold bulk_upsert_edges. revert g.
  induction edges as [|e edges IH]; intros g Hwf; [done|].
  simpl. by apply IH, upsert_edge_wf.
Qed.

Lemma load_stage_wf g out : graph_wf g → graph_wf (load_stage g out).
Proof.
  intros Hwf. unfold load_stage.
  by apply bulk_upsert_edges_wf, bulk_upsert_nodes_wf.
Qed.

Lemma clear_all_wf g : graph_wf (clear_all g).
Proof. unfold clear_all. repeat split; simpl; constructor. Qed.

Lemma delete_node_wf g node_id : graph_wf g → graph_wf (delete_node g node_id).1.
Proof.
  intros (Hn & Hr & Fn & Fr & Fe). unfold delete_node. simpl.
  repeat split; simpl.
  - apply NoDup_fmap_2_strong; [|by apply NoDup_filter, (NoDup_fmap_1 nkey)].
    intros x y Hx Hy Hxy. apply list_elem_of_filter in Hx as [_ Hx].
    apply list_elem_of_filter in Hy as [_ Hy].
    by apply (NoDup_fmap_eq nkey (gnodes g)).
  - apply NoDup_fmap_2_strong; [|by apply NoDup_filter, (NoDup_fmap_1 rkey)].
    intros x y Hx Hy Hxy. apply list_elem_of_filter in Hx as [_ Hx].
    apply list_elem_of_filter in Hy as [_ Hy].
    by apply (NoDup_fmap_eq rkey (grels g)).
  - apply Forall_forall. intros n Hin. apply list_elem_of_filter in Hin as [_ Hin].
    rewrite Forall_forall in Fn. by apply Fn.
  - apply Forall_forall. intros r Hin. apply list_elem_of_filter in Hin as [_ Hin].
    rewrite Forall_forall in Fr. by apply Fr.
  - apply Forall_forall. intros r Hin.
    apply list_elem_of_filter in Hin as [[Hs Hd] Hin].
    rewrite Forall_forall in Fe. destruct (Fe r Hin) as [Hsk Hdk].
    assert (∀ k, k ∈ nkey <$> gnodes g →
                 k ∉ nkey <$> match_nodes g node_id →
                 k ∈ nkey <$> filter (λ n, has_id node_id (nprops n) = false)
                                (gnodes g)) as Hkeep.
    { intros k Hk Hgone. apply list_elem_of_fmap in Hk as (n & -> & Hnin).
      apply list_elem_of_fmap. exists n. split; [done|].
      apply list_elem_of_filter. split; [|done].
      destruct (has_id node_id (nprops n)) eqn:E; [|done].
      exfalso. apply Hgone. apply list_elem_of_fmap. exists n.
      split; [done|]. by apply elem_of_match_nodes. }
    split; by apply Hkeep.
Qed.

(** X1. Every writing operation of the store keeps it well formed: node
    and relationship identities stay unique and every relationship joins
    two stored nodes, after [upsert_node], [upsert_edge], [delete_node],
    [clear_all] and a whole [load_graph]. *)
Theorem store_writes_keep_wf g :
  graph_wf g →
  (∀ node, graph_wf (upsert_node g node))
  ∧ (∀ edge, graph_wf (upsert_edge g edge))
  ∧ (∀ node_id, graph_wf (delete_node g node_id).1)
  ∧ graph_wf (clear_all g)
  ∧ (∀ docker_out teams_data k8s_data,
       graph_wf (load_graph g docker_out teams_data k8s_data)).
Proof.
  intros Hwf. split_and!.
  - intros node. by apply upsert_node_wf.
  - intros edge. by apply upsert_edge_wf.
  - intros node_id. by apply delete_node_wf.
  - apply clear_all_wf.
  - intros docker_out teams_data k8s_data. unfold load_graph.
    destruct k8s_data; repeat apply load_stage_wf; apply clear_all_wf.
Qed.

Lemma store_writes_keep_wf_witness :
  graph_wf fixture
  ∧ graph_wf (delete_node fixture "service:B").1
  ∧ graph_wf (upsert_edge fixture (calls_edge "C" "A")).
Proof.
  assert (graph_wf fixture) as Hwf
    by (apply (bool_decide_unpack _); vm_compute; reflexivity).
  pose proof (store_writes_keep_wf fixture Hwf) as (_ & He & Hd & _).
  split; [exact Hwf|]. split; [apply Hd | apply He].
Defined.

Lemma match_nodes_merge_node g idv :
  match_nodes (merge_node g idv) idv
  = match match_nodes g idv with
    | [] => [GNode (gfresh g) {["id" := VStr idv]}]
    | l => l
    end.
Proof.
  unfold merge_node. destruct (match_nodes g idv) as [|n l] eqn:E; [|done].
  unfold match_nodes in *. simpl. rewrite filter_app, E. simpl.
  rewrite filter_cons. simpl. rewrite decide_True; [done|].
  by apply has_id_spec.
Qed.

(** X2. Reading back what was written: after [upsert_node], [get_node]
    on the node's id returns the stored properties merged with the
    incoming ones (a fresh node starting from its id alone), provided the
    incoming properties leave the [id] property alone. *)
Theorem get_node_after_upsert_node g node :
  id_stable node →
  get_node (upsert_node g node) (node_id node)
  = Some (set_node node
            (default {["id" := VStr (node_id node)]}
               (get_node g (node_id node)))).
Proof.
  intros Hst. unfold get_node, GraphStorage.get_node.
  rewrite upsert_node_unfold. simpl.
  rewrite match_nodes_fmap_step by done.
  rewrite match_nodes_merge_node.
  assert (∀ n, n ∈ match_nodes g (node_id node) →
               upsert_step node n = GNode (nkey n) (set_node node (nprops n)))
    as Hstep.
  { intros n Hn. apply elem_of_match_nodes in Hn as [_ Hid].
    unfold upsert_step. by rewrite Hid. }
  destruct (match_nodes g (node_id node)) as [|n l] eqn:E; simpl.
  - unfold upsert_step. simpl.
    rewrite (proj2 (has_id_spec _ _)) by done. done.
  - rewrite Hstep by left. done.
Qed.

Lemma get_node_after_upsert_node_witness :
  id_stable (mkNode "service:A" "service" "A" {["port" := VInt 8080]})
  ∧ get_node
      (upsert_node fixture
         (mkNode "service:A" "service" "A" {["port" := VInt 8080]}))
      "service:A"
    = Some (<["port" := VInt 8080]> (nprops (stored_service 0 "A"))).
Proof.
  assert (id_stable (mkNode "service:A" "service" "A" {["port" := VInt 8080]}))
    as Hst by (left; reflexivity).
  split; [exact Hst|].
  etransitivity; [exact (get_node_after_upsert_node fixture _ Hst)|].
  vm_compute. reflexivity.
Defined.

Lemma has_id_other_upsert_step node n j :
  id_stable node → j ≠ node_id node →
  has_id j (nprops n) = true → upsert_step node n = n.
Proof.
  intros Hst Hj Hid. unfold upsert_step.
  destruct (has_id (node_id node) (nprops n)) eqn:E; [|done].
  apply has_id_spec in Hid, E. congruence.
Qed.

Lemma has_id_other_upsert_step_inv node n j :
  id_stable node → j ≠ node_id node →
  has_id j (nprops (upsert_step node n)) = true → has_id j (nprops n) = true.
Proof.
  intros Hst Hj. unfold upsert_step.
  destruct (has_id (node_id node) (nprops n)) eqn:E; [|done]. simpl.
  rewrite !has_id_spec, lookup_set_node. apply has_id_spec in E.
  destruct Hst as [-> | ->]; [|congruence].
  repeat case_decide; first [done | congruence].
Qed.

Lemma match_nodes_upsert_other g node j :
  id_stable node → j ≠ node_id node →
  match_nodes (upsert_node g node) j = match_nodes g j.
Proof.
  intros Hst Hj. rewrite upsert_node_unfold. unfold match_nodes. simpl.
  assert (∀ l : list gnode,
            filter (λ n, has_id j (nprops n) = true) (upsert_step node <$> l)
               = filter (λ n, has_id j (nprops n) = true) l) as Hfilter.
  { induction l as [|n l IH]; [done|].
    rewrite fmap_cons, !filter_cons, IH.
    destruct (decide (has_id j (nprops n) = true)) as [Hid | Hid].
    - rewrite (has_id_other_upsert_step node n j) by done.
      by rewrite decide_True.
    - rewrite decide_False; [done|]. intros H. apply Hid.
      by eapply has_id_other_upsert_step_inv. }
  rewrite Hfilter. unfold merge_node.
  destruct (match_nodes g (node_id node)); [|done]. simpl.
  rewrite filter_app, filter_cons. simpl. rewrite decide_False.
  - by rewrite filter_nil, app_nil_r.
  - rewrite has_id_spec, lookup_singleton_eq. congruence.
Qed.

Lemma upsert_node_grels g node : grels (upsert_node g node) = grels g.
Proof.
  rewrite upsert_node_unfold. simpl. unfold merge_node.
  by destruct (match_nodes g (node_id node)).
Qed.

Lemma prop_id_upsert_step node n :
  id_stable node →
  prop "id" (nprops (upsert_step node n)) = prop "id" (nprops n).
Proof.
  intros Hst. unfold upsert_step.
  destruct (has_id (node_id node) (nprops n)) eqn:E; [|done]. simpl.
  pose proof (has_id_set_node node _ Hst E) as E'.
  apply has_id_spec in E, E'. unfold prop. by rewrite E, E'.
Qed.

Lemma find_key_fmap (f : gnode → gnode) (l : list gnode) k :
  (∀ n, nkey (f n) = nkey n) →
  find (λ n, bool_decide (nkey n = k)) (f <$> l)
  = f <$> find (λ n, bool_decide (nkey n = k)) l.
Proof.
  intros Hf. induction l as [|n l IH]; [done|].
  rewrite fmap_cons. simpl. rewrite Hf.
  by destruct (bool_decide (nkey n = k)).
Qed.

Lemma find_key_app (l l' : list gnode) k :
  k ∈ nkey <$> l →
  find (λ n, bool_decide (nkey n = k)) (l ++ l')
  = find (λ n, bool_decide (nkey n = k)) l.
Proof.
  induction l as [|n l IH]; intros Hk.
  { by apply not_elem_of_nil in Hk. }
  simpl. case_bool_decide as Hn; [done|].
  apply IH. rewrite fmap_cons in Hk.
  apply elem_of_cons in Hk as [-> | Hk]; done.
Qed.

Lemma node_of_key_upsert_node g node k :
  k ∈ nkey <$> gnodes g →
  node_of_key (upsert_node g node) k = upsert_step node <$> node_of_key g k.
Proof.
  intros Hk. unfold node_of_key. rewrite upsert_node_unfold. simpl.
  rewrite find_key_fmap by apply nkey_upsert_step. f_equal.
  unfold merge_node. destruct (match_nodes g (node_id node)); [|done].
  simpl. by apply find_key_app.
Qed.

Lemma get_all_edges_upsert_node g node :
  graph_wf g → id_stable node →
  get_all_edges (upsert_node g node) = get_all_edges g.
Proof.
  intros (_ & _ & _ & _ & Fe) Hst. unfold get_all_edges.
  rewrite upsert_node_grels. apply Forall_bind_ext, Forall_forall.
  intros r Hr. rewrite Forall_forall in Fe. destruct (Fe r) as [Hs Hd].
  { done. }
  rewrite !node_of_key_upsert_node by done.
  destruct (node_of_key g (rsrc r)) as [s|]; [|done].
  destruct (node_of_key g (rdst r)) as [t|]; [|done]. simpl.
  by rewrite !prop_id_upsert_step.
Qed.

(** X3. [upsert_node] touches nothing else: the node found under any
    other id is the same before and after, no relationship is added,
    removed or changed, and [get_all_edges] lists the same edges (the
    store being well formed and the incoming properties leaving the [id]
    property alone). *)
Theorem upsert_node_frames_the_rest g node j :
  graph_wf g → id_stable node → j ≠ node_id node →
  get_node (upsert_node g node) j = get_node g j
  ∧ grels (upsert_node g node) = grels g
  ∧ get_all_edges (upsert_node g node) = get_all_edges g.
Proof.
  intros Hwf Hst Hj. unfold get_node, GraphStorage.get_node.
  rewrite match_nodes_upsert_other by done. split_and!; [done|..].
  - apply upsert_node_grels.
  - by apply get_all_edges_upsert_node.
Qed.

Lemma upsert_node_frames_the_rest_witness :
  graph_wf fixture
  ∧ id_stable (mkNode "service:A" "database" "A" {["port" := VInt 8080]})
  ∧ "service:B" ≠ "service:A"
  ∧ get_node
      (upsert_node fixture
         (mkNode "service:A" "database" "A" {["port" := VInt 8080]}))
      "service:B"
    = get_node fixture "service:B".
Proof.
  assert (graph_wf fixture) as Hwf
    by (apply (bool_decide_unpack _); vm_compute; reflexivity).
  assert (id_stable (mkNode "service:A" "database" "A"
                       {["port" := VInt 8080]})) as Hst
    by (left; reflexivity).
  assert ("service:B" ≠ "service:A") as Hne by discriminate.
  split; [exact Hwf|]. split; [exact Hst|]. split; [exact Hne|].
  exact (proj1 (upsert_node_frames_the_rest fixture _ "service:B"
                  Hwf Hst Hne)).
Defined.

(** X4. Writing the same node twice is the same as writing it once,
    whatever the store holds, provided the incoming properties leave the
    [id] property alone. *)
Theorem upsert_node_twice_is_once g node :
  id_stable node →
  upsert_node (upsert_node g node) node = upsert_node g node
  ∧ bulk_upsert_nodes g [node; node] = bulk_upsert_nodes g [node].
Proof.
  intros Hst. split; [by apply upsert_node_idemp|].
  unfold bulk_upsert_nodes. simpl. by apply upsert_node_idemp.
Qed.

Lemma upsert_node_twice_is_once_witness :
  id_stable (team_node "T")
  ∧ upsert_node (upsert_node fixture (team_node "T")) (team_node "T")
    = upsert_node fixture (team_node "T").
Proof.
  assert (id_stable (team_node "T")) as Hst by (left; reflexivity).
  split; [exact Hst|].
  exact (proj1 (upsert_node_twice_is_once fixture _ Hst)).
Defined.

(** ** Deleting nodes *)

Lemma match_nodes_delete_other g node_id j :
  j ≠ node_id →
  match_nodes (delete_node g node_id).1 j = match_nodes g j.
Proof.
  intros Hj. unfold delete_node, match_nodes. simpl.
  induction (gnodes g) as [|n l IH]; [done|].
  rewrite !filter_cons.
  destruct (decide (has_id node_id (nprops n) = false)) as [Hn | Hn].
  - rewrite filter_cons. case_decide; by rewrite IH.
  - rewrite IH. rewrite decide_False; [done|].
    rewrite has_id_spec. apply not_false_is_true in Hn.
    apply has_id_spec in Hn. congruence.
Qed.

Lemma match_nodes_delete g node_id :
  match_nodes (delete_node g node_id).1 node_id = [].
Proof.
  apply match_nodes_nil. intros n Hn. unfold delete_node in Hn. simpl in Hn.
  by apply list_elem_of_filter in Hn as [? _].
Qed.

Lemma node_of_key_delete g node_id k n :
  node_of_key (delete_node g node_id).1 k = Some n →
  n ∈ gnodes g ∧ nkey n = k ∧ has_id node_id (nprops n) = false.
Proof.
  intros H. apply node_of_key_Some in H as [Hin Hk].
  unfold delete_node in Hin. simpl in Hin.
  apply list_elem_of_filter in Hin as [? ?]. done.
Qed.

(** X5. [delete_node] answers whether a node carried the id; afterwards
    the id is gone, every other id is found as before, and no listed edge
    starts or ends at the deleted id; on a well-formed store the edges
    that remain are edges that were there. *)
Theorem delete_node_removes_node_and_edges g node_id :
  ((delete_node g node_id).2 = true ↔ is_Some (get_node g node_id))
  ∧ get_node (delete_node g node_id).1 node_id = None
  ∧ (∀ j, j ≠ node_id →
          get_node (delete_node g node_id).1 j = get_node g j)
  ∧ (∀ row, row ∈ get_all_edges (delete_node g node_id).1 →
            ed_source row ≠ VStr node_id ∧ ed_target row ≠ VStr node_id)
  ∧ (graph_wf g →
     ∀ row, row ∈ get_all_edges (delete_node g node_id).1 →
            row ∈ get_all_edges g).
Proof.
  split_and!.
  - unfold delete_node, get_node, GraphStorage.get_node. simpl.
    rewrite bool_decide_eq_true.
    destruct (match_nodes g node_id); simpl.
    + split; [lia|]. by intros [? ?].
    + split; [eauto|]. lia.
  - unfold get_node, GraphStorage.get_node. by rewrite match_nodes_delete.
  - intros j Hj. unfold get_node, GraphStorage.get_node.
    by rewrite match_nodes_delete_other.
  - intros row Hrow. unfold get_all_edges in Hrow.
    apply list_elem_of_bind in Hrow as (r & Hrow & _).
    destruct (node_of_key _ (rsrc r)) as [s|] eqn:Es;
      [|by apply not_elem_of_nil in Hrow].
    destruct (node_of_key _ (rdst r)) as [t|] eqn:Et;
      [|by apply not_elem_of_nil in Hrow].
    apply list_elem_of_singleton in Hrow. subst row. simpl.
    apply node_of_key_delete in Es as (_ & _ & Hs).
    apply node_of_key_delete in Et as (_ & _ & Ht).
    unfold prop. split; intros Heq.
    + assert (has_id node_id (nprops s) = true); [|congruence].
      apply has_id_spec.
      destruct (nprops s !! "id") as [v|]; simpl in Heq; [by subst | done].
    + assert (has_id node_id (nprops t) = true); [|congruence].
      apply has_id_spec.
      destruct (nprops t !! "id") as [v|]; simpl in Heq; [by subst | done].
  - intros (Hnd & _) row Hrow. unfold get_all_edges in *.
    apply list_elem_of_bind in Hrow as (r & Hrow & Hr).
    apply list_elem_of_bind. exists r. split.
    + destruct (node_of_key _ (rsrc r)) as [s|] eqn:Es;
        [|by apply not_elem_of_nil in Hrow].
      destruct (node_of_key _ (rdst r)) as [t|] eqn:Et;
        [|by apply not_elem_of_nil in Hrow].
      apply node_of_key_delete in Es as (Hs & <- & _).
      apply node_of_key_delete in Et as (Ht & <- & _).
      by rewrite !node_of_key_elem.
    + unfold delete_node in Hr. simpl in Hr.
      by apply list_elem_of_filter in Hr as [_ ?].
Qed.

Lemma delete_node_removes_node_and_edges_witness :
  graph_wf fixture
  ∧ (delete_node fixture "service:B").2 = true
  ∧ get_node (delete_node fixture "service:B").1 "service:B" = None
  ∧ ∀ row, row ∈ get_all_edges (delete_node fixture "service:B").1 →
           row ∈ get_all_edges fixture.
Proof.
  assert (graph_wf fixture) as Hwf
    by (apply (bool_decide_unpack _); vm_compute; reflexivity).
  pose proof (delete_node_removes_node_and_edges fixture "service:B")
    as (_ & Hget & _ & _ & Hsub).
  split; [exact Hwf|]. split; [vm_compute; reflexivity|].
  split; [exact Hget | exact (Hsub Hwf)].
Defined.

(** ** Writing edges *)

Lemma upsert_edge_unfold g edge :
  upsert_edge g edge
  = let rows := edge_rows g edge in
    let g1 := foldl (merge_rel (edge_id edge)) g rows in
    Graph (gnodes g1) (upsert_rel_step edge rows <$> grels g1) (gfresh g1).
Proof. done. Qed.

Lemma set_rel_idemp edge m : set_rel edge (set_rel edge m) = set_rel edge m.
Proof.
  apply map_eq. intros k. rewrite !lookup_set_rel.
  destruct (edge_properties edge !! k) as [[]|]; try done.
  by case_decide.
Qed.

Lemma has_id_set_rel edge m :
  edge_id_stable edge → has_id (edge_id edge) m = true →
  has_id (edge_id edge) (set_rel edge m) = true.
Proof.
  intros Hst. rewrite !has_id_spec. intros Hm. rewrite lookup_set_rel.
  destruct Hst as [-> | ->]; [|done]. by case_decide.
Qed.

Lemma rel_matches_has_id s t idv r :
  rel_matches s t idv r = true → has_id idv (rprops r) = true.
Proof. unfold rel_matches. intros H. by apply andb_true_iff in H as [_ ?]. Qed.

Lemma rel_matches_step edge rows s t r :
  edge_id_stable edge →
  rel_matches s t (edge_id edge) (upsert_rel_step edge rows r)
  = rel_matches s t (edge_id edge) r.
Proof.
  intros Hst. unfold upsert_rel_step.
  destruct (existsb _ rows) eqn:E; [|done].
  apply existsb_exists in E as (row & _ & Hrow).
  apply rel_matches_has_id in Hrow.
  unfold rel_matches. simpl. by rewrite has_id_set_rel, Hrow.
Qed.

Lemma existsb_fmap {A B} (p : B → bool) (f : A → B) l :
  existsb p (f <$> l) = existsb (p ∘ f) l.
Proof. induction l as [|a l IH]; [done|]. csimpl. by rewrite IH. Qed.

Lemma existsb_matches_step edge rows s t l :
  edge_id_stable edge →
  existsb (rel_matches s t (edge_id edge)) (upsert_rel_step edge rows <$> l)
  = existsb (rel_matches s t (edge_id edge)) l.
Proof.
  intros Hst. rewrite existsb_fmap. induction l as [|r l IH]; [done|].
  simpl. by rewrite rel_matches_step, IH.
Qed.

Lemma existsb_rows_step edge rows rows0 r :
  edge_id_stable edge →
  existsb (λ row, rel_matches row.1 row.2 (edge_id edge)
                    (upsert_rel_step edge rows r)) rows0
  = existsb (λ row, rel_matches row.1 row.2 (edge_id edge) r) rows0.
Proof.
  intros Hst. induction rows0 as [|row rows0 IH]; [done|]. simpl.
  by rewrite rel_matches_step, IH.
Qed.

Lemma upsert_rel_step_idemp edge rows r :
  edge_id_stable edge →
  upsert_rel_step edge rows (upsert_rel_step edge rows r)
  = upsert_rel_step edge rows r.
Proof.
  intros Hst. unfold upsert_rel_step at 1.
  rewrite existsb_rows_step by done.
  unfold upsert_rel_step.
  destruct (existsb _ rows) eqn:E; [|done]. simpl.
  by rewrite set_rel_idemp.
Qed.

Lemma merge_rel_grels idv g row :
  ∃ new, grels (merge_rel idv g row) = grels g ++ new.
Proof.
  unfold merge_rel. destruct (existsb _ _).
  - exists []. by rewrite app_nil_r.
  - by eexists.
Qed.

Lemma merge_rel_matched idv g row :
  existsb (rel_matches row.1 row.2 idv) (grels (merge_rel idv g row)) = true.
Proof.
  unfold merge_rel. destruct (existsb _ (grels g)) eqn:E; [done|]. simpl.
  rewrite existsb_app. simpl. unfold rel_matches at 2. simpl.
  rewrite !bool_decide_eq_true_2 by done. simpl.
  rewrite (proj2 (has_id_spec _ _)) by done. by rewrite !orb_true_r.
Qed.

Lemma foldl_merge_rel_keeps idv rows g p :
  existsb p (grels g) = true →
  existsb p (grels (foldl (merge_rel idv) g rows)) = true.
Proof.
  revert g. induction rows as [|row rows IH]; intros g Hg; [done|].
  simpl. apply IH. destruct (merge_rel_grels idv g row) as [new ->].
  rewrite existsb_app, Hg. done.
Qed.

Lemma foldl_merge_rel_matched idv rows g row :
  row ∈ rows →
  existsb (rel_matches row.1 row.2 idv)
    (grels (foldl (merge_rel idv) g rows)) = true.
Proof.
  revert g. induction rows as [|row' rows IH]; intros g Hin.
  { by apply not_elem_of_nil in Hin. }
  simpl. apply elem_of_cons in Hin as [-> | Hin]; [|by apply IH].
  apply foldl_merge_rel_keeps, merge_rel_matched.
Qed.

Lemma foldl_merge_rel_present idv rows g :
  (∀ row, row ∈ rows →
          existsb (rel_matches row.1 row.2 idv) (grels g) = true) →
  foldl (merge_rel idv) g rows = g.
Proof.
  induction rows as [|row rows IH]; intros H; [done|]. simpl.
  assert (merge_rel idv g row = g) as ->.
  { unfold merge_rel. by rewrite H by left. }
  apply IH. intros row' Hrow'. apply H. by right.
Qed.

Lemma edge_rows_gnodes g g' edge :
  gnodes g = gnodes g' → edge_rows g edge = edge_rows g' edge.
Proof.
  intros H. unfold edge_rows.
  by rewrite !(match_nodes_gnodes g g') by done.
Qed.

(** X6. Writing the same edge twice leaves the store exactly as writing it
    once, whatever the store held before, provided the incoming properties
    leave the [id] property alone: no second relationship appears. *)
Theorem upsert_edge_twice_is_once g edge :
  edge_id_stable edge →
  upsert_edge (upsert_edge g edge) edge = upsert_edge g edge
  ∧ bulk_upsert_edges g [edge; edge] = bulk_upsert_edges g [edge].
Proof.
  intros Hst.
  assert (upsert_edge (upsert_edge g edge) edge = upsert_edge g edge) as H.
  { rewrite (upsert_edge_unfold (upsert_edge g edge)).
    rewrite (edge_rows_gnodes _ g) by apply upsert_edge_gnodes.
    cbv zeta. rewrite foldl_merge_rel_present.
    - rewrite (upsert_edge_unfold g). cbv zeta. simpl. f_equal.
      rewrite <- list_fmap_compose. apply list_fmap_ext.
      intros i r _. simpl. by apply upsert_rel_step_idemp.
    - intros row Hrow. rewrite (upsert_edge_unfold g). cbv zeta. simpl.
      rewrite existsb_matches_step by done.
      by apply foldl_merge_rel_matched. }
  split; [done|]. unfold bulk_upsert_edges. simpl. done.
Qed.

Lemma upsert_edge_twice_is_once_witness :
  edge_id_stable (calls_edge "C" "A")
  ∧ upsert_edge (upsert_edge fixture (calls_edge "C" "A")) (calls_edge "C" "A")
    = upsert_edge fixture (calls_edge "C" "A").
Proof.
  assert (edge_id_stable (calls_edge "C" "A")) as Hst by (left; reflexivity).
  split; [exact Hst|].
  exact (proj1 (upsert_edge_twice_is_once fixture _ Hst)).
Defined.

Lemma get_all_edges_app ns rs rs' f f' :
  get_all_edges (Graph ns (rs ++ rs') f)
  = get_all_edges (Graph ns rs f') ++ get_all_edges (Graph ns rs' f').
Proof. unfold get_all_edges. simpl. by rewrite bind_app. Qed.

Lemma delete_id_type_set_rel edge :
  edge_properties edge !! "id" = None →
  edge_properties edge !! "type" = None →
  (∀ k, edge_properties edge !! k ≠ Some VNone) →
  delete "type" (delete "id"
    (set_rel edge {[ "id" := VStr (edge_id edge) ]}))
  = edge_properties edge.
Proof.
  intros Hid Hty Hnone. apply map_eq. intros k.
  destruct (decide (k = "type")) as [-> | Hk].
  { by rewrite lookup_delete_eq, Hty. }
  rewrite lookup_delete_ne by done.
  destruct (decide (k = "id")) as [-> | Hk'].
  { by rewrite lookup_delete_eq, Hid. }
  rewrite lookup_delete_ne by done. rewrite lookup_set_rel.
  specialize (Hnone k).
  destruct (edge_properties edge !! k) as [[]|]; try done.
  rewrite decide_False by done. by rewrite lookup_singleton_ne.
Qed.

(** X7. A new edge between two existing nodes, each the only node with its
    id, is listed by [get_all_edges] exactly as it was written, after the
    rows that were listed before: its id, type, endpoints and properties
    come back unchanged, provided the properties have no [id] or [type] key
    and no null value. *)
Theorem get_all_edges_after_upsert_edge g edge s t :
  graph_wf g →
  match_nodes g (edge_source edge) = [s] →
  match_nodes g (edge_target edge) = [t] →
  existsb (rel_matches (nkey s) (nkey t) (edge_id edge)) (grels g) = false →
  edge_properties edge !! "id" = None →
  edge_properties edge !! "type" = None →
  (∀ k, edge_properties edge !! k ≠ Some VNone) →
  get_all_edges (upsert_edge g edge)
  = get_all_edges g
    ++ [mkEdgeDict (VStr (edge_id edge)) (VStr (edge_type edge))
          (VStr (edge_source edge)) (VStr (edge_target edge))
          (edge_properties edge)].
Proof.
  intros Hwf Hs Ht Hnew Hid Hty Hnone.
  assert (s ∈ match_nodes g (edge_source edge)) as Hs' by (rewrite Hs; left).
  assert (t ∈ match_nodes g (edge_target edge)) as Ht' by (rewrite Ht; left).
  apply elem_of_match_nodes in Hs' as [Hsg Hsid].
  apply elem_of_match_nodes in Ht' as [Htg Htid].
  apply has_id_spec in Hsid. apply has_id_spec in Htid.
  rewrite upsert_edge_unfold. unfold edge_rows. rewrite Hs, Ht.
  cbn [mbind list_bind app foldl]. cbv zeta. unfold merge_rel.
  cbn [fst snd]. rewrite Hnew. cbn [gnodes grels gfresh].
  rewrite fmap_app.
  assert (upsert_rel_step edge [(nkey s, nkey t)] <$> grels g = grels g)
    as ->.
  { rewrite <- (list_fmap_id (grels g)) at 2. apply list_fmap_ext.
    intros i r Hr. unfold upsert_rel_step. cbn [existsb fst snd].
    rewrite orb_false_r.
    destruct (rel_matches (nkey s) (nkey t) (edge_id edge) r) eqn:E; [|done].
    exfalso. apply not_true_iff_false in Hnew. apply Hnew.
    apply existsb_exists. exists r. split; [|done].
    apply list_elem_of_In. by eapply list_elem_of_lookup_2. }
  assert (upsert_rel_step edge [(nkey s, nkey t)]
            (GRel (gfresh g) (nkey s) (nkey t) {["id" := VStr (edge_id edge)]})
          = GRel (gfresh g) (nkey s) (nkey t)
              (set_rel edge {["id" := VStr (edge_id edge)]})) as Hstep.
  { unfold upsert_rel_step. cbn [existsb fst snd]. unfold rel_matches.
    cbn [rsrc rdst rprops]. rewrite !bool_decide_eq_true_2 by done.
    by rewrite (proj2 (has_id_spec _ _)) by apply lookup_singleton_eq. }
  rewrite fmap_cons, fmap_nil, Hstep.
  rewrite (get_all_edges_app _ _ _ _ (gfresh g)).
  destruct g as [ns rs f]. cbn [gnodes grels gfresh] in *. f_equal.
  unfold get_all_edges. cbn [grels mbind list_bind app rsrc rdst rprops].
  destruct Hwf as (Hnd & _). cbn [gnodes] in Hnd.
  rewrite (node_of_key_elem (Graph ns _ f) s) by done.
  rewrite (node_of_key_elem (Graph ns _ f) t) by done.
  rewrite delete_id_type_set_rel by done.
  unfold prop. rewrite Hsid, Htid, !lookup_set_rel, Hid, Hty. simpl.
  done.
Qed.

Lemma get_all_edges_after_upsert_edge_witness :
  get_all_edges (upsert_edge fixture weighted_edge)
  = get_all_edges fixture
    ++ [mkEdgeDict (VStr "edge:C-uses-A") (VStr "uses")
          (VStr "service:C") (VStr "service:A") {["weight" := VInt 1]}].
Proof.
  apply (get_all_edges_after_upsert_edge fixture weighted_edge
           (stored_service 2 "C") (stored_service 0 "A")).
  - apply (bool_decide_unpack _). vm_compute. reflexivity.
  - vm_compute. reflexivity.
  - vm_compute. reflexivity.
  - vm_compute. reflexivity.
  - reflexivity.
  - reflexivity.
  - intros k. simpl. destruct (decide (k = "weight")) as [-> | Hk].
    + rewrite lookup_singleton_eq. discriminate.
    + rewrite lookup_singleton_ne by done. discriminate.
Defined.

(** * Further properties of the query engine *)

(** ** Statistics *)

Lemma pydict_get_set {V} (d : list (value * V)) k v k' :
  pydict_get (pydict_set d k v) k'
  = if decide (py_key k = py_key k') then Some v else pydict_get d k'.
Proof.
  unfold pydict_get. induction d as [|[k0 v0] d IH]; simpl.
  - case_bool_decide; case_decide; done.
  - destruct (decide (py_key k0 = py_key k)) as [E|E]; simpl.
    + case_bool_decide as E1; case_decide as E2; try done; congruence.
    + case_bool_decide as E1; [|exact IH].
      rewrite decide_False by congruence. done.
Qed.

Lemma pydict_get_foldl_others {V} (rows : list (value * V)) d k :
  (∀ row, row ∈ rows → py_key row.1 ≠ py_key k) →
  pydict_get (foldl (λ d row, pydict_set d row.1 row.2) d rows) k
  = pydict_get d k.
Proof.
  revert d. induction rows as [|row rows IH]; intros d H; [done|]. simpl.
  rewrite IH by (intros r Hr; apply H; by right).
  rewrite pydict_get_set. rewrite decide_False; [done|]. apply H. by left.
Qed.

Lemma pydict_get_foldl_last {V} (l1 l2 : list (value * V)) d k0 v k :
  py_key k0 = py_key k →
  (∀ row, row ∈ l2 → py_key row.1 ≠ py_key k) →
  pydict_get
    (foldl (λ d row, pydict_set d row.1 row.2) d (l1 ++ (k0, v) :: l2)) k
  = Some v.
Proof.
  intros Hk H. rewrite foldl_app. simpl.
  rewrite pydict_get_foldl_others by done.
  rewrite pydict_get_set. by rewrite decide_True.
Qed.

Lemma py_key_str v s : py_key v = VStr s → v = VStr s.
Proof. by destruct v. Qed.

Lemma prop_type_str m t :
  prop "type" m = VStr t ↔ has_prop "type" (VStr t) m = true.
Proof.
  rewrite has_prop_str. unfold prop.
  destruct (m !! "type") as [v|]; simpl; split; congruence.
Qed.

Lemma length_get_all_edges g :
  length (get_all_edges g)
  = length (filter (λ r, is_Some (node_of_key g (rsrc r))
                         ∧ is_Some (node_of_key g (rdst r))) (grels g)).
Proof.
  unfold get_all_edges. induction (grels g) as [|r l IH]; [done|].
  rewrite bind_cons, length_app, IH.
  destruct (node_of_key g (rsrc r)) as [a|] eqn:Ea;
    [destruct (node_of_key g (rdst r)) as [b|] eqn:Eb|].
  - rewrite filter_cons_True by (rewrite Ea, Eb; split; eauto). done.
  - rewrite filter_cons_False; [done|]. rewrite Eb. intros [_ [? ?]]. done.
  - rewrite filter_cons_False; [done|]. rewrite Ea. intros [[? ?] _]. done.
Qed.

(** X8. The statistics agree with the listings of the store: [total_nodes]
    is the number of nodes [get_nodes] lists, [total_edges] the number of
    rows of [get_all_edges], and [nodes_by_type] holds under a type name
    the number of nodes [get_nodes] lists for that type, with no entry
    for a type no node has.  An empty type name makes [get_nodes] list
    every node. *)
Theorem get_graph_stats_agrees_with_listings g t :
  t ≠ "" →
  total_nodes (get_graph_stats g) = length (get_nodes g None)
  ∧ total_edges (get_graph_stats g) = length (get_all_edges g)
  ∧ pydict_get (nodes_by_type (get_graph_stats g)) (VStr t)
    = (if decide (get_nodes g (Some t) = []) then None
       else Some (length (get_nodes g (Some t))))
  ∧ get_nodes g (Some "") = get_nodes g None.
Proof.
  intros Ht. split_and!.
  - unfold get_nodes, GraphStorage.get_nodes. simpl. by rewrite length_fmap.
  - simpl. by rewrite length_get_all_edges.
  - unfold get_nodes, GraphStorage.get_nodes.
    rewrite (proj2 (String.eqb_neq t "")) by done. simpl.
    rewrite length_fmap.
    rewrite <- (list_filter_iff
                 (λ n, prop "type" (nprops n) = VStr t)
                 (λ n, has_prop "type" (VStr t) (nprops n) = true))
      by (intros n; apply prop_type_str).
    unfold type_rows.
    set (cnt := λ ty, length (filter (λ n, prop "type" (nprops n) = ty)
                                (gnodes g))).
    set (tys := prop "type" ∘ nprops <$> gnodes g).
    destruct (decide (VStr t ∈ tys)) as [Hin|Hout].
    + pose proof (NoDup_distinct tys) as Hnd.
      apply (elem_of_distinct tys) in Hin as Hd.
      apply list_elem_of_split in Hd as (l1 & l2 & Hsplit).
      rewrite Hsplit in *. rewrite fmap_app, fmap_cons.
      rewrite (pydict_get_foldl_last _ _ _ (VStr t) (cnt (VStr t)) (VStr t));
        [|done|].
      * apply list_elem_of_fmap in Hin as (n & Hn & Hing).
        assert (n ∈ filter (λ n, prop "type" (nprops n) = VStr t) (gnodes g))
          as Hf by (apply list_elem_of_filter; done).
        rewrite decide_False; [done|].
        intros Hnil. apply fmap_nil_inv in Hnil. rewrite Hnil in Hf.
        by apply not_elem_of_nil in Hf.
      * intros row Hrow Hkey. apply list_elem_of_fmap in Hrow as (ty & -> & Hty).
        simpl in Hkey. apply py_key_str in Hkey. subst ty.
        apply NoDup_app in Hnd as (_ & _ & Hnd).
        apply NoDup_cons in Hnd as [Hnd _]. done.
    + rewrite pydict_get_foldl_others.
      * rewrite decide_True; [done|].
        destruct (filter _ (gnodes g)) as [|n l] eqn:E; [done|]. exfalso.
        assert (n ∈ filter (λ n, prop "type" (nprops n) = VStr t) (gnodes g))
          as Hf by (rewrite E; left).
        apply list_elem_of_filter in Hf as [Hp Hn]. apply Hout.
        apply list_elem_of_fmap. by exists n.
      * intros row Hrow Hkey. apply list_elem_of_fmap in Hrow as (ty & -> & Hty).
        simpl in Hkey. apply py_key_str in Hkey. subst ty.
        apply (elem_of_distinct tys) in Hty. done.
  - done.
Qed.

Lemma get_graph_stats_agrees_with_listings_witness :
  total_nodes (get_graph_stats fixture) = length (get_nodes fixture None)
  ∧ total_edges (get_graph_stats fixture) = length (get_all_edges fixture)
  ∧ pydict_get (nodes_by_type (get_graph_stats fixture)) (VStr "service")
    = (if decide (get_nodes fixture (Some "service") = []) then None
       else Some (length (get_nodes fixture (Some "service"))))
  ∧ get_nodes fixture (Some "") = get_nodes fixture None.
Proof.
  apply (get_graph_stats_agrees_with_listings fixture "service").
  discriminate.
Defined.

(** ** Ownership *)

Lemma elem_of_get_nodes_owned_by_team g team_name owned :
  owned ∈ get_nodes_owned_by_team g team_name ↔
  ∃ r team target,
    r ∈ grels g
    ∧ rprops r !! "type" = Some (VStr "owns")
    ∧ node_of_key g (rsrc r) = Some team
    ∧ nprops team !! "id" = Some (VStr ("team:" +:+ team_name))
    ∧ node_of_key g (rdst r) = Some target
    ∧ owned = nprops target.
Proof.
  unfold get_nodes_owned_by_team. rewrite list_elem_of_bind. split.
  - intros (r & Hin & Hr). exists r.
    destruct (has_prop "type" (VStr "owns") (rprops r)) eqn:Eo;
      [|by apply not_elem_of_nil in Hin].
    destruct (node_of_key g (rsrc r)) as [tm|] eqn:Es;
      [|by apply not_elem_of_nil in Hin].
    destruct (node_of_key g (rdst r)) as [tg|] eqn:Ed;
      [|by apply not_elem_of_nil in Hin].
    destruct (has_id ("team:" +:+ team_name) (nprops tm)) eqn:Ei;
      [|by apply not_elem_of_nil in Hin].
    apply list_elem_of_singleton in Hin. subst owned.
    exists tm, tg. rewrite has_prop_str in Eo. rewrite has_id_spec in Ei.
    done.
  - intros (r & tm & tg & Hr & Eo & Es & Ei & Ed & ->). exists r.
    split; [|done]. rewrite <- has_prop_str in Eo.
    rewrite <- has_id_spec in Ei. rewrite Eo, Es, Ed, Ei. by left.
Qed.

(** X9. The two ownership queries agree.  When [get_owner] returns for a
    node id a team whose id is [team:<name>], [get_nodes_owned_by_team]
    lists for that name a node with this id.  Conversely a node listed
    for a team name has an owner for [get_owner], provided every node
    with the id [team:<name>] has the type [team]: the listing does not
    look at the type of the owning node, [get_owner] does. *)
Theorem ownership_queries_agree g team_name :
  (∀ node_id team,
     get_owner g node_id = Some team →
     team !! "id" = Some (VStr ("team:" +:+ team_name)) →
     ∃ owned, owned ∈ get_nodes_owned_by_team g team_name
              ∧ owned !! "id" = Some (VStr node_id))
  ∧ ((∀ n, n ∈ gnodes g →
           nprops n !! "id" = Some (VStr ("team:" +:+ team_name)) →
           nprops n !! "type" = Some (VStr "team")) →
     ∀ owned node_id,
       owned ∈ get_nodes_owned_by_team g team_name →
       owned !! "id" = Some (VStr node_id) →
       is_Some (get_owner g node_id)).
Proof.
  split.
  - intros node_id team Hown Hid. unfold get_owner, get_owner_v in Hown.
    destruct (owner_rows g (VStr node_id)) as [|tm l] eqn:E; [done|].
    simpl in Hown. injection Hown as <-.
    assert (tm ∈ owner_rows g (VStr node_id)) as Hin by (rewrite E; left).
    apply elem_of_owner_rows in Hin as (r & tg & Hr & Eo & Es & Et & Ed & Ei).
    exists (nprops tg). split; [|done].
    apply elem_of_get_nodes_owned_by_team. by exists r, tm, tg.
  - intros Hteam owned node_id Hin Hid.
    apply elem_of_get_nodes_owned_by_team in Hin
      as (r & tm & tg & Hr & Eo & Es & Ei & Ed & ->).
    assert (is_owner g node_id tm) as Ho.
    { exists r, tg. split_and!; try done. apply Hteam; [|done].
      by apply node_of_key_Some in Es as [? _]. }
    apply elem_of_owner_rows in Ho. unfold get_owner, get_owner_v.
    destruct (owner_rows g (VStr node_id)) as [|a l]; [|by eexists].
    by apply not_elem_of_nil in Ho.
Qed.

Lemma ownership_queries_agree_witness :
  nprops (stored_service 0 "A") ∈ get_nodes_owned_by_team fixture "T"
  ∧ is_Some (get_owner fixture "service:A").
Proof.
  assert (nprops (stored_service 0 "A")
          ∈ get_nodes_owned_by_team fixture "T") as Hin
    by (apply (bool_decide_unpack _); vm_compute; reflexivity).
  split; [exact Hin|].
  apply (proj2 (ownership_queries_agree fixture "T")) with
    (owned := nprops (stored_service 0 "A")); [|exact Hin|reflexivity].
  apply (proj1 (Forall_forall
                  (λ n : gnode,
                     nprops n !! "id" = Some (VStr "team:T") →
                     nprops n !! "type" = Some (VStr "team"))
                  (gnodes fixture))).
  apply (bool_decide_unpack _). vm_compute. reflexivity.
Defined.

(** ** Traversals *)

Lemma match_nodes_single_props g x a n :
  match_nodes g x = [a] → n ∈ gnodes g → nprops n = nprops a → n = a.
Proof.
  intros Ha Hn Hp.
  assert (a ∈ match_nodes g x) as Ha' by (rewrite Ha; left).
  apply elem_of_match_nodes in Ha' as [_ Hid].
  assert (n ∈ match_nodes g x) as Hn'.
  { apply elem_of_match_nodes. split; [done|]. by rewrite Hp. }
  rewrite Ha in Hn'. by apply list_elem_of_singleton in Hn'.
Qed.

(** X10. Downstream and upstream are two views of the same
    relationships: on a well-formed store where [x] and [y] each name
    exactly one node, the node of [y] is in the downstream of [x] exactly
    when the node of [x] is in the upstream of [y], which is also what
    [get_services_using_node] returns for [y]. *)
Theorem downstream_upstream_dual g x y a b :
  graph_wf g → match_nodes g x = [a] → match_nodes g y = [b] →
  ∃ ds us,
    downstream g x [] = Ok ds
    ∧ upstream g y [] = Ok us
    ∧ get_services_using_node g y = Ok us
    ∧ (nprops b ∈ ds ↔ nprops a ∈ us).
Proof.
  intros Hwf Ha Hb.
  exists (nprops <$> downstream_nodes g x), (nprops <$> upstream_nodes g y).
  split; [reflexivity|]. split; [reflexivity|]. split; [reflexivity|].
  assert (a ∈ gnodes g ∧ b ∈ gnodes g) as [Hag Hbg].
  { split; eapply elem_of_match_nodes.
    - rewrite Ha. left.
    - rewrite Hb. left. }
  rewrite !list_elem_of_fmap. split.
  - intros (n & Hp & Hn).
    apply (elem_of_downstream_nodes g x n Hwf) in Hn
      as (Hng & s & k & Hs & Hk & Hw).
    symmetry in Hp. apply (match_nodes_single_props g y b n Hb Hng) in Hp.
    subst n. rewrite Ha in Hs. apply list_elem_of_singleton in Hs. subst s.
    exists a. split; [done|].
    apply (elem_of_upstream_nodes g y a Hwf). split; [done|].
    exists b, k. split; [rewrite Hb; left|]. split; [exact Hk|exact Hw].
  - intros (n & Hp & Hn).
    apply (elem_of_upstream_nodes g y n Hwf) in Hn
      as (Hng & s & k & Hs & Hk & Hw).
    symmetry in Hp. apply (match_nodes_single_props g x a n Ha Hng) in Hp.
    subst n. rewrite Hb in Hs. apply list_elem_of_singleton in Hs. subst s.
    exists b. split; [done|].
    apply (elem_of_downstream_nodes g x b Hwf). split; [done|].
    exists a, k. split; [rewrite Ha; left|]. split; [exact Hk|exact Hw].
Qed.

Lemma downstream_upstream_dual_witness :
  ∃ ds us,
    downstream fixture "service:A" [] = Ok ds
    ∧ upstream fixture "service:C" [] = Ok us
    ∧ get_services_using_node fixture "service:C" = Ok us
    ∧ (nprops (stored_service 2 "C") ∈ ds
       ↔ nprops (stored_service 0 "A") ∈ us).
Proof.
  apply (downstream_upstream_dual fixture "service:A" "service:C"
           (stored_service 0 "A") (stored_service 2 "C")).
  - apply (bool_decide_unpack _). vm_compute. reflexivity.
  - vm_compute. reflexivity.
  - vm_compute. reflexivity.
Defined.

(** ** Affected teams *)








(** * Further properties of the connectors *)

(** ** The batch of a connector *)

Lemma add_node_headers nodes node :
  node_header <$> BaseConnector._add_node nodes node
  = if decide (node_id node ∈ node_id <$> nodes)
    then node_header <$> nodes
    else (node_header <$> nodes) ++ [node_header node].
Proof.
  induction nodes as [|n nodes IH].
  { cbn. rewrite decide_False by apply not_elem_of_nil. done. }
  cbn [BaseConnector._add_node].
  destruct (decide (node_id n = node_id node)) as [E|E].
  - rewrite !fmap_cons, decide_True by (rewrite E; left). done.
  - rewrite !fmap_cons, IH. destruct (decide (node_id node ∈ node_id <$> nodes)).
    + rewrite decide_True by (by right). done.
    + rewrite decide_False; [done|].
      rewrite not_elem_of_cons. split; [congruence | done].
Qed.

Lemma ids_of_headers (l : list Node) :
  node_id <$> l = (λ h, h.1.1) <$> (node_header <$> l).
Proof. induction l as [|n l IH]; [done|]. by rewrite !fmap_cons, IH. Qed.

Lemma add_node_ids nodes node :
  node_id <$> BaseConnector._add_node nodes node
  = if decide (node_id node ∈ node_id <$> nodes)
    then node_id <$> nodes
    else (node_id <$> nodes) ++ [node_id node].
Proof.
  rewrite (ids_of_headers (BaseConnector._add_node nodes node)).
  rewrite add_node_headers.
  destruct (decide (node_id node ∈ node_id <$> nodes)).
  - by rewrite <- ids_of_headers.
  - by rewrite fmap_app, <- ids_of_headers.
Qed.

Lemma add_node_NoDup nodes node :
  NoDup (node_id <$> nodes) →
  NoDup (node_id <$> BaseConnector._add_node nodes node).
Proof.
  intros Hnd. rewrite add_node_ids. case_decide as Hin; [done|].
  apply NoDup_app. split_and!; [done| |apply NoDup_singleton].
  intros x Hx Hx'. apply list_elem_of_singleton in Hx'. by subst.
Qed.

Lemma add_edge_ids edges e :
  edge_id <$> BaseConnector._add_edge edges e
  = if decide (edge_id e ∈ edge_id <$> edges)
    then edge_id <$> edges
    else (edge_id <$> edges) ++ [edge_id e].
Proof.
  unfold BaseConnector._add_edge.
  destruct (find _ edges) as [e0|] eqn:E.
  - apply find_some in E as [Hin Hid]. apply bool_decide_eq_true in Hid.
    rewrite decide_True; [done|]. rewrite <- Hid.
    apply list_elem_of_fmap. exists e0. split; [done|].
    by apply list_elem_of_In.
  - rewrite decide_False; [by rewrite fmap_app|].
    intros Hin. apply list_elem_of_fmap in Hin as (e0 & Hid & Hin).
    apply list_elem_of_In in Hin.
    apply (find_none _ _ E) in Hin. apply bool_decide_eq_false in Hin.
    by apply Hin.
Qed.

Lemma add_edge_NoDup edges e :
  NoDup (edge_id <$> edges) →
  NoDup (edge_id <$> BaseConnector._add_edge edges e).
Proof.
  intros Hnd. rewrite add_edge_ids. case_decide as Hin; [done|].
  apply NoDup_app. split_and!; [done| |apply NoDup_singleton].
  intros x Hx Hx'. apply list_elem_of_singleton in Hx'. by subst.
Qed.

Lemma mark_service_headers name port_info nodes :
  node_header <$> KubernetesConnector.mark_service name port_info nodes
  = node_header <$> nodes.
Proof.
  induction nodes as [|n nodes IH]; [done|].
  cbn [KubernetesConnector.mark_service].
  destruct (String.eqb (node_name n) name); [done|].
  by rewrite !fmap_cons, IH.
Qed.

Lemma k8s_env_edge_NoDup name edges kv :
  NoDup (edge_id <$> edges) →
  NoDup (edge_id <$> KubernetesConnector.env_edge name edges kv).
Proof.
  intros Hnd. unfold KubernetesConnector.env_edge.
  destruct (_ && _); [|done].
  destruct (KubernetesConnector._extract_service_from_k8s_url _); [|done].
  destruct (_ && _); [|done]. by apply add_edge_NoDup.
Qed.

Lemma compose_env_edge_NoDup services name source_id edges kv :
  NoDup (edge_id <$> edges) →
  NoDup (edge_id <$>
           DockerComposeConnector.env_edge services name source_id edges kv).
Proof.
  intros Hnd. unfold DockerComposeConnector.env_edge.
  destruct (_ && _); [|done].
  destruct (DockerComposeConnector._extract_service_from_url _); [|done].
  destruct (_ && _); [|done]. destruct (negb _); [|done].
  by apply add_edge_NoDup.
Qed.

(** X12. No connector emits two nodes with the same id or two edges with
    the same id, whatever the input files declare: the team roster and
    the cluster manifests for nodes and edges, the compose file for its
    edges. *)
Theorem connectors_emit_unique_ids :
  (∀ data,
     NoDup (node_id <$> (TeamsConnector.parse data).1)
     ∧ NoDup (edge_id <$> (TeamsConnector.parse data).2))
  ∧ (∀ documents,
       NoDup (node_id <$> (KubernetesConnector.parse documents).1)
       ∧ NoDup (edge_id <$> (KubernetesConnector.parse documents).2))
  ∧ (∀ services,
       NoDup (edge_id <$> DockerComposeConnector.parse_edges services)).
Proof.
  split_and!.
  - intros [teams|]; [|split; constructor]. simpl.
    apply (foldl_invariant
             (λ st : list Node * list Edge,
                NoDup (node_id <$> st.1) ∧ NoDup (edge_id <$> st.2))).
    { split; constructor. }
    intros st t [Hn He]. unfold TeamsConnector.parse_team.
    destruct (team_name t) as [name|]; [|done].
    destruct (String.eqb name ""); [done|]. simpl. split.
    + by apply add_node_NoDup.
    + apply (foldl_invariant (λ edges, NoDup (edge_id <$> edges))); [done|].
      intros edges owned Hedges. by apply add_edge_NoDup.
  - intros [docs|]; [|split; constructor]. simpl.
    apply (foldl_invariant
             (λ st : list Node * list Edge,
                NoDup (node_id <$> st.1) ∧ NoDup (edge_id <$> st.2))).
    { split; constructor. }
    intros st [d|s|] [Hn He]; [| |done].
    + unfold KubernetesConnector._parse_deployment.
      destruct (d_name d) as [name|]; [|done].
      destruct (String.eqb name ""); [done|]. simpl. split.
      * by apply add_node_NoDup.
      * apply (foldl_invariant (λ edges, NoDup (edge_id <$> edges)));
          [done|].
        intros edges kv Hedges. by apply k8s_env_edge_NoDup.
    + unfold KubernetesConnector._parse_service.
      destruct (s_name s) as [name|]; [|done].
      destruct (String.eqb name ""); [done|]. simpl. split; [|done].
      by rewrite ids_of_headers, mark_service_headers, <- ids_of_headers.
  - intros services. unfold DockerComposeConnector.parse_edges.
    apply (foldl_invariant (λ edges, NoDup (edge_id <$> edges)));
      [constructor|].
    intros edges [name config] Hedges.
    unfold DockerComposeConnector.service_edges. simpl.
    apply (foldl_invariant (λ edges, NoDup (edge_id <$> edges))).
    + apply (foldl_invariant (λ edges, NoDup (edge_id <$> edges))); [done|].
      intros acc dep Hacc. unfold DockerComposeConnector.depends_on_edge.
      by apply add_edge_NoDup.
    + intros acc kv Hacc. by apply compose_env_edge_NoDup.
Qed.

Lemma add_node_existing_first l1 n l2 node :
  node_id n = node_id node →
  (∀ m, m ∈ l1 → node_id m ≠ node_id node) →
  BaseConnector._add_node (l1 ++ n :: l2) node
  = l1 ++ mkNode (node_id n) (node_type n) (node_name n)
            (node_properties node ∪ node_properties n) :: l2.
Proof.
  intros Hn. induction l1 as [|m l1 IH]; intros Hl1; simpl.
  - by rewrite decide_True.
  - rewrite decide_False by (apply Hl1; left).
    rewrite IH; [done|]. intros m' Hm'. apply Hl1. by right.
Qed.

(** X13. A node definition whose id is already in the batch of a
    connector does not replace the node: the batch keeps its length, and
    the ids, types and names of all its nodes; the first definition's
    type and name stay even when the second one differs.  Only the
    properties are merged, the later value winning key by key, and every
    other node is left as it was. *)
Theorem add_node_keeps_first_type_and_name nodes node n :
  NoDup (node_id <$> nodes) → n ∈ nodes → node_id n = node_id node →
  let nodes' := BaseConnector._add_node nodes node in
  length nodes' = length nodes
  ∧ node_header <$> nodes' = node_header <$> nodes
  ∧ (∃ n', n' ∈ nodes'
           ∧ node_header n' = node_header n
           ∧ ∀ k, node_properties n' !! k
                  = match node_properties node !! k with
                    | Some v => Some v
                    | None => node_properties n !! k
                    end)
  ∧ (∀ m, m ∈ nodes → node_id m ≠ node_id node → m ∈ nodes').
Proof.
  intros Hnd Hin Hid. cbv zeta.
  apply list_elem_of_split in Hin as (l1 & l2 & ->).
  assert (∀ m, m ∈ l1 → node_id m ≠ node_id node) as Hl1.
  { intros m Hm Heq. rewrite fmap_app, fmap_cons in Hnd.
    apply NoDup_app in Hnd as (_ & Hdis & _). apply (Hdis (node_id m)).
    - apply list_elem_of_fmap. by exists m.
    - rewrite Heq, <- Hid. left. }
  rewrite add_node_existing_first by done. split_and!.
  - by rewrite !length_app.
  - by rewrite !fmap_app, !fmap_cons.
  - eexists. split; [apply elem_of_app; right; left|]. split; [done|].
    intros k. simpl. rewrite lookup_union.
    destruct (node_properties node !! k), (node_properties n !! k); done.
  - intros m Hm Hne. apply elem_of_app in Hm as [Hm | Hm].
    + apply elem_of_app. by left.
    + apply elem_of_cons in Hm as [-> | Hm]; [done|].
      apply elem_of_app. right. by right.
Qed.

Lemma add_node_keeps_first_type_and_name_witness :
  let nodes := [service_node "a"; service_node "b"] in
  let node := mkNode "service:a" "database" "renamed" {["port" := VInt 1]} in
  length (BaseConnector._add_node nodes node) = length nodes
  ∧ node_header <$> BaseConnector._add_node nodes node
    = node_header <$> nodes.
Proof.
  cbv zeta.
  destruct (add_node_keeps_first_type_and_name
              [service_node "a"; service_node "b"]
              (mkNode "service:a" "database" "renamed" {["port" := VInt 1]})
              (service_node "a")) as (Hlen & Hhead & _).
  - apply (bool_decide_unpack _). vm_compute. reflexivity.
  - left.
  - reflexivity.
  - split; [exact Hlen | exact Hhead].
Defined.

(** ** What the connectors emit *)

Lemma foldl_invariant_elem {A B} (P : A → Prop) (f : A → B → A) l a :
  P a → (∀ a b, b ∈ l → P a → P (f a b)) → P (foldl f a l).
Proof.
  revert a. induction l as [|b l IH]; intros a Ha Hf; [done|]. simpl.
  apply IH.
  - apply Hf; [left | done].
  - intros a' b' Hb'. apply Hf. by right.
Qed.

Lemma elem_of_add_node nodes node n' :
  n' ∈ BaseConnector._add_node nodes node →
  ∃ n0, (n0 ∈ nodes ∨ n0 = node) ∧ node_header n' = node_header n0.
Proof.
  intros Hin.
  assert (node_header n' ∈ node_header <$> BaseConnector._add_node nodes node)
    as Hh by (apply list_elem_of_fmap; by exists n').
  rewrite add_node_headers in Hh.
  destruct (decide (node_id node ∈ node_id <$> nodes)).
  - apply list_elem_of_fmap in Hh as (n0 & Hn0 & Hin0). exists n0. auto.
  - apply elem_of_app in Hh as [Hh | Hh].
    + apply list_elem_of_fmap in Hh as (n0 & Hn0 & Hin0). exists n0. auto.
    + apply list_elem_of_singleton in Hh. exists node. auto.
Qed.

Lemma add_node_ids_mono nodes node i :
  i ∈ node_id <$> nodes ∨ i = node_id node →
  i ∈ node_id <$> BaseConnector._add_node nodes node.
Proof.
  rewrite add_node_ids. intros [Hi | ->].
  - case_decide; [done|]. apply elem_of_app. by left.
  - case_decide; [done|]. apply elem_of_app. right. left.
Qed.

Lemma header_inv n n0 :
  node_header n = node_header n0 →
  node_id n = node_id n0 ∧ node_type n = node_type n0
  ∧ node_name n = node_name n0.
Proof. unfold node_header. by intros [= -> -> ->]. Qed.

Lemma parse_teams_snoc ts t :
  TeamsConnector.parse (Some (ts ++ [t]))
  = TeamsConnector.parse_team (TeamsConnector.parse (Some ts)) t.
Proof. simpl. by rewrite foldl_app. Qed.

(** X14. What the team roster yields.  Every node is a team: its type is
    [team], its id is [team:] followed by its name, and the name is a
    non-empty name declared in the file.  Every declared team with a
    non-empty name has its node.  Every edge starts at a node of the same
    batch and carries no properties.  An unreadable file yields
    nothing. *)
Theorem teams_parse_shape teams :
  (∀ n, n ∈ (TeamsConnector.parse (Some teams)).1 →
        node_type n = "team"
        ∧ node_id n = "team:" +:+ node_name n
        ∧ node_name n ≠ ""
        ∧ ∃ t, t ∈ teams ∧ team_name t = Some (node_name n))
  ∧ (∀ t name, t ∈ teams → team_name t = Some name → name ≠ "" →
               "team:" +:+ name
               ∈ node_id <$> (TeamsConnector.parse (Some teams)).1)
  ∧ (∀ e, e ∈ (TeamsConnector.parse (Some teams)).2 →
          edge_source e ∈ node_id <$> (TeamsConnector.parse (Some teams)).1
          ∧ edge_properties e = ∅)
  ∧ TeamsConnector.parse None = ([], []).
Proof.
  induction teams as [|t ts IH] using rev_ind.
  { split_and!; try done.
    - intros n Hn. by apply not_elem_of_nil in Hn.
    - intros t name Ht. by apply not_elem_of_nil in Ht.
    - intros e He. by apply not_elem_of_nil in He. }
  destruct IH as (Hnodes & Hdecl & Hedges & _).
  rewrite parse_teams_snoc.
  set (st := TeamsConnector.parse (Some ts)) in *.
  unfold TeamsConnector.parse_team.
  destruct (team_name t) as [name|] eqn:En.
  2:{ split_and!; [| | done | done].
      - intros n Hn. destruct (Hnodes n Hn) as (? & ? & ? & t0 & ? & ?).
        split_and!; try done. exists t0. split; [|done].
        apply elem_of_app. by left.
      - intros t0 name0 Ht0 Hname0 Hne.
        apply elem_of_app in Ht0 as [Ht0 | Ht0]; [by eapply Hdecl|].
        apply list_elem_of_singleton in Ht0. subst. congruence. }
  destruct (String.eqb_spec name "") as [-> | Hname].
  { split_and!; [| | done | done].
    - intros n Hn. destruct (Hnodes n Hn) as (? & ? & ? & t0 & ? & ?).
      split_and!; try done. exists t0. split; [|done].
      apply elem_of_app. by left.
    - intros t0 name0 Ht0 Hname0 Hne.
      apply elem_of_app in Ht0 as [Ht0 | Ht0]; [by eapply Hdecl|].
      apply list_elem_of_singleton in Ht0. subst. congruence. }
  cbn [fst snd]. split_and!; [| | | done].
  - intros n Hn. apply elem_of_add_node in Hn as (n0 & [Hn0 | ->] & Hh);
      apply header_inv in Hh as (Hi & Hty & Hnm); rewrite Hi, Hty, Hnm.
    + destruct (Hnodes n0 Hn0) as (? & ? & ? & t0 & ? & ?).
      split_and!; try done. exists t0. split; [|done].
      apply elem_of_app. by left.
    + simpl. split_and!; try done. exists t. split; [|done].
      apply elem_of_app. right. left.
  - intros t0 name0 Ht0 Hname0 Hne. apply add_node_ids_mono.
    apply elem_of_app in Ht0 as [Ht0 | Ht0]; [left; by eapply Hdecl|].
    apply list_elem_of_singleton in Ht0. subst t0. right. simpl. congruence.
  - apply (foldl_invariant
             (λ edges, ∀ e, e ∈ edges →
                edge_source e ∈ node_id <$> BaseConnector._add_node st.1 _
                ∧ edge_properties e = ∅)).
    + intros e He. destruct (Hedges e He) as [Hs Hp]. split; [|done].
      apply add_node_ids_mono. by left.
    + intros edges owned Hacc. apply add_edge_invariant; [done|].
      simpl. split; [|done]. apply add_node_ids_mono. by right.
Qed.

Lemma infer_node_type_cases name config :
  DockerComposeConnector._infer_node_type name config = "database"
  ∨ DockerComposeConnector._infer_node_type name config = "cache"
  ∨ DockerComposeConnector._infer_node_type name config = "service".
Proof.
  unfold DockerComposeConnector._infer_node_type.
  repeat (match goal with
          | |- context [if ?b then _ else _] => destruct b
          end; auto).
Qed.

Lemma typed_id_inj t1 a t2 b :
  (t1 = "database" ∨ t1 = "cache" ∨ t1 = "service") →
  (t2 = "database" ∨ t2 = "cache" ∨ t2 = "service") →
  t1 +:+ ":" +:+ a = t2 +:+ ":" +:+ b → a = b.
Proof.
  intros [-> | [-> | ->]] [-> | [-> | ->]]; simpl; intros H;
    by simplify_eq.
Qed.

(** X15. What the cluster manifests yield.  Every node is a service with
    the id [service:] followed by its non-empty name.  Every edge starts
    at a node of the same batch, never ends where it starts, and is
    marked as found through the container environment.  Without a
    Deployment document nothing is emitted: a Service document only
    annotates a node that is already there. *)
Theorem kubernetes_parse_shape :
  (∀ documents n, n ∈ (KubernetesConnector.parse documents).1 →
     node_type n = "service"
     ∧ node_id n = "service:" +:+ node_name n
     ∧ node_name n ≠ "")
  ∧ (∀ documents e, e ∈ (KubernetesConnector.parse documents).2 →
       edge_source e ∈ node_id <$> (KubernetesConnector.parse documents).1
       ∧ edge_source e ≠ edge_target e
       ∧ edge_properties e = {["via" := VStr "k8s_env"]})
  ∧ (∀ docs, (∀ d, DocDeployment d ∉ docs) →
       KubernetesConnector.parse (Some docs) = ([], [])).
Proof.
  assert (∀ documents,
            (∀ n, n ∈ (KubernetesConnector.parse documents).1 →
               node_type n = "service"
               ∧ node_id n = "service:" +:+ node_name n
               ∧ node_name n ≠ "")
            ∧ (∀ e, e ∈ (KubernetesConnector.parse documents).2 →
                 edge_source e
                 ∈ node_id <$> (KubernetesConnector.parse documents).1
                 ∧ edge_source e ≠ edge_target e
                 ∧ edge_properties e = {["via" := VStr "k8s_env"]})) as H.
  { intros [docs|]; simpl.
    2:{ split; intros x Hx; by apply not_elem_of_nil in Hx. }
    apply (foldl_invariant
             (λ st : list Node * list Edge,
                (∀ n, n ∈ st.1 →
                   node_type n = "service"
                   ∧ node_id n = "service:" +:+ node_name n
                   ∧ node_name n ≠ "")
                ∧ (∀ e, e ∈ st.2 →
                     edge_source e ∈ node_id <$> st.1
                     ∧ edge_source e ≠ edge_target e
                     ∧ edge_properties e = {["via" := VStr "k8s_env"]}))).
    { split; intros x Hx; by apply not_elem_of_nil in Hx. }
    intros st [d|s|] [Hnodes Hedges]; [| |done].
    - unfold KubernetesConnector._parse_deployment.
      destruct (d_name d) as [name|]; [|done].
      destruct (String.eqb_spec name "") as [-> | Hname]; [done|].
      cbn [fst snd]. split.
      + intros n Hn. apply elem_of_add_node in Hn as (n0 & [Hn0 | ->] & Hh);
          apply header_inv in Hh as (Hi & Hty & Hnm); rewrite Hi, Hty, Hnm;
          [by apply Hnodes | done].
      + apply (foldl_invariant
                 (λ edges, ∀ e, e ∈ edges →
                    edge_source e
                    ∈ node_id <$> BaseConnector._add_node st.1 _
                    ∧ edge_source e ≠ edge_target e
                    ∧ edge_properties e = {["via" := VStr "k8s_env"]})).
        * intros e He. destruct (Hedges e He) as (Hs & Hne & Hp).
          split_and!; try done. apply add_node_ids_mono. by left.
        * intros edges [k v] Hacc. unfold KubernetesConnector.env_edge.
          cbn [fst snd]. destruct (_ && _); [|done].
          destruct (KubernetesConnector._extract_service_from_k8s_url v)
            as [target_name|]; [|done].
          destruct (negb (String.eqb target_name "")); [|done].
          destruct (String.eqb_spec target_name name) as [|Hne]; [done|].
          cbn [negb andb]. apply add_edge_invariant; [done|].
          cbn [edge_source edge_target edge_properties]. split_and!.
          -- apply add_node_ids_mono. by right.
          -- simpl. intros [= Heq]. by apply Hne.
          -- done.
    - unfold KubernetesConnector._parse_service.
      destruct (s_name s) as [name|]; [|done].
      destruct (String.eqb name ""); [done|]. cbn [fst snd]. split.
      + intros n Hn.
        assert (node_header n ∈ node_header <$> st.1) as Hh.
        { rewrite <- (mark_service_headers name (s_port s)).
          apply list_elem_of_fmap. by exists n. }
        apply list_elem_of_fmap in Hh as (n0 & Hh & Hn0).
        apply header_inv in Hh as (Hi & Hty & Hnm). rewrite Hi, Hty, Hnm.
        by apply Hnodes.
      + intros e He. destruct (Hedges e He) as (Hs & Hne & Hp).
        split_and!; try done.
        by rewrite ids_of_headers, mark_service_headers, <- ids_of_headers. }
  split_and!.
  - intros documents. apply H.
  - intros documents. apply H.
  - intros docs Hno. simpl.
    apply (foldl_invariant_elem (λ st : list Node * list Edge, st = ([], [])));
      [done|].
    intros st [d|s|] Hin ->; [by apply Hno in Hin| |done].
    unfold KubernetesConnector._parse_service.
    destruct (s_name s) as [name|]; [|done].
    by destruct (String.eqb name "").
Qed.

Lemma kubernetes_parse_shape_witness :
  KubernetesConnector.parse
    (Some [DocService (mkK8sService (Some "order-service") (VInt 80))])
  = ([], []).
Proof.
  apply (proj2 (proj2 kubernetes_parse_shape)).
  intros d Hd. apply list_elem_of_singleton in Hd. discriminate.
Defined.

(** X16. Every edge read from a compose file starts at one of the
    services the file declares, under that service's inferred type, and
    carries no properties.  An edge that ends where it starts can only
    come from a service that lists itself under [depends_on]: connection
    strings never produce one. *)
Theorem compose_edges_start_at_declared_service services e :
  e ∈ DockerComposeConnector.parse_edges services →
  edge_properties e = ∅
  ∧ ∃ name config,
      (name, config) ∈ services
      ∧ edge_source e
        = DockerComposeConnector._infer_node_type name config
            +:+ ":" +:+ name
      ∧ (edge_target e = edge_source e → name ∈ cfg_depends_on config).
Proof.
  unfold DockerComposeConnector.parse_edges. revert e.
  apply (foldl_invariant_elem (λ edges, ∀ e, e ∈ edges → _)).
  { intros e He. by apply not_elem_of_nil in He. }
  intros edges [name config] Hentry Hedges.
  unfold DockerComposeConnector.service_edges. cbn [fst snd].
  apply (foldl_invariant (λ edges, ∀ e, e ∈ edges → _)).
  - apply (foldl_invariant_elem (λ edges, ∀ e, e ∈ edges → _)); [done|].
    intros acc dep Hdep Hacc. unfold DockerComposeConnector.depends_on_edge.
    apply add_edge_invariant; [done|].
    cbn [edge_source edge_target edge_properties]. split; [done|].
    exists name, config. split_and!; try done.
    intros Heq. apply typed_id_inj in Heq;
      [by subst | apply infer_node_type_cases..].
  - intros acc [k v] Hacc. unfold DockerComposeConnector.env_edge.
    cbn [fst snd]. destruct (_ && _); [|done].
    destruct (DockerComposeConnector._extract_service_from_url v)
      as [target_name|]; [|done].
    destruct (_ && _); [|done].
    match goal with
    | |- context [String.eqb ?a ?b] => destruct (String.eqb_spec a b) as [|Hne]
    end; [done|].
    cbn [negb]. apply add_edge_invariant; [done|].
    cbn [edge_source edge_target edge_properties]. split; [done|].
    exists name, config. split_and!; try done.
Qed.

Lemma compose_edges_start_at_declared_service_witness :
  let e :=
    mkEdge "edge:order-service-reads_from-orders-db" "reads_from"
      "service:order-service" "database:orders-db" ∅ in
  e ∈ DockerComposeConnector.parse_edges order_compose
  ∧ edge_properties e = ∅.
Proof.
  cbv zeta.
  assert (mkEdge "edge:order-service-reads_from-orders-db" "reads_from"
            "service:order-service" "database:orders-db" ∅
          ∈ DockerComposeConnector.parse_edges order_compose) as Hin
    by (vm_compute; left).
  split; [exact Hin|].
  exact (proj1 (compose_edges_start_at_declared_service order_compose _ Hin)).
Defined.

(** * Further properties of the load pipeline *)

Lemma add_node_props_invariant (P : gmap string value → Prop) nodes node :
  (∀ a b, P a → P b → P (a ∪ b)) →
  (∀ n, n ∈ nodes → P (node_properties n)) → P (node_properties node) →
  ∀ n, n ∈ BaseConnector._add_node nodes node → P (node_properties n).
Proof.
  intros Hunion. induction nodes as [|m nodes IH]; intros Hall Hnode n Hn.
  { apply list_elem_of_singleton in Hn. by subst. }
  cbn [BaseConnector._add_node] in Hn.
  destruct (decide (node_id m = node_id node)).
  - apply elem_of_cons in Hn as [-> | Hn].
    + simpl. apply Hunion; [done|]. apply Hall. left.
    + apply Hall. by right.
  - apply elem_of_cons in Hn as [-> | Hn].
    + apply Hall. left.
    + apply IH; [|done|done]. intros n' Hn'. apply Hall. by right.
Qed.

Lemma no_id_union (a b : gmap string value) :
  a !! "id" = None → b !! "id" = None → (a ∪ b) !! "id" = None.
Proof. intros Ha Hb. by rewrite lookup_union, Ha, Hb. Qed.

Lemma teams_nodes_no_id data n :
  n ∈ (TeamsConnector.parse data).1 → node_properties n !! "id" = None.
Proof.
  destruct data as [teams|]; simpl;
    [|intros Hn; by apply not_elem_of_nil in Hn].
  revert n.
  apply (foldl_invariant
           (λ st : list Node * list Edge,
              ∀ n, n ∈ st.1 → node_properties n !! "id" = None)).
  { intros n Hn. by apply not_elem_of_nil in Hn. }
  intros st t Hst. unfold TeamsConnector.parse_team.
  destruct (team_name t) as [name|]; [|done].
  destruct (String.eqb name ""); [done|]. cbn [fst].
  apply (add_node_props_invariant (λ m, m !! "id" = None));
    [apply no_id_union | done | done].
Qed.

Lemma put_if_no_id k v m :
  k ≠ "id" → m !! "id" = None →
  KubernetesConnector.put_if k v m !! "id" = None.
Proof.
  intros Hk Hm. unfold KubernetesConnector.put_if.
  destruct (truthy v); [|done]. by rewrite lookup_insert_ne.
Qed.

Lemma mark_service_props_invariant (P : gmap string value → Prop)
    name port_info nodes :
  (∀ k v m, k ≠ "id" → P m → P (<[k := v]> m)) →
  (∀ n, n ∈ nodes → P (node_properties n)) →
  ∀ n, n ∈ KubernetesConnector.mark_service name port_info nodes →
       P (node_properties n).
Proof.
  intros Hins. induction nodes as [|m nodes IH]; intros Hall n Hn.
  { by apply not_elem_of_nil in Hn. }
  cbn [KubernetesConnector.mark_service] in Hn.
  destruct (String.eqb (node_name m) name).
  - apply elem_of_cons in Hn as [-> | Hn]; [|apply Hall; by right].
    simpl. apply Hins; [done|].
    destruct (truthy port_info); [apply Hins; [done|]|]; apply Hall; left.
  - apply elem_of_cons in Hn as [-> | Hn]; [apply Hall; left|].
    apply IH; [|done]. intros n' Hn'. apply Hall. by right.
Qed.

Lemma k8s_nodes_no_id documents n :
  n ∈ (KubernetesConnector.parse documents).1 →
  node_properties n !! "id" = None.
Proof.
  destruct documents as [docs|]; simpl;
    [|intros Hn; by apply not_elem_of_nil in Hn].
  revert n.
  apply (foldl_invariant
           (λ st : list Node * list Edge,
              ∀ n, n ∈ st.1 → node_properties n !! "id" = None)).
  { intros n Hn. by apply not_elem_of_nil in Hn. }
  intros st [d|s|] Hst; [| |done].
  - unfold KubernetesConnector._parse_deployment.
    destruct (d_name d) as [name|]; [|done].
    destruct (String.eqb name ""); [done|]. cbn [fst].
    apply (add_node_props_invariant (λ m, m !! "id" = None));
      [apply no_id_union | done |].
    cbn [node_properties]. apply no_id_union; [|done].
    destruct (d_containers d) as [|c cs]; [done|].
    unfold KubernetesConnector.container_info.
    repeat (apply put_if_no_id; [done|]). done.
  - unfold KubernetesConnector._parse_service.
    destruct (s_name s) as [name|]; [|done].
    destruct (String.eqb name ""); [done|]. cbn [fst].
    apply (mark_service_props_invariant (λ m, m !! "id" = None)); [|done].
    intros k v m Hk Hm. by rewrite lookup_insert_ne.
Qed.

Lemma get_node_clear_all g j : get_node (clear_all g) j = None.
Proof. done. Qed.

Lemma match_nodes_upsert_same g node :
  id_stable node → match_nodes (upsert_node g node) (node_id node) ≠ [].
Proof.
  intros Hst. rewrite upsert_node_unfold. cbv zeta.
  rewrite match_nodes_fmap_step by done.
  rewrite match_nodes_merge_node.
  by destruct (match_nodes g (node_id node)).
Qed.

Lemma is_Some_get_node g j :
  is_Some (get_node g j) ↔ match_nodes g j ≠ [].
Proof.
  unfold get_node, GraphStorage.get_node.
  destruct (match_nodes g j) as [|n l]; simpl; split.
  - by intros [? ?].
  - done.
  - done.
  - intros _. by eexists.
Qed.

Lemma present_upsert_node g node j :
  id_stable node →
  is_Some (get_node (upsert_node g node) j)
  ↔ j = node_id node ∨ is_Some (get_node g j).
Proof.
  intros Hst. rewrite !is_Some_get_node.
  destruct (decide (j = node_id node)) as [-> | Hj].
  - split; [by left|]. intros _. by apply match_nodes_upsert_same.
  - rewrite match_nodes_upsert_other by done. split; [by right|].
    by intros [? | ?].
Qed.

Lemma present_bulk_upsert_nodes g nodes j :
  Forall id_stable nodes →
  is_Some (get_node (bulk_upsert_nodes g nodes) j)
  ↔ j ∈ node_id <$> nodes ∨ is_Some (get_node g j).
Proof.
  unfold bulk_upsert_nodes. intros Hst. revert g.
  induction Hst as [|node nodes Hnode Hst IH]; intros g; simpl.
  { split; [by right|]. intros [H | H]; [|done].
    by apply not_elem_of_nil in H. }
  rewrite IH, present_upsert_node by done. rewrite elem_of_cons. tauto.
Qed.

Lemma present_load_stage g out j :
  Forall id_stable out.1 →
  is_Some (get_node (load_stage g out) j)
  ↔ j ∈ node_id <$> out.1 ∨ is_Some (get_node g j).
Proof.
  intros Hst. unfold load_stage.
  rewrite <- present_bulk_upsert_nodes by done.
  unfold get_node, GraphStorage.get_node.
  by rewrite (match_nodes_gnodes _ (bulk_upsert_nodes g out.1))
    by apply bulk_upsert_edges_gnodes.
Qed.

(** X17. After a reload the store answers [get_node] for exactly the ids
    the three connectors declared, whatever it held before: nothing of
    the previous content is left, and every declared node can be read
    back.  The nodes of the compose file must leave the [id] property
    alone; those of the team roster and of the cluster manifests always
    do. *)
Theorem load_graph_holds_declared_ids
    g0 docker_out teams_data k8s_data j :
  Forall id_stable docker_out.1 →
  is_Some (get_node (load_graph g0 docker_out teams_data k8s_data) j)
  ↔ j ∈ node_id <$> docker_out.1
    ∨ j ∈ node_id <$> (TeamsConnector.parse teams_data).1
    ∨ match k8s_data with
      | Some documents =>
          j ∈ node_id <$> (KubernetesConnector.parse documents).1
      | None => False
      end.
Proof.
  intros Hdocker.
  assert (Forall id_stable (TeamsConnector.parse teams_data).1) as Hteams.
  { apply Forall_forall. intros n Hn. left. by eapply teams_nodes_no_id. }
  assert (∀ documents,
            Forall id_stable (KubernetesConnector.parse documents).1)
    as Hk8s.
  { intros documents. apply Forall_forall. intros n Hn. left.
    by eapply k8s_nodes_no_id. }
  unfold load_graph. cbv zeta.
  assert (is_Some (get_node
                     (load_stage (load_stage (clear_all g0) docker_out)
                        (TeamsConnector.parse teams_data)) j)
          ↔ j ∈ node_id <$> docker_out.1
            ∨ j ∈ node_id <$> (TeamsConnector.parse teams_data).1) as H2.
  { rewrite !present_load_stage by done. rewrite get_node_clear_all.
    split.
    - intros [? | [? | [? ?]]]; [by right | by left | done].
    - intros [? | ?]; [right; by left | by left]. }
  destruct k8s_data as [documents|].
  - rewrite present_load_stage by done. rewrite H2. tauto.
  - rewrite H2. tauto.
Qed.

Lemma load_graph_holds_declared_ids_witness :
  is_Some (get_node
             (load_graph fixture
                ([service_node "api"], [])
                (Some [mkTeam (Some "platform") VNone VNone VNone ["api"]])
                None)
             "team:platform")
  ∧ ¬ is_Some (get_node
                 (load_graph fixture
                    ([service_node "api"], [])
                    (Some [mkTeam (Some "platform") VNone VNone VNone ["api"]])
                    None)
                 "service:A").
Proof.
  assert (Forall id_stable [service_node "api"]) as Hst
    by (apply Forall_singleton; left; reflexivity).
  split.
  - apply (load_graph_holds_declared_ids fixture
             ([service_node "api"], []) _ None "team:platform" Hst).
    right. left. vm_compute. left.
  - intros H.
    apply (load_graph_holds_declared_ids fixture
             ([service_node "api"], []) _ None "service:A" Hst) in H.
    destruct H as [H | [H | []]];
      vm_compute in H;
      apply elem_of_cons in H as [H | H];
      first [discriminate | by apply not_elem_of_nil in H].
Defined.

(** * Further properties of the text helpers *)

(** ** Environment lists *)

Lemma parse_environment_snoc items item :
  DockerComposeConnector._parse_environment (EnvList (items ++ [item]))
  = match DockerComposeConnector.split_eq item with
    | Some (key, v) =>
        dict_set (DockerComposeConnector._parse_environment (EnvList items))
          key v
    | None => DockerComposeConnector._parse_environment (EnvList items)
    end.
Proof. simpl. rewrite foldl_app. simpl. by destruct (_ item) as [[]|]. Qed.

Lemma upto_after_sep c k v :
  contains (String c "") k = false →
  upto_sep c (k +:+ String c v) = k ∧ after_sep c (k +:+ String c v) = Some v.
Proof.
  induction k as [|a k IH]; simpl.
  - intros _. by rewrite !decide_True by done.
  - destruct (Ascii.ascii_dec c a) as [-> | Hne]; [by destruct k|].
    rewrite orb_false_l. intros Hk. destruct (IH Hk) as [-> ->].
    rewrite !decide_False by congruence. done.
Qed.

(** X18. Reading an environment list.  An entry [KEY=value] is split at
    its first [=], so the value may itself contain [=]; entries without
    [=] are skipped.  The result has every key once, and gives each key
    the value of its last entry in the list. *)
Theorem parse_environment_last_wins :
  (∀ items key,
     dict_get (DockerComposeConnector._parse_environment (EnvList items)) key
     = last (omap (env_value key) items))
  ∧ (∀ items,
       NoDup (DockerComposeConnector._parse_environment (EnvList items)).*1)
  ∧ (∀ k v,
       contains "=" k = false →
       DockerComposeConnector._parse_environment (EnvList [k +:+ "=" +:+ v])
       = [(k, v)])
  ∧ (∀ item,
       contains "=" item = false →
       DockerComposeConnector._parse_environment (EnvList [item]) = []).
Proof.
  split_and!.
  - intros items key. induction items as [|item items IH] using rev_ind.
    { done. }
    rewrite parse_environment_snoc, omap_app.
    change (omap (env_value key) [item])
      with (match env_value key item with Some y => [y] | None => [] end).
    unfold env_value at 2.
    destruct (DockerComposeConnector.split_eq item) as [[k v]|].
    + rewrite dict_get_set. destruct (decide (k = key)) as [-> | Hk].
      * by rewrite last_snoc.
      * by rewrite app_nil_r.
    + by rewrite app_nil_r.
  - intros items. induction items as [|item items IH] using rev_ind.
    { constructor. }
    rewrite parse_environment_snoc.
    destruct (DockerComposeConnector.split_eq item) as [[k v]|]; [|done].
    rewrite dict_set_keys. case_decide as Hin; [done|].
    apply NoDup_app. split_and!; [done| |apply NoDup_singleton].
    intros x Hx Hx'. apply list_elem_of_singleton in Hx'. by subst.
  - intros k v Hk.
    destruct (upto_after_sep "=" k v Hk) as [Hu Ha].
    simpl. unfold DockerComposeConnector.split_eq.
    change (k +:+ "=" +:+ v) with (k +:+ String "=" v).
    by rewrite Ha, Hu.
  - intros item Hitem.
    assert (after_sep "=" item = None) as Ha.
    { induction item as [|a item IH]; [done|].
      rewrite contains_unfold in Hitem.
      apply orb_false_iff in Hitem as [Hp Hc]. cbn [after_sep].
      destruct (decide (a = "="%char)) as [-> | Hne]; [|by apply IH].
      destruct item; vm_compute in Hp; discriminate. }
    simpl. unfold DockerComposeConnector.split_eq. by rewrite Ha.
Qed.

Lemma parse_environment_last_wins_witness :
  DockerComposeConnector._parse_environment
    (EnvList ["DATABASE_URL" +:+ "=" +:+ "postgres://db/x?sslmode=require"])
  = [("DATABASE_URL", "postgres://db/x?sslmode=require")].
Proof.
  apply (proj1 (proj2 (proj2 parse_environment_last_wins))).
  vm_compute. reflexivity.
Defined.

(** ** Host names in connection strings *)

Lemma str_app_assoc (a b c : string) : (a +:+ b) +:+ c = a +:+ (b +:+ c).
Proof.
  induction a as [|x a IH]; [done|].
  change (String x ((a +:+ b) +:+ c) = String x (a +:+ (b +:+ c))).
  by rewrite IH.
Qed.

Lemma strip_prefix_spec lit s rest :
  strip_prefix lit s = Some rest → s = lit +:+ rest.
Proof.
  revert s. induction lit as [|a lit IH]; intros s; simpl.
  - by intros [= ->].
  - destruct s as [|b s]; [done|]. case_decide; [|done]. subst.
    intros H. by rewrite (IH _ H).
Qed.

Lemma span_spec excl s run rest :
  span excl s = (run, rest) →
  s = run +:+ rest
  ∧ ∀ c, c ∈ excl → contains (String c "") run = false.
Proof.
  revert run rest. induction s as [|a s IH]; intros run rest; simpl.
  - by intros [= <- <-].
  - case_decide as Ha.
    + by intros [= <- <-].
    + destruct (span excl s) as [run' rest'] eqn:E. intros [= <- <-].
      destruct (IH _ _ eq_refl) as [-> Hrun]. split; [done|].
      intros c Hc. rewrite contains_unfold, (Hrun c Hc), orb_false_r.
      simpl. destruct (Ascii.ascii_dec c a) as [-> | Hne]; [done|done].
Qed.

Lemma match_here_spec lit excl term s r :
  match_here lit excl term s = Some r →
  r ≠ ""
  ∧ (∀ c, c ∈ excl → contains (String c "") r = false)
  ∧ ∃ rest, s = lit +:+ r +:+ rest
            ∧ match term with
              | None => True
              | Some ts => ∃ c rest', rest = String c rest' ∧ c ∈ ts
              end.
Proof.
  unfold match_here.
  destruct (strip_prefix lit s) as [rest|] eqn:Es; [|done].
  apply strip_prefix_spec in Es.
  destruct (span excl rest) as [run rest'] eqn:Esp.
  apply span_spec in Esp as [-> Hrun].
  destruct (String.eqb_spec run "") as [|Hne]; [done|].
  destruct term as [ts|].
  - destruct rest' as [|c rest'']; [done|]. case_decide as Hc; [|done].
    intros [= <-]. split_and!; try done. exists (String c rest'').
    split; [done|]. by exists c, rest''.
  - intros [= <-]. split_and!; try done. by exists rest'.
Qed.

Lemma re_search_spec lit excl term s r :
  re_search lit excl term s = Some r →
  r ≠ ""
  ∧ (∀ c, c ∈ excl → contains (String c "") r = false)
  ∧ ∃ pre rest, s = pre +:+ lit +:+ r +:+ rest
                ∧ match term with
                  | None => True
                  | Some ts => ∃ c rest', rest = String c rest' ∧ c ∈ ts
                  end.
Proof.
  induction s as [|a s IH]; cbn [re_search].
  - destruct (match_here lit excl term "") as [r'|] eqn:E; [|done].
    intros [= ->]. apply match_here_spec in E as (? & ? & rest & ? & ?).
    split_and!; try done. by exists "", rest.
  - destruct (match_here lit excl term (String a s)) as [r'|] eqn:E.
    + intros [= ->]. apply match_here_spec in E as (? & ? & rest & ? & ?).
      split_and!; try done. by exists "", rest.
    + intros H. apply IH in H as (? & ? & pre & rest & -> & ?).
      split_and!; try done. by exists (String a pre), rest.
Qed.

Lemma first_match_spec patterns url r :
  first_match patterns url = Some r →
  ∃ lit excl term,
    (lit, excl, term) ∈ patterns
    ∧ r ≠ ""
    ∧ (∀ c, c ∈ excl → contains (String c "") r = false)
    ∧ ∃ pre rest, url = pre +:+ lit +:+ r +:+ rest
                  ∧ match term with
                    | None => True
                    | Some ts => ∃ c rest', rest = String c rest' ∧ c ∈ ts
                    end.
Proof.
  induction patterns as [|[[lit excl] term] patterns IH]; [done|].
  cbn [first_match].
  destruct (re_search lit excl term url) as [r'|] eqn:E.
  - intros [= ->]. apply re_search_spec in E as (? & ? & ?).
    exists lit, excl, term. split; [left|done].
  - intros H. apply IH in H as (lit' & excl' & term' & Hin & H).
    exists lit', excl', term'. split; [by right | done].
Qed.

Lemma prefix_app sub rest : String.prefix sub (sub +:+ rest) = true.
Proof.
  induction sub as [|a sub IH]; simpl; [by destruct rest|].
  destruct (Ascii.ascii_dec a a); [done|done].
Qed.

Lemma contains_infix pre sub rest :
  contains sub (pre +:+ sub +:+ rest) = true.
Proof.
  induction pre as [|a pre IH].
  - change ("" +:+ sub +:+ rest) with (sub +:+ rest).
    rewrite contains_unfold, prefix_app. done.
  - change (String a pre +:+ sub +:+ rest)
      with (String a (pre +:+ sub +:+ rest)).
    rewrite contains_unfold, IH. apply orb_true_r.
Qed.

(** X19. The host name taken from a connection string.  What
    [_extract_service_from_url] returns is never empty, contains none of
    [:], [/] and [@], and stands in the string right after [://] or
    [@]; a string with neither [://] nor [@] gives nothing.  What
    [_extract_service_from_k8s_url] returns is never empty, contains no
    dot, and stands between [://] and a dot or a colon: the first label
    of the host name. *)
Theorem extract_service_from_url_result :
  (∀ url r,
     DockerComposeConnector._extract_service_from_url url = Some r →
     r ≠ ""
     ∧ contains ":" r = false ∧ contains "/" r = false
     ∧ contains "@" r = false
     ∧ ∃ pre lit rest,
         (lit = "://" ∨ lit = "@") ∧ url = pre +:+ lit +:+ r +:+ rest)
  ∧ (∀ url,
       contains "://" url = false → contains "@" url = false →
       DockerComposeConnector._extract_service_from_url url = None)
  ∧ (∀ url r,
       KubernetesConnector._extract_service_from_k8s_url url = Some r →
       r ≠ ""
       ∧ contains "." r = false
       ∧ ∃ pre c rest,
           (c = "."%char ∨ c = ":"%char)
           ∧ url = pre +:+ "://" +:+ r +:+ String c rest).
Proof.
  assert (∀ url r,
            DockerComposeConnector._extract_service_from_url url = Some r →
            r ≠ ""
            ∧ contains ":" r = false ∧ contains "/" r = false
            ∧ contains "@" r = false
            ∧ ∃ pre lit rest,
                (lit = "://" ∨ lit = "@")
                ∧ url = pre +:+ lit +:+ r +:+ rest) as Hdocker.
  { intros url r H. apply first_match_spec in H
      as (lit & excl & term & Hin & Hne & Hex & pre & rest & -> & _).
    assert (excl = [":"; "/"; "@"]%char
            ∧ (lit = "://" ∨ lit = "@" ∨ lit = "http://")) as [-> Hlit].
    { unfold DockerComposeConnector.url_patterns in Hin.
      repeat (apply elem_of_cons in Hin as [[= -> -> ->] | Hin];
              [split; [done|]; tauto|]).
      by apply not_elem_of_nil in Hin. }
    split; [done|]. split; [apply Hex; left|].
    split; [apply Hex; right; left|].
    split; [apply Hex; right; right; left|].
    destruct Hlit as [-> | [-> | ->]].
    - exists pre, "://", rest. auto.
    - exists pre, "@", rest. auto.
    - exists (pre +:+ "http"), "://", rest. split; [auto|].
      by rewrite str_app_assoc. }
  split_and!.
  - exact Hdocker.
  - intros url Hs Ha.
    destruct (DockerComposeConnector._extract_service_from_url url)
      as [r|] eqn:E; [|done].
    apply Hdocker in E as (_ & _ & _ & _ & pre & lit & rest & Hlit & ->).
    destruct Hlit as [-> | ->].
    + by rewrite contains_infix in Hs.
    + by rewrite contains_infix in Ha.
  - intros url r H. apply first_match_spec in H
      as (lit & excl & term & Hin & Hne & Hex & pre & rest & -> & Hterm).
    unfold KubernetesConnector.k8s_url_patterns in Hin.
    apply elem_of_cons in Hin as [[= -> -> ->] | Hin].
    { destruct Hterm as (c & rest' & -> & Hc). split; [done|].
      split; [apply Hex; left|].
      exists (pre +:+ "http"), c, rest'. split.
      - apply list_elem_of_singleton in Hc. auto.
      - by rewrite str_app_assoc. }
    apply list_elem_of_singleton in Hin. injection Hin as -> -> ->.
    destruct Hterm as (c & rest' & -> & Hc). split; [done|].
    split; [apply Hex; right; right; left|].
    exists pre, c, rest'. split; [|done].
    apply elem_of_cons in Hc as [-> | Hc]; [auto|].
    apply list_elem_of_singleton in Hc. auto.
Qed.

Lemma extract_service_from_url_result_witness :
  DockerComposeConnector._extract_service_from_url
    "postgres://orders-db:5432/orders" = Some "orders-db"
  ∧ contains ":" "orders-db" = false.
Proof.
  assert (DockerComposeConnector._extract_service_from_url
            "postgres://orders-db:5432/orders" = Some "orders-db") as H
    by (vm_compute; reflexivity).
  split; [exact H|].
  exact (proj1 (proj2 (proj1 extract_service_from_url_result _ _ H))).
Defined.

(** ** Resolved ownership edges *)

Lemma contains_char_after_sep c s :
  contains (String c "") s = true → is_Some (after_sep c s).
Proof.
  induction s as [|a s IH]; rewrite contains_unfold; intros H.
  - by destruct (Ascii.ascii_dec c c).
  - cbn [after_sep]. destruct (decide (a = c)) as [-> | Hne]; [by eexists|].
    apply IH. apply orb_true_iff in H as [H | H]; [|done]. simpl in H.
    destruct (Ascii.ascii_dec c a); [congruence | done].
Qed.

Lemma contains_colon_split_1 s :
  contains ":" s = true → is_Some (split_1 ":" s).
Proof.
  intros H. apply contains_char_after_sep in H as [x Hx].
  unfold split_1. rewrite Hx. by eexists.
Qed.

Lemma find_elem {A} (p : A → bool) (l : list A) x :
  find p l = Some x → x ∈ l.
Proof. intros H. apply find_some in H as [H _]. by apply list_elem_of_In. Qed.

Lemma resolve_edge_cases all_nodes acc edge acc' :
  TeamsConnector.resolve_edge (TeamsConnector.node_map all_nodes) acc edge
  = Ok acc' →
  acc' = acc
  ∨ (edge_type edge = "owns"
     ∧ ∃ e, acc' = acc ++ [e]
            ∧ edge_type e = "owns"
            ∧ edge_source e = edge_source edge
            ∧ edge_properties e = edge_properties edge
            ∧ edge_target e ∈ node_id <$> all_nodes).
Proof.
  unfold TeamsConnector.resolve_edge.
  destruct (String.eqb_spec (edge_type edge) "owns") as [Hty|];
    [|intros [= <-]; by left].
  destruct (dict_get _ (edge_target edge)) as [nid|] eqn:Eg.
  - intros [= <-]. right. split; [done|]. eexists. split; [done|].
    cbn [edge_type edge_source edge_properties edge_target].
    split_and!; try done.
    apply dict_get_elem, node_map_entry in Eg as (n & Hn & <- & _).
    apply list_elem_of_fmap. by exists n.
  - destruct (find _ _) as [[k nid]|] eqn:Ef; [|intros [= <-]; by left].
    destruct (split_1 ":" (edge_source edge)) as [s1|]; [|done].
    destruct (split_1 ":" nid) as [n1|]; [|done].
    intros [= <-]. right. split; [done|]. eexists. split; [done|].
    cbn [edge_type edge_source edge_properties edge_target].
    split_and!; try done.
    apply find_elem, node_map_entry in Ef as (n & Hn & <- & _).
    apply list_elem_of_fmap. by exists n.
Qed.

Lemma for_each_resolve_output all_nodes edges acc out :
  for_each (TeamsConnector.resolve_edge (TeamsConnector.node_map all_nodes))
    acc edges = Ok out →
  (length out
   ≤ length acc + length (filter (λ e, edge_type e = "owns") edges))%nat
  ∧ ∀ e, e ∈ out →
      e ∈ acc
      ∨ (edge_type e = "owns"
         ∧ edge_target e ∈ node_id <$> all_nodes
         ∧ ∃ e0, e0 ∈ edges ∧ edge_type e0 = "owns"
                 ∧ edge_source e = edge_source e0
                 ∧ edge_properties e = edge_properties e0).
Proof.
  revert acc. induction edges as [|edge edges IH]; intros acc; simpl.
  { intros [= <-]. split; [lia|]. intros e He. by left. }
  destruct (TeamsConnector.resolve_edge _ acc edge) as [acc'|] eqn:E; [|done].
  intros Hout. apply IH in Hout as [Hlen Hall].
  apply resolve_edge_cases in E as [-> | (Hty & e1 & -> & H1 & H2 & H3 & H4)].
  - split.
    + rewrite filter_cons. case_decide; simpl; lia.
    + intros e He. apply Hall in He as [He | (? & ? & e0 & ? & ?)];
        [by left|]. right. split_and!; try done. exists e0.
      split; [by right | done].
  - split.
    + rewrite filter_cons_True by done. rewrite length_app in Hlen.
      simpl in *. lia.
    + intros e He. apply Hall in He as [He | (? & ? & e0 & ? & ?)].
      * apply elem_of_app in He as [He | He]; [by left|].
        apply list_elem_of_singleton in He. subst e. right.
        split_and!; try done. exists edge. split; [left | done].
      * right. split_and!; try done. exists e0.
        split; [by right | done].
Qed.

Lemma resolve_edge_total all_nodes acc edge :
  contains ":" (edge_source edge) = true →
  (∀ n, n ∈ all_nodes → contains ":" (node_id n) = true) →
  ∃ acc',
    TeamsConnector.resolve_edge (TeamsConnector.node_map all_nodes) acc edge
    = Ok acc'.
Proof.
  intros Hsrc Hids. unfold TeamsConnector.resolve_edge.
  destruct (String.eqb (edge_type edge) "owns"); [|by eexists].
  destruct (dict_get _ (edge_target edge)); [by eexists|].
  destruct (find _ _) as [[k nid]|] eqn:Ef; [|by eexists].
  apply find_elem, node_map_entry in Ef as (n & Hn & <- & _).
  destruct (contains_colon_split_1 _ Hsrc) as [s1 ->].
  destruct (contains_colon_split_1 _ (Hids n Hn)) as [n1 ->].
  by eexists.
Qed.

(** X20. What [resolve_ownership_targets] returns.  Every edge of the
    result is an [owns] edge that ends at the id of one of the given
    nodes and keeps the source and the properties of an [owns] edge of
    the roster; there is at most one per [owns] edge of the roster, and
    edges of other types are dropped.  The call cannot fail when every
    edge source and every node id contains a colon, as the ids built by
    the connectors do.  With no nodes nothing is resolved. *)
Theorem resolve_ownership_targets_output self_edges all_nodes :
  (∀ out,
     TeamsConnector.resolve_ownership_targets self_edges all_nodes = Ok out →
     (length out
      ≤ length (filter (λ e, edge_type e = "owns") self_edges))%nat
     ∧ ∀ e, e ∈ out →
         edge_type e = "owns"
         ∧ edge_target e ∈ node_id <$> all_nodes
         ∧ ∃ e0, e0 ∈ self_edges ∧ edge_type e0 = "owns"
                 ∧ edge_source e = edge_source e0
                 ∧ edge_properties e = edge_properties e0)
  ∧ ((∀ e, e ∈ self_edges → contains ":" (edge_source e) = true) →
     (∀ n, n ∈ all_nodes → contains ":" (node_id n) = true) →
     ∃ out,
       TeamsConnector.resolve_ownership_targets self_edges all_nodes
       = Ok out)
  ∧ TeamsConnector.resolve_ownership_targets self_edges [] = Ok [].
Proof.
  unfold TeamsConnector.resolve_ownership_targets. split_and!.
  - intros out Hout. apply for_each_resolve_output in Hout as [Hlen Hall].
    split; [simpl in Hlen; lia|].
    intros e He. apply Hall in He as [He | He]; [|done].
    by apply not_elem_of_nil in He.
  - intros Hsrc Hids. generalize (@nil Edge).
    induction self_edges as [|edge edges IH]; intros acc; simpl;
      [by eexists|].
    destruct (resolve_edge_total all_nodes acc edge) as [acc' ->];
      [apply Hsrc; left | done |].
    apply IH. intros e He. apply Hsrc. by right.
  - assert (∀ acc,
              for_each
                (TeamsConnector.resolve_edge (TeamsConnector.node_map []))
                acc self_edges = Ok acc) as H; [|apply H].
    induction self_edges as [|edge edges IH]; intros acc; [done|].
    cbn [for_each].
    assert (TeamsConnector.resolve_edge (TeamsConnector.node_map []) acc edge
            = Ok acc) as ->; [|apply IH].
    unfold TeamsConnector.resolve_edge.
    by destruct (String.eqb (edge_type edge) "owns").
Qed.

Lemma resolve_ownership_targets_output_witness :
  ∃ out,
    TeamsConnector.resolve_ownership_targets [raw_api_edge] api_nodes
    = Ok out.
Proof.
  apply (proj1 (proj2 (resolve_ownership_targets_output
                         [raw_api_edge] api_nodes))).
  - intros e He. apply list_elem_of_singleton in He. subst e.
    vm_compute. reflexivity.
  - intros n Hn. unfold api_nodes in Hn.
    apply elem_of_cons in Hn as [-> | Hn]; [vm_compute; reflexivity|].
    apply list_elem_of_singleton in Hn. subst n. vm_compute. reflexivity.
Defined.

(** * Further properties: writes and queries together *)

(** ** What an edge write leaves alone *)

Lemma node_of_key_gnodes g g' k :
  gnodes g = gnodes g' → node_of_key g k = node_of_key g' k.
Proof. unfold node_of_key. by intros ->. Qed.

Lemma elem_of_get_all_edges g row :
  row ∈ get_all_edges g ↔
  ∃ r source target,
    r ∈ grels g
    ∧ node_of_key g (rsrc r) = Some source
    ∧ node_of_key g (rdst r) = Some target
    ∧ row = mkEdgeDict (prop "id" (rprops r)) (prop "type" (rprops r))
              (prop "id" (nprops source)) (prop "id" (nprops target))
              (delete "type" (delete "id" (rprops r))).
Proof.
  unfold get_all_edges. rewrite list_elem_of_bind. split.
  - intros (r & Hrow & Hr). exists r.
    destruct (node_of_key g (rsrc r)) as [a|];
      [|by apply not_elem_of_nil in Hrow].
    destruct (node_of_key g (rdst r)) as [b|];
      [|by apply not_elem_of_nil in Hrow].
    apply list_elem_of_singleton in Hrow. by exists a, b.
  - intros (r & a & b & Hr & Ha & Hb & ->). exists r. split; [|done].
    rewrite Ha, Hb. left.
Qed.

Lemma foldl_merge_rel_grels idv rows g :
  ∃ news,
    grels (foldl (merge_rel idv) g rows) = grels g ++ news
    ∧ ∀ r, r ∈ news → rprops r = {["id" := VStr idv]}.
Proof.
  revert g. induction rows as [|row rows IH]; intros g.
  { exists []. split; [by rewrite app_nil_r|].
    intros r Hr. by apply not_elem_of_nil in Hr. }
  simpl. destruct (IH (merge_rel idv g row)) as (news & -> & Hnews).
  unfold merge_rel. destruct (existsb _ (grels g)).
  - by exists news.
  - simpl. eexists (_ :: news). rewrite <- app_assoc. split; [done|].
    intros r Hr. apply elem_of_cons in Hr as [-> | Hr]; [done|].
    by apply Hnews.
Qed.

Lemma prop_id_has_id idv m :
  has_id idv m = true → prop "id" m = VStr idv.
Proof. rewrite has_id_spec. unfold prop. by intros ->. Qed.

Lemma upsert_rel_step_cases edge rows r :
  edge_id_stable edge →
  (upsert_rel_step edge rows r = r
   ∧ (has_id (edge_id edge) (rprops r) = false
      ∨ prop "id" (rprops r) = VStr (edge_id edge)))
  ∨ prop "id" (rprops (upsert_rel_step edge rows r)) = VStr (edge_id edge)
    ∧ prop "id" (rprops r) = VStr (edge_id edge).
Proof.
  intros Hst. unfold upsert_rel_step.
  destruct (existsb _ rows) eqn:E.
  - right. apply existsb_exists in E as (row & _ & Hrow).
    apply rel_matches_has_id in Hrow. simpl. split.
    + by apply prop_id_has_id, has_id_set_rel.
    + by apply prop_id_has_id.
  - left. split; [done|].
    destruct (has_id (edge_id edge) (rprops r)) eqn:Eh; [|by left].
    right. by apply prop_id_has_id.
Qed.

Lemma upsert_rel_step_other edge rows r :
  prop "id" (rprops r) ≠ VStr (edge_id edge) →
  upsert_rel_step edge rows r = r.
Proof.
  intros Hid. unfold upsert_rel_step.
  destruct (existsb _ rows) eqn:E; [|done].
  apply existsb_exists in E as (row & _ & Hrow).
  apply rel_matches_has_id, prop_id_has_id in Hrow. done.
Qed.

Lemma upsert_rel_step_ends edge rows r :
  rsrc (upsert_rel_step edge rows r) = rsrc r
  ∧ rdst (upsert_rel_step edge rows r) = rdst r.
Proof. unfold upsert_rel_step. by destruct (existsb _ rows). Qed.

(** X21. What an edge write leaves alone.  [upsert_edge] never creates,
    removes or changes a node, and every edge listed under another id is
    listed exactly as before: nothing but the edge written is touched.
    The incoming properties must leave the [id] property alone. *)
Theorem upsert_edge_frames_the_rest g edge :
  edge_id_stable edge →
  (∀ j, get_node (upsert_edge g edge) j = get_node g j)
  ∧ (∀ node_type, get_nodes (upsert_edge g edge) node_type
                  = get_nodes g node_type)
  ∧ (∀ row, ed_id row ≠ VStr (edge_id edge) →
       row ∈ get_all_edges (upsert_edge g edge) ↔ row ∈ get_all_edges g).
Proof.
  intros Hst. pose proof (upsert_edge_gnodes g edge) as Hn. split_and!.
  - intros j. unfold get_node, GraphStorage.get_node.
    by rewrite (match_nodes_gnodes _ g).
  - intros node_type. unfold get_nodes, GraphStorage.get_nodes.
    by rewrite Hn.
  - intros row Hrow. rewrite !elem_of_get_all_edges.
    setoid_rewrite (node_of_key_gnodes (upsert_edge g edge) g);
      [|done|done].
    rewrite upsert_edge_unfold. cbv zeta. cbn [grels].
    destruct (foldl_merge_rel_grels (edge_id edge) (edge_rows g edge) g)
      as (news & -> & Hnews).
    set (rows := edge_rows g edge). split.
    + intros (r' & a & b & Hr' & Ha & Hb & ->).
      apply list_elem_of_fmap in Hr' as (r & -> & Hr).
      destruct (upsert_rel_step_cases edge rows r Hst)
        as [[Heq Hor] | [Hid _]]; [|done].
      rewrite Heq in *. exists r, a, b. split_and!; try done.
      apply elem_of_app in Hr as [Hr | Hr]; [done|]. exfalso.
      apply Hrow. simpl. rewrite (Hnews r Hr). done.
    + intros (r & a & b & Hr & Ha & Hb & ->). simpl in Hrow.
      exists r, a, b. split_and!; try done.
      apply list_elem_of_fmap. exists r.
      split; [by rewrite upsert_rel_step_other|].
      apply elem_of_app. by left.
Qed.

Lemma upsert_edge_frames_the_rest_witness :
  edge_id_stable weighted_edge
  ∧ get_node (upsert_edge fixture weighted_edge) "service:A"
    = get_node fixture "service:A".
Proof.
  assert (edge_id_stable weighted_edge) as Hst by (left; reflexivity).
  split; [exact Hst|].
  exact (proj1 (upsert_edge_frames_the_rest fixture weighted_edge Hst)
           "service:A").
Defined.

(** ** Reachability grows with the edges *)

Lemma walk_mono g g' k u v :
  (∀ r, r ∈ grels g →
        ∃ r', r' ∈ grels g' ∧ rsrc r' = rsrc r ∧ rdst r' = rdst r) →
  walk g k u v → walk g' k u v.
Proof.
  intros Hsub. induction 1 as [u | k r v Hr Hw IH]; [constructor|].
  destruct (Hsub r Hr) as (r' & Hr' & <- & Hd).
  apply walk_step; [done|]. by rewrite Hd.
Qed.

Lemma upsert_edge_rels_kept g edge r :
  r ∈ grels g →
  ∃ r', r' ∈ grels (upsert_edge g edge)
        ∧ rsrc r' = rsrc r ∧ rdst r' = rdst r.
Proof.
  intros Hr. rewrite upsert_edge_unfold. cbv zeta. cbn [grels].
  destruct (foldl_merge_rel_grels (edge_id edge) (edge_rows g edge) g)
    as (news & -> & _).
  exists (upsert_rel_step edge (edge_rows g edge) r). split.
  - apply list_elem_of_fmap. exists r. split; [done|].
    apply elem_of_app. by left.
  - apply upsert_rel_step_ends.
Qed.

(** X22. Writing an edge never shrinks a traversal: on a well-formed
    store every node that was downstream of [x] is still downstream of
    [x] after [upsert_edge], and likewise upstream. *)
Theorem upsert_edge_keeps_reachability g edge x :
  graph_wf g →
  ∃ ds ds' us us',
    downstream g x [] = Ok ds
    ∧ downstream (upsert_edge g edge) x [] = Ok ds'
    ∧ upstream g x [] = Ok us
    ∧ upstream (upsert_edge g edge) x [] = Ok us'
    ∧ (∀ m, m ∈ ds → m ∈ ds') ∧ (∀ m, m ∈ us → m ∈ us').
Proof.
  intros Hwf. pose proof (upsert_edge_wf g edge Hwf) as Hwf'.
  pose proof (upsert_edge_gnodes g edge) as Hn.
  exists (nprops <$> downstream_nodes g x),
    (nprops <$> downstream_nodes (upsert_edge g edge) x),
    (nprops <$> upstream_nodes g x),
    (nprops <$> upstream_nodes (upsert_edge g edge) x).
  split; [reflexivity|]. split; [reflexivity|].
  split; [reflexivity|]. split; [reflexivity|]. split.
  - intros m Hm. apply list_elem_of_fmap in Hm as (n & -> & Hin).
    apply list_elem_of_fmap. exists n. split; [done|].
    apply (elem_of_downstream_nodes g x n Hwf) in Hin
      as (Hng & s & k & Hs & Hk & Hw).
    apply (elem_of_downstream_nodes _ x n Hwf'). rewrite Hn.
    split; [done|]. exists s, k.
    rewrite (match_nodes_gnodes _ g) by done. split; [done|].
    split; [done|]. eapply walk_mono; [|done].
    intros r Hr. by apply upsert_edge_rels_kept.
  - intros m Hm. apply list_elem_of_fmap in Hm as (n & -> & Hin).
    apply list_elem_of_fmap. exists n. split; [done|].
    apply (elem_of_upstream_nodes g x n Hwf) in Hin
      as (Hng & s & k & Hs & Hk & Hw).
    apply (elem_of_upstream_nodes _ x n Hwf'). rewrite Hn.
    split; [done|]. exists s, k.
    rewrite (match_nodes_gnodes _ g) by done. split; [done|].
    split; [done|]. eapply walk_mono; [|done].
    intros r Hr. by apply upsert_edge_rels_kept.
Qed.

Lemma upsert_edge_keeps_reachability_witness :
  ∃ ds ds' us us',
    downstream fixture "service:A" [] = Ok ds
    ∧ downstream (upsert_edge fixture weighted_edge) "service:A" [] = Ok ds'
    ∧ upstream fixture "service:A" [] = Ok us
    ∧ upstream (upsert_edge fixture weighted_edge) "service:A" [] = Ok us'
    ∧ (∀ m, m ∈ ds → m ∈ ds') ∧ (∀ m, m ∈ us → m ∈ us').
Proof.
  apply (upsert_edge_keeps_reachability fixture weighted_edge "service:A").
  apply (bool_decide_unpack _). vm_compute. reflexivity.
Defined.

(** ** Deleting what was just written *)

Lemma filter_all {A} (P : A → Prop) `{∀ x, Decision (P x)} (l : list A) :
  (∀ x, x ∈ l → P x) → filter P l = l.
Proof.
  induction l as [|a l IH]; intros Hall; [done|].
  rewrite filter_cons_True by (apply Hall; left).
  rewrite IH; [done|]. intros x Hx. apply Hall. by right.
Qed.

(** X23. Deleting a node that was just written as new brings the store
    back: on a well-formed store without a node of that id,
    [upsert_node] followed by [delete_node] reports a deletion and leaves
    the nodes and the relationships exactly as they were. *)
Theorem delete_node_undoes_upsert_node g node :
  graph_wf g → id_stable node → get_node g (node_id node) = None →
  (delete_node (upsert_node g node) (node_id node)).2 = true
  ∧ gnodes (delete_node (upsert_node g node) (node_id node)).1 = gnodes g
  ∧ grels (delete_node (upsert_node g node) (node_id node)).1 = grels g
  ∧ get_all_edges (delete_node (upsert_node g node) (node_id node)).1
    = get_all_edges g.
Proof.
  intros Hwf Hst Hnone.
  assert (match_nodes g (node_id node) = []) as Hnil.
  { unfold get_node, GraphStorage.get_node in Hnone.
    by destruct (match_nodes g (node_id node)). }
  pose proof (proj1 (match_nodes_nil g (node_id node)) Hnil) as Hno.
  set (new := GNode (gfresh g) (set_node node {["id" := VStr (node_id node)]})).
  assert (has_id (node_id node) (nprops new) = true) as Hnew.
  { apply has_id_spec. simpl. rewrite lookup_set_node.
    destruct Hst as [-> | ->]; [|done].
    rewrite !decide_False by done. apply lookup_singleton_eq. }
  assert (upsert_node g node
          = Graph (gnodes g ++ [new]) (grels g) (S (gfresh g))) as Hup.
  { rewrite upsert_node_unfold. unfold merge_node. rewrite Hnil. cbv zeta.
    cbn [gnodes grels gfresh]. f_equal. rewrite fmap_app. f_equal.
    - rewrite <- (list_fmap_id (gnodes g)) at 2. apply list_fmap_ext.
      intros i n Hn. unfold upsert_step.
      rewrite Hno by (by eapply list_elem_of_lookup_2). done.
    - simpl. unfold upsert_step. simpl.
      rewrite (proj2 (has_id_spec _ _)) by apply lookup_singleton_eq.
      done. }
  assert (match_nodes (upsert_node g node) (node_id node) = [new]) as Hm.
  { rewrite Hup. unfold match_nodes. cbn [gnodes]. rewrite filter_app.
    fold (match_nodes g (node_id node)). rewrite Hnil.
    rewrite filter_cons_True by done. done. }
  assert (gnodes (delete_node (upsert_node g node) (node_id node)).1
          = gnodes g) as Hgn.
  { unfold delete_node. cbn [fst gnodes]. rewrite Hup. cbn [gnodes].
    rewrite filter_app, filter_cons_False, filter_nil, app_nil_r
      by (rewrite Hnew; done).
    apply filter_all. intros n Hn. by apply Hno. }
  assert (grels (delete_node (upsert_node g node) (node_id node)).1
          = grels g) as Hgr.
  { unfold delete_node. cbn [fst grels]. rewrite Hm, Hup. cbn [grels].
    apply filter_all. intros r Hr.
    destruct Hwf as (_ & _ & Fn & _ & Fe).
    rewrite Forall_forall in Fn. rewrite Forall_forall in Fe.
    destruct (Fe r Hr) as [Hs Hd].
    apply list_elem_of_fmap in Hs as (a & Ha & Hain).
    apply list_elem_of_fmap in Hd as (b & Hb & Hbin).
    apply Fn in Hain, Hbin. simpl.
    rewrite !list_elem_of_singleton. lia. }
  split_and!; try done.
  - unfold delete_node. cbn [snd]. by rewrite Hm.
  - unfold get_all_edges. rewrite Hgr.
    apply Forall_bind_ext, Forall_forall. intros r Hr.
    rewrite !(node_of_key_gnodes
               (delete_node (upsert_node g node) (node_id node)).1 g)
      by done.
    done.
Qed.

Lemma delete_node_undoes_upsert_node_witness :
  gnodes (delete_node (upsert_node fixture (service_node "D")) "service:D").1
  = gnodes fixture
  ∧ grels (delete_node (upsert_node fixture (service_node "D")) "service:D").1
    = grels fixture.
Proof.
  destruct (delete_node_undoes_upsert_node fixture (service_node "D"))
    as (_ & Hn & Hr & _).
  - apply (bool_decide_unpack _). vm_compute. reflexivity.
  - left. reflexivity.
  - vm_compute. reflexivity.
  - split; [exact Hn | exact Hr].
Defined.

(** ** Paths ignore direction *)

Lemma uwalk_snoc_fwd g k u r :
  r ∈ grels g → uwalk g k u (rsrc r) → uwalk g (S k) u (rdst r).
Proof.
  intros Hr. remember (rsrc r) as w eqn:Hw.
  induction 1 as [u | k r' v Hr' _ IH | k r' v Hr' _ IH].
  - subst. apply uwalk_fwd; [done|]. constructor.
  - apply uwalk_fwd; [done|]. by apply IH.
  - apply uwalk_bwd; [done|]. by apply IH.
Qed.

Lemma uwalk_snoc_bwd g k u r :
  r ∈ grels g → uwalk g k u (rdst r) → uwalk g (S k) u (rsrc r).
Proof.
  intros Hr. remember (rdst r) as w eqn:Hw.
  induction 1 as [u | k r' v Hr' _ IH | k r' v Hr' _ IH].
  - subst. apply uwalk_bwd; [done|]. constructor.
  - apply uwalk_fwd; [done|]. by apply IH.
  - apply uwalk_bwd; [done|]. by apply IH.
Qed.

Lemma uwalk_sym g k u v : uwalk g k u v → uwalk g k v u.
Proof.
  induction 1 as [u | k r v Hr _ IH | k r v Hr _ IH].
  - constructor.
  - by apply uwalk_snoc_bwd.
  - by apply uwalk_snoc_fwd.
Qed.

Lemma path_length pick g from_id to_id s t :
  graph_wf g → (∀ l, l ≠ [] → pick l ∈ l) →
  match_nodes g from_id = [s] → match_nodes g to_id = [t] →
  from_id ≠ to_id →
  ∃ p,
    path pick g from_id to_id = Ok p
    ∧ ((p = [] ∧ ∀ k, (k ≤ 15)%nat → ¬ uwalk g k (nkey s) (nkey t))
       ∨ ∃ k, (1 ≤ k ≤ 15)%nat ∧ length p = S k
              ∧ uwalk g k (nkey s) (nkey t)
              ∧ ∀ j, uwalk g j (nkey s) (nkey t) → (k ≤ j)%nat).
Proof.
  intros Hwf Hpick Hs Ht Hne.
  destruct (match_nodes_distinct_keys g _ _ _ _ Hwf Hs Ht Hne)
    as (Hsin & Htin & Hk).
  pose proof Hwf as (Hnd & _).
  unfold path. rewrite Hs, Ht. simpl.
  rewrite bool_decide_eq_false_2 by done. simpl.
  rewrite app_nil_r. unfold shortest_path. simpl.
  destruct (shortest_candidates g (nkey s) (nkey t)) as [|c cs] eqn:Ec.
  { exists []. split; [done|]. left. split; [done|].
    by apply shortest_candidates_nil. }
  assert (pick (c :: cs) ∈ shortest_candidates g (nkey s) (nkey t)) as Hp
    by (rewrite Ec; by apply Hpick).
  apply (shortest_candidates_elem g Hwf _ _ Hk) in Hp
    as (st & Hpeq & Hc & He & Hl & Hndp & Hmin).
  rewrite Hpeq in *. rewrite (distinct_NoDup _ Hndp).
  eexists. split; [done|]. right. exists (length st).
  split_and!; try done; try lia.
  - rewrite length_fmap, <- (length_fmap nkey).
    rewrite omap_node_of_key; [by rewrite length_cons, length_fmap|done|].
    intros k Hin. apply elem_of_cons in Hin as [-> | Hin].
    + apply list_elem_of_fmap. eauto.
    + by eapply chain_node_keys.
  - apply uwalk_chain. eauto.
Qed.

(** X24. [path] ignores the direction of relationships: for two
    different ids, each naming exactly one node of a well-formed store,
    the path from the first to the second and the path from the second
    to the first have the same number of nodes, whichever shortest path
    the database picks; one is empty exactly when the other is. *)
Theorem path_ignores_direction pick pick' g a b s t :
  graph_wf g →
  (∀ l, l ≠ [] → pick l ∈ l) → (∀ l, l ≠ [] → pick' l ∈ l) →
  match_nodes g a = [s] → match_nodes g b = [t] → a ≠ b →
  ∃ p q,
    path pick g a b = Ok p ∧ path pick' g b a = Ok q
    ∧ length p = length q.
Proof.
  intros Hwf Hpick Hpick' Hs Ht Hne.
  destruct (path_length pick g a b s t Hwf Hpick Hs Ht Hne)
    as (p & Hp & Hpl).
  assert (b ≠ a) as Hne' by congruence.
  destruct (path_length pick' g b a t s Hwf Hpick' Ht Hs Hne')
    as (q & Hq & Hql).
  exists p, q. split; [done|]. split; [done|].
  destruct Hpl as [[-> Hno] | (k & Hk & Hlen & Hw & Hmin)];
    destruct Hql as [[-> Hno'] | (k' & Hk' & Hlen' & Hw' & Hmin')].
  - done.
  - exfalso. apply (Hno k'); [lia|]. by apply uwalk_sym.
  - exfalso. apply (Hno' k); [lia|]. by apply uwalk_sym.
  - rewrite Hlen, Hlen'. f_equal.
    apply uwalk_sym in Hw as Hw1. apply uwalk_sym in Hw' as Hw1'.
    apply Hmin in Hw1'. apply Hmin' in Hw1. lia.
Qed.

Lemma path_ignores_direction_witness :
  ∃ p q,
    path pick_first diamond "service:a" "service:d" = Ok p
    ∧ path pick_last diamond "service:d" "service:a" = Ok q
    ∧ length p = length q.
Proof.
  apply (path_ignores_direction pick_first pick_last diamond
           "service:a" "service:d"
           (stored_service 0 "a") (stored_service 3 "d")).
  - apply (bool_decide_unpack _). vm_compute. reflexivity.
  - apply pick_first_elem.
  - apply pick_last_elem.
  - vm_compute. reflexivity.
  - vm_compute. reflexivity.
  - discriminate.
Defined.
